(** * py-utility-progs: the WebP converter and the image downloader

    A shallow embedding of [cwebp-converter/main.py] and
    [img-downloader/downloader.py].

    - Python strings are [string]s, one [ascii] per code point below 256.
    - A function body is a [prog]: a tree of calls into the operating
      system and the libraries ([os], [subprocess], [requests], [open]),
      with [raise] and [try]/[except].
    - The file system is a finite map from path text to node.
    - [ThreadPoolExecutor.map] and the loop that consumes its results are
      a transition system whose steps are picked by a schedule. *)

From Stdlib Require Import Strings.String Strings.Ascii ZArith List Lia Bool.
From stdpp Require Import base tactics option strings gmap list pretty.
Import ListNotations.

Local Open Scope string_scope.
Local Open Scope list_scope.
Local Open Scope nat_scope.

(* ===================================================================== *)
(** * Python strings and [os.path] *)
(* ===================================================================== *)

Module Py.

(** [str.isspace] on one code point below 256. *)
Definition isspace (c : ascii) : bool :=
  let n := nat_of_ascii c in
  ((9 <=? n) && (n <=? 13)) || ((28 <=? n) && (n <=? 32))
  || (n =? 133) || (n =? 160).

(** [str.lower] on one code point below 256. *)
Definition lower_char (c : ascii) : ascii :=
  let n := nat_of_ascii c in
  if ((65 <=? n) && (n <=? 90))
     || ((192 <=? n) && (n <=? 222) && negb (n =? 215))
  then ascii_of_nat (n + 32) else c.

Fixpoint lower (s : string) : string :=
  match s with
  | "" => ""
  | String c s' => String (lower_char c) (lower s')
  end.

Fixpoint lstrip (s : string) : string :=
  match s with
  | "" => ""
  | String c s' => if isspace c then lstrip s' else s
  end.

Fixpoint rstrip (s : string) : string :=
  match s with
  | "" => ""
  | String c s' =>
      match rstrip s' with
      | "" => if isspace c then "" else String c ""
      | r => String c r
      end
  end.

(** [s.strip()]: white space removed at both ends. *)
Definition strip (s : string) : string := rstrip (lstrip s).

Fixpoint all_space (s : string) : bool :=
  match s with
  | "" => true
  | String c s' => isspace c && all_space s'
  end.

Fixpoint last_char (s : string) : option ascii :=
  match s with
  | "" => None
  | String c "" => Some c
  | String _ s' => last_char s'
  end.

Definition first_char (s : string) : option ascii :=
  match s with "" => None | String c _ => Some c end.

Fixpoint startswith (s pre : string) : bool :=
  match pre, s with
  | "", _ => true
  | String a pre', String b s' => Ascii.eqb a b && startswith s' pre'
  | String _ _, "" => false
  end.

(** [s.endswith(suf)] *)
Fixpoint endswith (s suf : string) : bool :=
  String.eqb s suf
  || match s with
     | "" => false
     | String _ s' => endswith s' suf
     end.

(** [s.endswith((a, b, ...))] *)
Definition endswith_any (s : string) (sufs : list string) : bool :=
  existsb (endswith s) sufs.

(** [needle in s] *)
Fixpoint contains (s needle : string) : bool :=
  startswith s needle
  || match s with
     | "" => false
     | String _ s' => contains s' needle
     end.

Definition sep : ascii := "/"%char.

Fixpoint has_sep (s : string) : bool :=
  match s with
  | "" => false
  | String c s' => Ascii.eqb c sep || has_sep s'
  end.

(** [os.path.basename(p)]: what follows the last ["/"]. *)
Fixpoint basename (p : string) : string :=
  match p with
  | "" => ""
  | String c p' =>
      if has_sep p' then basename p'
      else if Ascii.eqb c sep then p' else p
  end.

(** [s.rfind(c)], -1 when [c] does not occur. *)
Fixpoint rfind_from (i : Z) (c : ascii) (s : string) : Z :=
  match s with
  | "" => (-1)%Z
  | String a s' =>
      let r := rfind_from (i + 1) c s' in
      if (0 <=? r)%Z then r else if Ascii.eqb a c then i else (-1)%Z
  end.
Definition rfind (c : ascii) (s : string) : Z := rfind_from 0 c s.

(** [s[i:j]] for [0 <= i]. *)
Definition slice (i j : Z) (s : string) : string :=
  String.substring (Z.to_nat i) (Z.to_nat (j - i)) s.

Fixpoint all_dots (s : string) : bool :=
  match s with
  | "" => true
  | String c s' => Ascii.eqb c "."%char && all_dots s'
  end.

(** [os.path.splitext(p)] ([genericpath._splitext]): the extension
    starts at the last dot of the last component, unless only dots
    come before it there. *)
Definition splitext (p : string) : string * string :=
  let len := Z.of_nat (String.length p) in
  let sepIndex := rfind sep p in
  let dotIndex := rfind "."%char p in
  if (sepIndex <? dotIndex)%Z then
    if all_dots (slice (sepIndex + 1) dotIndex p) then (p, "")
    else (slice 0 dotIndex p, slice dotIndex len p)
  else (p, "").

(** [os.path.join(a, b)] *)
Definition join (a b : string) : string :=
  if startswith b "/" then b
  else if String.eqb a "" || endswith a "/" then a +:+ b
  else a +:+ "/" +:+ b.

Definition LF : ascii := "010"%char.
Definition CR : ascii := "013"%char.

(** Text mode with [newline=None]: ["\r\n"] and ["\r"] are read as
    ["\n"]. *)
Fixpoint universal_newlines (s : string) : string :=
  match s with
  | "" => ""
  | String c s' =>
      if Ascii.eqb c CR then
        match s' with
        | String d s'' =>
            if Ascii.eqb d LF then String LF (universal_newlines s'')
            else String LF (universal_newlines s')
        | "" => String LF ""
        end
      else String c (universal_newlines s')
  end.

(** The lines a text file yields when iterated: each keeps its
    ["\n"]; the last one may lack it. *)
Fixpoint keepends (s : string) : list string :=
  match s with
  | "" => []
  | String c s' =>
      if Ascii.eqb c LF then String c "" :: keepends s'
      else match keepends s' with
           | [] => [String c ""]
           | l :: ls => String c l :: ls
           end
  end.

Definition file_lines (content : string) : list string :=
  keepends (universal_newlines content).

(** [str(n)] for a non-negative [int]. *)
Definition str_of_nat (n : nat) : string := pretty n.

End Py.

(* ===================================================================== *)
(** * Exceptions, files, responses *)
(* ===================================================================== *)

Inductive errno := ENOENT | EEXIST | EISDIR | ENOTDIR.

(** The exception classes the two scripts can meet.  [HTTPError] is what
    [raise_for_status] raises; with [RequestException] (connection,
    timeout, invalid URL, broken stream) it makes up the class
    [requests.exceptions.RequestException]. *)
Inductive exn :=
| CalledProcessError (returncode : Z) (cmd : list string)
| RequestException (msg : string)
| HTTPError (status : Z) (url : string)
| OSError (code : errno) (filename : string)
| ValueError (msg : string).

(** [isinstance(e, subprocess.CalledProcessError)] *)
Definition is_CalledProcessError (e : exn) : bool :=
  match e with CalledProcessError _ _ => true | _ => false end.

(** [isinstance(e, RequestException)] *)
Definition is_RequestException (e : exn) : bool :=
  match e with RequestException _ | HTTPError _ _ => true | _ => false end.

(** [isinstance(e, OSError)] *)
Definition is_OSError (e : exn) : bool :=
  match e with OSError _ _ => true | _ => false end.

Inductive node := File (content : string) | Dir.

(** What [requests.get(url, stream=True)] hands back: the status line
    and the body as [iter_content] will yield it, chunk by chunk, with
    the exception that ends the stream early, if any. *)
Record Response := {
  status_code : Z;
  chunks : list string;
  stream_error : option exn
}.

(** The collaborators outside the repository. *)
Class External := {
  (** the process [subprocess.run(argv)] starts: it cannot be started,
      or exits with a status, having written the file named after
      [-o] or not *)
  ext_child : list string -> gmap string node -> exn + (Z * option string);
  (** [requests.get(url, stream=True)] *)
  ext_get : string -> exn + Response;
  (** [urlparse(url).path] *)
  ext_urlpath : string -> exn + string;
  (** [str(e)] *)
  ext_str : exn -> string
}.

(* ===================================================================== *)
(** * Programs: calls, [raise], [try]/[except] *)
(* ===================================================================== *)

Inductive op : Type -> Type :=
| os_path_exists (p : string) : op bool
| os_path_isfile (p : string) : op bool
| os_listdir (p : string) : op (list string)
| os_makedirs (p : string) : op unit
| subprocess_run (argv : list string) : op Z
| requests_get (url : string) : op Response
| open_r (p : string) : op string
| open_a_write (p text : string) : op unit
| open_wb (p : string) : op unit
| file_write (p chunk : string) : op unit.

Inductive prog (A : Type) : Type :=
| Ret (a : A)
| Raise (e : exn)
| Call {X : Type} (o : op X) (k : exn + X -> prog A).

Arguments Ret {A} a.
Arguments Raise {A} e.
Arguments Call {A X} o k.

Fixpoint bind {A B : Type} (p : prog A) (f : A -> prog B) : prog B :=
  match p with
  | Ret a => f a
  | Raise e => Raise e
  | Call o k => Call o (fun r => bind (k r) f)
  end.

#[global] Instance prog_ret : MRet prog := @Ret.
#[global] Instance prog_bind : MBind prog := fun A B f p => bind p f.

(** One call: its answer, or the exception it raises. *)
Definition call {X : Type} (o : op X) : prog X :=
  Call o (fun r => match r with inl e => Raise e | inr x => Ret x end).

(** The value of a pure library function that may raise. *)
Definition lift {A : Type} (r : exn + A) : prog A :=
  match r with inl e => Raise e | inr a => Ret a end.

(** [try: body  except C as e: handler(e)], [catches] being
    [isinstance(_, C)]. *)
Fixpoint try_except {A : Type} (body : prog A) (catches : exn -> bool)
    (handler : exn -> prog A) : prog A :=
  match body with
  | Ret a => Ret a
  | Raise e => if catches e then handler e else Raise e
  | Call o k => Call o (fun r => try_except (k r) catches handler)
  end.

(** A call together with its answer, as the trace records it. *)
Inductive event :=
| EvExists (p : string) (r : exn + bool)
| EvIsfile (p : string) (r : exn + bool)
| EvListdir (p : string) (r : exn + list string)
| EvMakedirs (p : string) (r : exn + unit)
| EvRun (argv : list string) (r : exn + Z)
| EvGet (url : string) (r : exn + Response)
| EvRead (p : string) (r : exn + string)
| EvAppend (p text : string) (r : exn + unit)
| EvOpenWb (p : string) (r : exn + unit)
| EvWrite (p chunk : string) (r : exn + unit).

Definition ev_of {X : Type} (o : op X) : exn + X -> event :=
  match o in op X return exn + X -> event with
  | os_path_exists p => EvExists p
  | os_path_isfile p => EvIsfile p
  | os_listdir p => EvListdir p
  | os_makedirs p => EvMakedirs p
  | subprocess_run argv => EvRun argv
  | requests_get url => EvGet url
  | open_r p => EvRead p
  | open_a_write p text => EvAppend p text
  | open_wb p => EvOpenWb p
  | file_write p chunk => EvWrite p chunk
  end.

(* ===================================================================== *)
(** * The file system *)
(* ===================================================================== *)

(** A path is looked up by its text: no current directory, no links, no
    permissions, and only the entries the program names. *)
Module Fs.

Definition exists_ (fs : gmap string node) (p : string) : bool :=
  if decide (p = "") then false else bool_decide (is_Some (fs !! p)).

Definition isfile (fs : gmap string node) (p : string) : bool :=
  match fs !! p with Some (File _) => true | _ => false end.

(** [d] with the separator a direct entry's name follows. *)
Definition dir_prefix (d : string) : string :=
  if Py.endswith d "/" then d else d +:+ "/".

Fixpoint strip_prefix (pre s : string) : option string :=
  match pre with
  | "" => Some s
  | String a pre' =>
      match s with
      | String b s' => if Ascii.eqb a b then strip_prefix pre' s' else None
      | "" => None
      end
  end.

(** The name under which path [k] is a direct entry of directory [d]. *)
Definition entry_name (d k : string) : option string :=
  match strip_prefix (dir_prefix d) k with
  | Some f => if String.eqb f "" || Py.has_sep f then None else Some f
  | None => None
  end.

Definition listdir (fs : gmap string node) (d : string)
    : exn + list string :=
  if decide (d = "") then inl (OSError ENOENT d)
  else match fs !! d with
       | Some Dir => inr (omap (entry_name d) (fst <$> map_to_list fs))
       | Some (File _) => inl (OSError ENOTDIR d)
       | None => inl (OSError ENOENT d)
       end.

(** [os.makedirs(p)] with [exist_ok=False]. *)
Definition makedirs (fs : gmap string node) (p : string)
    : (exn + unit) * gmap string node :=
  if decide (p = "") then (inl (OSError ENOENT p), fs)
  else match fs !! p with
       | Some _ => (inl (OSError EEXIST p), fs)
       | None => (inr tt, <[p := Dir]> fs)
       end.

(** Why [open(p, mode)] for writing fails, if it does. *)
Definition open_error (fs : gmap string node) (p : string) : option exn :=
  if decide (p = "") then Some (OSError ENOENT p)
  else if Py.endswith p "/" then Some (OSError EISDIR p)
  else match fs !! p with
       | Some Dir => Some (OSError EISDIR p)
       | _ => None
       end.

Definition content (fs : gmap string node) (p : string) : string :=
  match fs !! p with Some (File c) => c | _ => "" end.

(** [with open(p, "a") as f: f.write(text)] *)
Definition append (fs : gmap string node) (p text : string)
    : (exn + unit) * gmap string node :=
  match open_error fs p with
  | Some e => (inl e, fs)
  | None => (inr tt, <[p := File (content fs p +:+ text)]> fs)
  end.

(** [open(p, "wb")]: the file is created or emptied. *)
Definition create (fs : gmap string node) (p : string)
    : (exn + unit) * gmap string node :=
  match open_error fs p with
  | Some e => (inl e, fs)
  | None => (inr tt, <[p := File ""]> fs)
  end.

(** [file.write(chunk)] on the file opened at [p]. *)
Definition write (fs : gmap string node) (p chunk : string)
    : (exn + unit) * gmap string node :=
  match fs !! p with
  | Some (File c) => (inr tt, <[p := File (c +:+ chunk)]> fs)
  | _ => (inr tt, fs)
  end.

(** [open(p, "r")] read to the end. *)
Definition read (fs : gmap string node) (p : string) : exn + string :=
  match fs !! p with
  | Some (File c) => inr c
  | Some Dir => inl (OSError EISDIR p)
  | None => inl (OSError ENOENT p)
  end.

(** The path [argv] names after [-o]. *)
Definition output_arg (argv : list string) : option string :=
  match argv with
  | [_; _; flag; o] => if String.eqb flag "-o" then Some o else None
  | _ => None
  end.

(** The file a child process leaves behind. *)
Definition child_output (argv : list string) (out : option string)
    (fs : gmap string node) : gmap string node :=
  match out, output_arg argv with
  | Some data, Some o =>
      match fs !! o with
      | Some Dir => fs
      | _ => <[o := File data]> fs
      end
  | _, _ => fs
  end.

End Fs.

(** What a call answers in a file system, and the file system after. *)
Definition handle `{External} {X : Type} (o : op X)
    (fs : gmap string node) : (exn + X) * gmap string node :=
  match o in op X return (exn + X) * gmap string node with
  | os_path_exists p => (inr (Fs.exists_ fs p), fs)
  | os_path_isfile p => (inr (Fs.isfile fs p), fs)
  | os_listdir p => (Fs.listdir fs p, fs)
  | os_makedirs p => Fs.makedirs fs p
  | subprocess_run argv =>
      match ext_child argv fs with
      | inl e => (inl e, fs)
      | inr (rc, out) => (inr rc, Fs.child_output argv out fs)
      end
  | requests_get url => (ext_get url, fs)
  | open_r p => (Fs.read fs p, fs)
  | open_a_write p text => Fs.append fs p text
  | open_wb p => Fs.create fs p
  | file_write p chunk => Fs.write fs p chunk
  end.

(** A program run to its end by one thread, nothing else running:
    its result, the file system after, the calls it made. *)
Fixpoint exec `{External} {A : Type} (p : prog A) (fs : gmap string node)
    : (exn + A) * gmap string node * list event :=
  match p with
  | Ret a => (inr a, fs, [])
  | Raise e => (inl e, fs, [])
  | Call o k =>
      let '(r, fs') := handle o fs in
      let '(res, fs'', evs) := exec (k r) fs' in
      (res, fs'', ev_of o r :: evs)
  end.

(* ===================================================================== *)
(** * cwebp-converter/main.py and img-downloader/downloader.py: the
      workers *)
(* ===================================================================== *)

Definition nl : string := String Py.LF "".
Definition cr : string := String Py.CR "".

Section Workers.
Context `{External}.

Definition cwebp_argv (image_path output_path : string) : list string :=
  ["cwebp"; image_path; "-o"; output_path].

(** [os.path.join(output_folder, f"{filename}.webp")] with [filename]
    from [os.path.splitext(os.path.basename(image_path))]. *)
Definition webp_path (image_path output_folder : string) : string :=
  let '(filename, ext) := Py.splitext (Py.basename image_path) in
  Py.join output_folder (filename +:+ ".webp").

Definition convert_error_line (image_path : string) (e : exn) : string :=
  "Error converting " +:+ image_path +:+ ": " +:+ ext_str e +:+ nl.

(** The [try] block of [convert_to_webp]; [check=True] turns a non-zero
    exit status into [CalledProcessError]. *)
Definition convert_body (image_path output_folder : string) : prog unit :=
  ex ← call (os_path_exists output_folder);
  (if negb ex then call (os_makedirs output_folder) else mret tt);;
  let output_path := webp_path image_path output_folder in
  let argv := cwebp_argv image_path output_path in
  rc ← call (subprocess_run argv);
  if (rc =? 0)%Z then mret tt else Raise (CalledProcessError rc argv).

Definition convert_to_webp (image_path output_folder error_log : string)
    : prog unit :=
  try_except (convert_body image_path output_folder)
    is_CalledProcessError
    (fun e =>
       call (open_a_write error_log (convert_error_line image_path e))).

Definition download_error_line (url : string) (e : exn) : string :=
  "Error downloading " +:+ url +:+ ": " +:+ ext_str e +:+ nl.

(** [response.raise_for_status()] *)
Definition raise_for_status (url : string) (response : Response)
    : prog unit :=
  if (400 <=? status_code response)%Z && (status_code response <? 600)%Z
  then Raise (HTTPError (status_code response) url)
  else mret tt.

(** [for chunk in response.iter_content(chunk_size=8192):
       file.write(chunk)] *)
Fixpoint write_chunks (filepath : string) (cs : list string)
    (stream_end : option exn) : prog unit :=
  match cs with
  | [] => match stream_end with Some e => Raise e | None => mret tt end
  | chunk :: cs' =>
      call (file_write filepath chunk);;
      write_chunks filepath cs' stream_end
  end.

(** The [try] block of [download_image]. *)
Definition download_body (url folder_name : string) : prog unit :=
  path ← lift (ext_urlpath url);
  let filename := Py.basename path in
  response ← call (requests_get url);
  raise_for_status url response;;
  let filepath := Py.join folder_name filename in
  call (open_wb filepath);;
  write_chunks filepath (chunks response) (stream_error response).

Definition download_image (url folder_name error_log : string)
    : prog unit :=
  try_except (download_body url folder_name)
    is_RequestException
    (fun e => call (open_a_write error_log (download_error_line url e))).

(** The list comprehension that opens [convert_images_to_webp]. *)
Definition image_exts : list string := [".png"; ".jpg"; ".jpeg"; ".gif"].

Fixpoint select_images (image_folder : string) (names : list string)
    : prog (list string) :=
  match names with
  | [] => mret []
  | f :: names' =>
      isf ← call (os_path_isfile (Py.join image_folder f));
      rest ← select_images image_folder names';
      mret (if isf && Py.endswith_any (Py.lower f) image_exts
            then Py.join image_folder f :: rest else rest)
  end.

Definition scan_images (image_folder : string) : prog (list string) :=
  names ← call (os_listdir image_folder);
  select_images image_folder names.

(** The statement that opens [download_images]. *)
Definition ensure_folder (folder_name : string) : prog unit :=
  ex ← call (os_path_exists folder_name);
  if negb ex then call (os_makedirs folder_name) else mret tt.

End Workers.

(* ===================================================================== *)
(** * [with ThreadPoolExecutor(...) as executor:
        for _ in executor.map(...): ...] *)
(* ===================================================================== *)

Inductive outcome := Returned | Raised (e : exn).

(** One submitted call. *)
Inductive future :=
| Pending
| Running (p : prog unit)
| Finished (r : outcome)
| Cancelled.

(** Where the thread that runs the batch function stands.
    - [Iterating i]: waiting for result [i] of [executor.map];
    - [Cancelling e i m]: result [i] raised [e]; the iterator cancels
      what it still holds, the last submitted first, [m] to go;
    - [Joining r]: in [executor.__exit__], i.e. [shutdown(wait=True)];
    - [Exited r]: past the [with] block. *)
Inductive main_pc :=
| Iterating (i : nat)
| Cancelling (e : exn) (i m : nat)
| Joining (r : outcome)
| Exited (r : outcome).

(** [completed] is the loop's counter ([converted_images],
    [downloaded_images]); [trace] lists the calls the pool threads made,
    each with the index of the item it was made for. *)
Record pool := {
  futures : list future;
  pc : main_pc;
  completed : nat;
  stdout : list string;
  files : gmap string node;
  trace : list (nat * event)
}.

(** Who moves next: a free pool thread takes the next queued call, the
    pool thread running call [j] makes its next call, or the main
    thread goes on. *)
Inductive choice := Start | Work (j : nat) | Main.

Definition is_running (f : future) : bool :=
  match f with Running _ => true | _ => false end.
Definition is_pending (f : future) : bool :=
  match f with Pending => true | _ => false end.

Fixpoint first_pending (fs : list future) : option nat :=
  match fs with
  | [] => None
  | Pending :: _ => Some 0
  | _ :: fs' => S <$> first_pending fs'
  end.

Definition running_count (fs : list future) : nat :=
  length (filter (fun f => is_running f = true) fs).

Definition idle (fs : list future) : bool :=
  forallb (fun f => negb (is_running f || is_pending f)) fs.

Definition cancel (f : future) : future :=
  match f with Pending => Cancelled | _ => f end.

Section Pool.
Context `{External}.
Variable worker : string -> prog unit.
Variable items : list string.
Variable max_workers : Z.
(** the text of the progress line, without its line end *)
Variable progress : nat -> nat -> string.

Definition total : nat := length items.

(** After [executor.map] has submitted every item. *)
Definition pool_init (fs : gmap string node) : pool :=
  {| futures := (fun _ => Pending) <$> items;
     pc := Iterating 0; completed := 0; stdout := []; files := fs;
     trace := [] |}.

Definition set_future (s : pool) (j : nat) (f : future) : pool :=
  {| futures := <[j := f]> (futures s);
     pc := pc s; completed := completed s; stdout := stdout s;
     files := files s; trace := trace s |}.

Definition set_pc (s : pool) (c : main_pc) : pool :=
  {| futures := futures s; pc := c; completed := completed s;
     stdout := stdout s; files := files s; trace := trace s |}.

Definition step_start (s : pool) : option pool :=
  if (Z.of_nat (running_count (futures s)) <? max_workers)%Z then
    j ← first_pending (futures s);
    item ← items !! j;
    Some (set_future s j (Running (worker item)))
  else None.

Definition step_work (j : nat) (s : pool) : option pool :=
  match futures s !! j with
  | Some (Running p) =>
      match p with
      | Ret _ => Some (set_future s j (Finished Returned))
      | Raise e => Some (set_future s j (Finished (Raised e)))
      | Call o k =>
          let '(r, fs') := handle o (files s) in
          Some {| futures := <[j := Running (k r)]> (futures s);
                  pc := pc s; completed := completed s;
                  stdout := stdout s; files := fs';
                  trace := trace s ++ [(j, ev_of o r)] |}
      end
  | _ => None
  end.

Definition step_main (s : pool) : option pool :=
  match pc s with
  | Iterating i =>
      match futures s !! i with
      | None => Some (set_pc s (Joining Returned))
      | Some (Finished Returned) =>
          (* the loop body: count, print the progress line *)
          let n := completed s + 1 in
          Some {| futures := futures s; pc := Iterating (S i);
                  completed := n;
                  stdout := stdout s ++ [progress n total +:+ cr];
                  files := files s; trace := trace s |}
      | Some (Finished (Raised e)) =>
          Some (set_pc s (Cancelling e i (length (futures s) - S i)))
      | Some _ => None
      end
  | Cancelling e i 0 => Some (set_pc s (Joining (Raised e)))
  | Cancelling e i (S m) =>
      Some {| futures := alter cancel (i + S m) (futures s);
              pc := Cancelling e i m; completed := completed s;
              stdout := stdout s; files := files s; trace := trace s |}
  | Joining r =>
      if idle (futures s) then Some (set_pc s (Exited r)) else None
  | Exited _ => None
  end.

Definition step (c : choice) (s : pool) : option pool :=
  match c with
  | Start => step_start s
  | Work j => step_work j s
  | Main => step_main s
  end.

(** The pool under a schedule; a choice that cannot move is skipped. *)
Fixpoint run (sched : list choice) (s : pool) : pool :=
  match sched with
  | [] => s
  | c :: sched' => run sched' (default s (step c s))
  end.

End Pool.

(** What a batch function has come to when its schedule is used up. *)
Record batch := {
  b_outcome : option outcome;  (* [None]: still inside the [with] block *)
  b_submitted : list string;   (* the items [executor.map] was given *)
  b_pool : pool
}.

(** No executor yet. *)
Definition no_pool (fs : gmap string node) : pool :=
  {| futures := []; pc := Iterating 0; completed := 0; stdout := [];
     files := fs; trace := [] |}.

Definition print (line : string) (s : pool) : pool :=
  {| futures := futures s; pc := pc s; completed := completed s;
     stdout := stdout s ++ [line +:+ nl]; files := files s;
     trace := trace s |}.

Definition raised (e : exn) (fs : gmap string node) : batch :=
  {| b_outcome := Some (Raised e); b_submitted := [];
     b_pool := no_pool fs |}.

Section Batch.
Context `{External}.

Definition convert_progress (converted_images total_images : nat) : string :=
  "Converted " +:+ Py.str_of_nat converted_images +:+ " of "
  +:+ Py.str_of_nat total_images +:+ " images...".

Definition convert_summary (converted_images total_images : nat)
    (error_log : string) : string :=
  "Converted " +:+ Py.str_of_nat converted_images +:+ " of "
  +:+ Py.str_of_nat total_images +:+ " images. "
  +:+ "Errors logged to " +:+ error_log +:+ ".".

Definition download_progress (downloaded_images total_images : nat)
    : string :=
  "Completed " +:+ Py.str_of_nat downloaded_images +:+ " of "
  +:+ Py.str_of_nat total_images +:+ " images...".

(** The second operand is a plain string literal in the source, not an
    f-string. *)
Definition download_summary (downloaded_images total_images : nat)
    (error_log : string) : string :=
  "Completed " +:+ Py.str_of_nat downloaded_images +:+ " of "
  +:+ Py.str_of_nat total_images +:+ " images. "
  +:+ "Errors logged to {error_log}.".

(** [ThreadPoolExecutor.__init__] on [max_workers <= 0]. *)
Definition max_workers_error : exn :=
  ValueError "max_workers must be greater than 0".

(** The [with] block and the final [print], shared by both functions. *)
Definition with_executor (sched : list choice)
    (worker : string -> prog unit) (items : list string) (max_threads : Z)
    (progress : nat -> nat -> string) (summary : nat -> nat -> string)
    (fs : gmap string node) : batch :=
  if (max_threads <=? 0)%Z then raised max_workers_error fs
  else
    let s := run worker items max_threads progress sched
               (pool_init items fs) in
    match pc s with
    | Exited Returned =>
        {| b_outcome := Some Returned; b_submitted := items;
           b_pool := print (summary (completed s) (length items)) s |}
    | Exited (Raised e) =>
        {| b_outcome := Some (Raised e); b_submitted := items;
           b_pool := s |}
    | _ => {| b_outcome := None; b_submitted := items; b_pool := s |}
    end.

Definition convert_images_to_webp (sched : list choice)
    (image_folder output_folder : string) (max_threads : Z)
    (error_log : string) (fs : gmap string node) : batch :=
  match exec (scan_images image_folder) fs with
  | (inl e, fs', _) => raised e fs'
  | (inr image_paths, fs', _) =>
      with_executor sched
        (fun image_path => convert_to_webp image_path output_folder error_log)
        image_paths max_threads convert_progress
        (fun c t => convert_summary c t error_log) fs'
  end.

Definition download_images (sched : list choice)
    (image_urls : list string) (folder_name : string) (max_threads : Z)
    (error_log : string) (fs : gmap string node) : batch :=
  match exec (ensure_folder folder_name) fs with
  | (inl e, fs', _) => raised e fs'
  | (inr _, fs', _) =>
      with_executor sched
        (fun url => download_image url folder_name error_log)
        image_urls max_threads download_progress
        (fun c t => download_summary c t error_log) fs'
  end.

(** [image_urls = [line.strip() for line in f]] *)
Definition read_urls (content : string) : list string :=
  Py.strip <$> Py.file_lines content.

(** The [__main__] block of downloader.py, after [parse_args]. *)
Definition downloader_main (sched : list choice)
    (url_file output : string) (threads : Z) (fs : gmap string node)
    : batch :=
  match exec (call (open_r url_file)) fs with
  | (inl e, fs', _) => raised e fs'
  | (inr content, fs', _) =>
      download_images sched (read_urls content) output threads
        "error_log.txt" fs'
  end.

(** The [__main__] block of main.py, after [parse_args]. *)
Definition converter_main (sched : list choice)
    (image_folder output : string) (threads : Z) (fs : gmap string node)
    : batch :=
  convert_images_to_webp sched image_folder output threads
    "webp_error_log.txt" fs.

End Batch.

(* ===================================================================== *)
(** * Calls along a run *)
(* ===================================================================== *)

(** [path evs p q]: making the calls [evs], with the answers they
    record, takes program [p] to what is left of it, [q].  The answers
    are any answers: what the other threads did in between is in
    them. *)
Fixpoint path {A : Type} (evs : list event) (p q : prog A) : Prop :=
  match evs with
  | [] => p = q
  | ev :: evs' =>
      match p with
      | Call o k => exists r, ev = ev_of o r /\ path evs' (k r) q
      | _ => False
      end
  end.

(** Every call a program can come to make satisfies [P]. *)
Fixpoint always {A : Type} (P : event -> Prop) (p : prog A) : Prop :=
  match p with
  | Call o k => forall r, P (ev_of o r) /\ always P (k r)
  | _ => True
  end.

(** The program left when a call has ended with outcome [r]. *)
Definition final (r : outcome) : prog unit :=
  match r with Returned => Ret tt | Raised e => Raise e end.

Definition outcome_of (r : exn + unit) : outcome :=
  match r with inl e => Raised e | inr _ => Returned end.

(** The calls made for item [j]. *)
Definition events_of (j : nat) (tr : list (nat * event)) : list event :=
  snd <$> filter (fun te => te.1 = j) tr.

(** The text a call appended to [log], if it is such a call and went
    through. *)
Definition appended (log : string) (ev : event) : option string :=
  match ev with
  | EvAppend p text (inr _) => if decide (p = log) then Some text else None
  | _ => None
  end.

(** The entries the calls [evs] added to [log], oldest first. *)
Definition entries (log : string) (evs : list event) : list string :=
  omap (appended log) evs.

Definition is_append (ev : event) : bool :=
  match ev with EvAppend _ _ _ => true | _ => false end.

(** The exception a call raised. *)
Definition raised_by (ev : event) : option exn :=
  match ev with
  | EvExists _ (inl e) | EvIsfile _ (inl e) | EvListdir _ (inl e)
  | EvMakedirs _ (inl e) | EvRun _ (inl e) | EvGet _ (inl e)
  | EvRead _ (inl e) | EvAppend _ _ (inl e) | EvOpenWb _ (inl e)
  | EvWrite _ _ (inl e) => Some e
  | _ => None
  end.

(** The call may change what is at path [p] otherwise than by appending
    to it. *)
Definition touches (p : string) (ev : event) : bool :=
  match ev with
  | EvMakedirs q _ | EvOpenWb q _ | EvWrite q _ _ => bool_decide (q = p)
  | EvRun argv _ =>
      match Fs.output_arg argv with
      | Some o => bool_decide (o = p)
      | None => false
      end
  | _ => false
  end.

(** The node at a path after [texts] were appended to it. *)
Definition node_after (n : option node) (texts : list string)
    : option node :=
  match texts with
  | [] => n
  | _ =>
      Some (File (match n with Some (File c) => c | _ => "" end
                  +:+ String.concat "" texts))
  end.

(** How a call of a worker ends: [try: body], and on an exception the
    [except] clause [catches] writes [line e] to [log]. *)
Inductive call_ends (body : prog unit) (catches : exn -> bool)
    (log : string) (line : exn -> string) : list event -> outcome -> Prop :=
| ends_ok bevs :
    path bevs body (Ret tt) ->
    call_ends body catches log line bevs Returned
| ends_logged bevs e a :
    path bevs body (Raise e) -> catches e = true ->
    call_ends body catches log line
      (bevs ++ [EvAppend log (line e) a]) (outcome_of a)
| ends_escaped bevs e :
    path bevs body (Raise e) -> catches e = false ->
    call_ends body catches log line bevs (Raised e).

(** A program that lets the exception of a call through at once. *)
Fixpoint strict {A : Type} (p : prog A) : Prop :=
  match p with
  | Call o k =>
      forall r, match r with
                | inl e => k r = Raise e
                | inr _ => strict (k r)
                end
  | _ => True
  end.

(** The calls the [try] block of [convert_to_webp] can make. *)
Definition convert_call `{External} (image_path output_folder : string)
    (ev : event) : Prop :=
  match ev with
  | EvExists p _ | EvMakedirs p _ => p = output_folder
  | EvRun argv _ =>
      argv = cwebp_argv image_path (webp_path image_path output_folder)
  | _ => False
  end.

(** The calls the [try] block of [download_image] can make, [filepath]
    being where it saves. *)
Definition download_call (url filepath : string) (ev : event) : Prop :=
  match ev with
  | EvGet u _ => u = url
  | EvOpenWb p _ | EvWrite p _ _ => p = filepath
  | _ => False
  end.

(** [response.raise_for_status()] raises. *)
Definition error_status (response : Response) : bool :=
  (400 <=? status_code response)%Z && (status_code response <? 600)%Z.

(** Where [download_image] saves: [os.path.join(folder_name, filename)]. *)
Definition save_path `{External} (url folder_name : string) : string :=
  match ext_urlpath url with
  | inr path => Py.join folder_name (Py.basename path)
  | inl _ => ""
  end.

(* ===================================================================== *)
(** * The moves of the pool, and what they keep true *)
(* ===================================================================== *)

Section PoolSpec.
Context `{External}.
Variable worker : string -> prog unit.
Variable items : list string.
Variable max_workers : Z.
Variable progress : nat -> nat -> string.

(** The moves [step] can make. *)
Inductive transition : pool -> pool -> Prop :=
| t_start s j item :
    futures s !! j = Some Pending -> items !! j = Some item ->
    transition s (set_future s j (Running (worker item)))
| t_return s j a :
    futures s !! j = Some (Running (Ret a)) ->
    transition s (set_future s j (Finished Returned))
| t_raise s j e :
    futures s !! j = Some (Running (Raise e)) ->
    transition s (set_future s j (Finished (Raised e)))
| t_call s j X (o : op X) k r fs' :
    futures s !! j = Some (Running (Call o k)) ->
    handle o (files s) = (r, fs') ->
    transition s
      {| futures := <[j := Running (k r)]> (futures s); pc := pc s;
         completed := completed s; stdout := stdout s; files := fs';
         trace := trace s ++ [(j, ev_of o r)] |}
| t_next s i :
    pc s = Iterating i -> futures s !! i = Some (Finished Returned) ->
    transition s
      {| futures := futures s; pc := Iterating (S i);
         completed := completed s + 1;
         stdout := stdout s
                   ++ [progress (completed s + 1) (length items) +:+ cr];
         files := files s; trace := trace s |}
| t_done s i :
    pc s = Iterating i -> futures s !! i = None ->
    transition s (set_pc s (Joining Returned))
| t_fault s i e :
    pc s = Iterating i -> futures s !! i = Some (Finished (Raised e)) ->
    transition s (set_pc s (Cancelling e i (length (futures s) - S i)))
| t_cancel s e i m :
    pc s = Cancelling e i (S m) ->
    transition s
      {| futures := alter cancel (i + S m) (futures s);
         pc := Cancelling e i m; completed := completed s;
         stdout := stdout s; files := files s; trace := trace s |}
| t_cancelled s e i :
    pc s = Cancelling e i 0 ->
    transition s (set_pc s (Joining (Raised e)))
| t_join s r :
    pc s = Joining r -> idle (futures s) = true ->
    transition s (set_pc s (Exited r)).

(** The loop counter, the progress lines and the futures consumed so
    far agree, whatever the schedule. *)
Definition counted (s : pool) : Prop :=
  length (futures s) = length items /\
  stdout s = (fun n => progress n (length items) +:+ cr)
             <$> seq 1 (completed s) /\
  (forall j, j < completed s -> futures s !! j = Some (Finished Returned)) /\
  match pc s with
  | Iterating i => completed s = i /\ i <= length items
  | Cancelling e i m =>
      completed s = i /\ futures s !! i = Some (Finished (Raised e)) /\
      i + m < length items /\
      forall j, i + m < j -> futures s !! j <> Some Pending
  | Joining Returned => completed s = length items
  | Joining (Raised e) =>
      futures s !! completed s = Some (Finished (Raised e)) /\
      forall j, futures s !! j <> Some Pending
  | Exited Returned =>
      completed s = length items /\ idle (futures s) = true
  | Exited (Raised e) =>
      futures s !! completed s = Some (Finished (Raised e)) /\
      idle (futures s) = true
  end.

(** What the trace holds for one future. *)
Definition future_path (item : string) (f : future) (evs : list event)
    : Prop :=
  match f with
  | Pending | Cancelled => evs = []
  | Running p => path evs (worker item) p
  | Finished r => path evs (worker item) (final r)
  end.

(** Every future's calls are a path of the worker on its item. *)
Definition tracked (s : pool) : Prop :=
  length (futures s) = length items /\
  forall j,
    match futures s !! j with
    | Some f =>
        exists item, items !! j = Some item /\
                     future_path item f (events_of j (trace s))
    | None => events_of j (trace s) = []
    end.

(** The node at [p] is the one of the start with the entries the trace
    appended to it, as long as no call touched it otherwise. *)
Definition follows (p : string) (fs0 : gmap string node) (s : pool) : Prop :=
  Forall (fun te => touches p te.2 = false) (trace s) ->
  files s !! p = node_after (fs0 !! p) (entries p (snd <$> trace s)).

End PoolSpec.

(* ===================================================================== *)
(** * A small world to run the scripts in *)
(* ===================================================================== *)

Module Sample.

(** A converter that exits with status 1 on a file it cannot decode
    (here: an empty or missing one) and writes its output otherwise. *)
Definition child (argv : list string) (fs : gmap string node)
    : exn + (Z * option string) :=
  match argv with
  | [_; image; _; _] =>
      match fs !! image with
      | Some (File (String c data)) =>
          inr (0%Z, Some ("RIFF" +:+ String c data))
      | _ => inr (1%Z, None)
      end
  | _ => inr (2%Z, None)
  end.

(** The same machine without [cwebp] on its [PATH]. *)
Definition no_child (argv : list string) (fs : gmap string node)
    : exn + (Z * option string) :=
  inl (OSError ENOENT "cwebp").

Fixpoint from_sep (s : string) : string :=
  match s with
  | "" => ""
  | String c s' => if Ascii.eqb c Py.sep then s else from_sep s'
  end.

Fixpoint until_query (s : string) : string :=
  match s with
  | "" => ""
  | String c s' =>
      if Ascii.eqb c "?"%char || Ascii.eqb c "#"%char then ""
      else String c (until_query s')
  end.

(** [urlparse(url).path] for plain [http://host/path?query] URLs. *)
Definition urlpath (url : string) : exn + string :=
  match Fs.strip_prefix "http://" url with
  | Some rest => inr (until_query (from_sep rest))
  | None => inr (until_query url)
  end.

(** A web with one host: [missing] pages answer 404, anything else is
    served in two chunks; other schemes are no URLs. *)
Definition get (url : string) : exn + Response :=
  if Py.startswith url "http://" then
    if Py.contains url "missing" then
      inr {| status_code := 404; chunks := []; stream_error := None |}
    else
      inr {| status_code := 200; chunks := ["GIF8"; "9a"];
             stream_error := None |}
  else inl (RequestException ("Invalid URL '" +:+ url +:+ "'")).

Definition str (e : exn) : string :=
  match e with
  | CalledProcessError rc cmd =>
      "Command '" +:+ String.concat " " cmd
      +:+ "' returned non-zero exit status " +:+ pretty rc +:+ "."
  | RequestException msg => msg
  | HTTPError st url =>
      pretty st +:+ " Client Error: Not Found for url: " +:+ url
  | OSError ENOENT f => "[Errno 2] No such file or directory: '" +:+ f +:+ "'"
  | OSError EEXIST f => "[Errno 17] File exists: '" +:+ f +:+ "'"
  | OSError EISDIR f => "[Errno 21] Is a directory: '" +:+ f +:+ "'"
  | OSError ENOTDIR f => "[Errno 20] Not a directory: '" +:+ f +:+ "'"
  | ValueError msg => msg
  end.

Definition env : External :=
  {| ext_child := child; ext_get := get; ext_urlpath := urlpath;
     ext_str := str |}.

Definition env_no_cwebp : External :=
  {| ext_child := no_child; ext_get := get; ext_urlpath := urlpath;
     ext_str := str |}.

(** A folder of pictures: two images, one of them empty, a text file
    and a sub-folder with an image of its own. *)
Definition pics : gmap string node :=
  {[ "pics" := Dir;
     "pics/a.PNG" := File "png-data";
     "pics/bad.jpg" := File "";
     "pics/notes.txt" := File "n";
     "pics/sub" := Dir;
     "pics/sub/c.png" := File "z" ]}.

(** One pool thread, each call run to its end before the next starts,
    its result consumed at once; room for five items. *)
Definition one_by_one : list choice :=
  [Start; Work 0; Work 0; Work 0; Work 0; Work 0; Work 0; Main;
   Start; Work 1; Work 1; Work 1; Work 1; Work 1; Work 1; Main;
   Start; Work 2; Work 2; Work 2; Work 2; Work 2; Work 2; Main;
   Start; Work 3; Work 3; Work 3; Work 3; Work 3; Work 3; Main;
   Start; Work 4; Work 4; Work 4; Work 4; Work 4; Work 4; Main;
   Main; Main; Main].

(** Two pool threads taking turns, call by call. *)
Definition turn_by_turn : list choice :=
  [Start; Start; Work 0; Work 1; Work 0; Work 1; Work 0; Work 1;
   Work 0; Work 1; Work 0; Work 1; Main; Main; Main; Main; Main].

(** A list of URLs as a file holds it. *)
Definition url_file : string :=
  "http://example.com/img/cat.gif" +:+ nl
  +:+ "  http://example.com/missing.png " +:+ cr +:+ nl
  +:+ nl
  +:+ "http://example.com/gallery/".

Definition urls : list string :=
  ["http://example.com/img/cat.gif"; "http://example.com/missing.png";
   "ftp://example.com/dog.png"].

(** Five URLs, the third without a file name. *)
Definition five_urls : list string :=
  ["http://example.com/img/cat.gif"; "http://example.com/missing.png";
   "http://example.com/gallery/"; "http://example.com/img/dog.gif";
   "http://example.com/img/fox.gif"].

End Sample.

(* ===================================================================== *)
(** * Lines of a text file *)
(* ===================================================================== *)

Fixpoint has_lf (s : string) : bool :=
  match s with
  | "" => false
  | String c s' => Ascii.eqb c Py.LF || has_lf s'
  end.

(** One line of a text: a run without line feed, closed by a line
    feed or, when it is not empty, by the end of the text. *)
Definition is_line (l : string) : Prop :=
  exists body,
    has_lf body = false /\ (l = body +:+ nl \/ (l = body /\ body <> "")).

(** No white space at either end. *)
Definition stripped (s : string) : Prop :=
  from_option Py.isspace false (Py.first_char s) = false /\
  from_option Py.isspace false (Py.last_char s) = false.

(* ===================================================================== *)
(** * What the batch functions are to guarantee *)
(* ===================================================================== *)

(** The counter stays within the number of items; once the function
    has returned it equals that number, every item has its future, and
    the output is the progress lines for 1, 2, ... up to it followed by
    the summary reporting it as both counts. *)
Definition counts_every_item (progress summary : nat -> nat -> string)
    (b : batch) : Prop :=
  let s := b_pool b in
  let K := length (b_submitted b) in
  completed s <= K /\
  (b_outcome b = Some Returned ->
   completed s = K /\ length (futures s) = K /\
   (forall j, j < K -> futures s !! j = Some (Finished Returned)) /\
   stdout s = ((fun n => progress n K +:+ cr) <$> seq 1 K)
              ++ [summary K K +:+ nl]).

(** The function raised before any worker could run: no future, no
    call of a pool thread, no line printed. *)
Definition fails_fast (b : batch) : Prop :=
  (exists e, b_outcome b = Some (Raised e)) /\
  b_submitted b = [] /\ futures (b_pool b) = [] /\ trace (b_pool b) = [] /\
  stdout (b_pool b) = [] /\ completed (b_pool b) = 0.

(** What the calls made for one item, and the way its call ended, say
    about the log: the [try] block went through and nothing was
    written; or it raised an exception the [except] clause catches and
    the one entry for it was written; or it raised another exception,
    which left the worker, and nothing was written. *)
Definition item_logged (body : prog unit) (catches : exn -> bool)
    (log : string) (line : exn -> string) (evs : list event)
    (r : outcome) : Prop :=
  match r with
  | Returned =>
      (path evs body (Ret tt) /\ entries log evs = []) \/
      (exists e bevs,
         path bevs body (Raise e) /\ catches e = true /\
         evs = bevs ++ [EvAppend log (line e) (inr tt)] /\
         entries log evs = [line e])
  | Raised e =>
      path evs body (Raise e) /\ catches e = false /\ entries log evs = []
  end.

(** The error log after a batch: every item whose call has ended
    stands in it as [item_logged] says, and the file is what it was at
    the start with the entries of the trace appended in their order
    (so it is the file of the start, or still no file, when there are
    none). *)
Definition log_kept (body : string -> prog unit) (catches : exn -> bool)
    (log : string) (line : string -> exn -> string)
    (fs0 : gmap string node) (b : batch) : Prop :=
  let s := b_pool b in
  (forall j item r,
     b_submitted b !! j = Some item ->
     futures s !! j = Some (Finished r) ->
     item_logged (body item) catches log (line item)
       (events_of j (trace s)) r) /\
  files s !! log = node_after (fs0 !! log) (entries log (snd <$> trace s)).

(** Every append to [log] in the trace went through. *)
Definition appends_ok (log : string) (tr : list (nat * event)) : Prop :=
  Forall (fun te => match te.2 with
                    | EvAppend p _ a => p = log -> a = inr tt
                    | _ => True
                    end) tr.

(** What holds of the pool while the workers log to [log]. *)
Definition log_inv `{External} (worker : string -> prog unit)
    (items : list string) (log : string) (fs0 : gmap string node)
    (s : pool) : Prop :=
  tracked worker items s /\ follows log fs0 s /\ appends_ok log (trace s).

(** How a batch function that raised stands: it raised before there
    was a pool, or the exception is the one of the call whose result
    the loop was waiting for; then every earlier call had returned and
    was counted, no call is pending or running any more, and the
    progress lines are all that was printed. *)
Definition fault_propagated (progress : nat -> nat -> string) (b : batch)
    (e : exn) : Prop :=
  let s := b_pool b in
  futures s = [] \/
  (futures s !! completed s = Some (Finished (Raised e)) /\
   (forall j, j < completed s -> futures s !! j = Some (Finished Returned)) /\
   idle (futures s) = true /\
   stdout s = (fun n => progress n (length (b_submitted b)) +:+ cr)
              <$> seq 1 (completed s)).

(* ===================================================================== *)
(** * Further properties of the two scripts *)
(* ===================================================================== *)

(** What has been printed by a batch function: the progress lines for
    1, 2, ... up to the counter, and after them the summary once the
    function has returned. *)
Definition printed_so_far (progress summary : nat -> nat -> string)
    (b : batch) : list string :=
  let K := length (b_submitted b) in
  ((fun n => progress n K +:+ cr) <$> seq 1 (completed (b_pool b)))
  ++ match b_outcome b with
     | Some Returned => [summary (completed (b_pool b)) K +:+ nl]
     | _ => []
     end.

(** The main thread is past the point where a result raised. *)
Definition after_fault (c : main_pc) : Prop :=
  match c with
  | Cancelling _ _ _ | Joining (Raised _) | Exited (Raised _) => True
  | _ => False
  end.

(** A future is cancelled only behind a call that raised, and after
    the loop has seen that. *)
Definition cancelled_behind_fault (s : pool) : Prop :=
  forall j, futures s !! j = Some Cancelled ->
            after_fault (pc s) /\ completed s < j.

(** Nothing that was there is gone: every path of [fs] is a path of
    [fs'], and what was a directory is one still. *)
Definition kept (fs fs' : gmap string node) : Prop :=
  forall p, (is_Some (fs !! p) -> is_Some (fs' !! p)) /\
            (fs !! p = Some Dir -> fs' !! p = Some Dir).

(** The folder a program is about to create. *)
Definition makes {A : Type} (p : prog A) : option string :=
  match p with
  | Call o _ =>
      match o with os_makedirs q => Some q | _ => None end
  | _ => None
  end.

(** Wherever the program comes to [os.makedirs], it is for folder [d]
    and right after [os.path.exists(d)] was answered with false. *)
Fixpoint guarded {A : Type} (d : string) (p : prog A) : Prop :=
  match p with
  | Call o k =>
      forall r,
        guarded d (k r) /\
        forall q, makes (k r) = Some q ->
                  q = d /\ ev_of o r = EvExists d (inr false)
  | _ => True
  end.

(** Every call that is about to create folder [d] is right: [d] is
    still missing. *)
Definition about_to_make (d : string) (s : pool) : Prop :=
  forall j p, futures s !! j = Some (Running p) ->
              guarded d p /\
              forall q, makes p = Some q -> q = d /\ files s !! d = None.

(** No [os.makedirs] of the trace raised. *)
Definition makedirs_ok (tr : list (nat * event)) : Prop :=
  forall j q a, (j, EvMakedirs q a) ∈ tr -> a = inr tt.

(** The calls that have not ended: submitted and still pending, or
    running. *)
Definition busy (fs : list future) : nat :=
  length (filter (fun f => (is_running f || is_pending f) = true) fs).

Section Reach.
Context `{External}.
Variable worker : string -> prog unit.
Variable items : list string.
Variable max_workers : Z.
Variable progress : nat -> nat -> string.

(** The states of the pool some schedule leads to. *)
Definition reachable (fs : gmap string node) (s : pool) : Prop :=
  exists sched,
    s = run worker items max_workers progress sched (pool_init items fs).

End Reach.

(** The file system after the calls of [worker] for [items], made one
    after the other, each run to its end. *)
Definition one_after_another `{External} (worker : string -> prog unit)
    (items : list string) (fs : gmap string node) : gmap string node :=
  foldl (fun fs item => (exec (worker item) fs).1.2) fs items.

(** How the pool stands with one thread, as long as no result raised:
    the calls for the first [d] items have ended, the one for item [d]
    is running or pending, the others are pending; and the file system
    is the one the calls made one after the other lead to. *)
Definition in_sequence `{External} (worker : string -> prog unit)
    (items : list string) (fs0 : gmap string node) (s : pool) : Prop :=
  after_fault (pc s) \/
  exists d,
    (forall j, j < d -> exists r, futures s !! j = Some (Finished r)) /\
    (forall j, d < j -> j < length (futures s) ->
               futures s !! j = Some Pending) /\
    match futures s !! d with
    | Some (Running p) =>
        (exec p (files s)).1.2
        = one_after_another worker (take (S d) items) fs0
    | Some Pending | None =>
        files s = one_after_another worker (take d items) fs0
    | _ => False
    end.

(* ===================================================================== *)
(** * Strings and paths *)
(* ===================================================================== *)

Lemma sapp_cons a (s t : string) : String a s +:+ t = String a (s +:+ t).
Proof. reflexivity. Qed.

Lemma sapp_nil_l (s : string) : "" +:+ s = s.
Proof. reflexivity. Qed.

Lemma sapp_nil_r (s : string) : s +:+ "" = s.
Proof. induction s as [|a s IH]; [done|]. by rewrite sapp_cons, IH. Qed.

Lemma app_assoc_s (s t u : string) : (s +:+ t) +:+ u = s +:+ t +:+ u.
Proof. induction s as [|a s IH]; [done|]. by rewrite !sapp_cons, IH. Qed.

Lemma app_length_s (s t : string) :
  String.length (s +:+ t) = String.length s + String.length t.
Proof. induction s as [|a s IH]; [done|]. rewrite sapp_cons. simpl. lia. Qed.

Lemma app_eq_nil_s (s t : string) : s +:+ t = "" -> s = "" /\ t = "".
Proof. destruct s; [done|]. rewrite sapp_cons. done. Qed.

Lemma endswith_unfold s suf :
  Py.endswith s suf =
  String.eqb s suf
  || match s with "" => false | String _ s' => Py.endswith s' suf end.
Proof. by destruct s. Qed.

Lemma endswith_spec s suf :
  Py.endswith s suf = true <-> exists pre, s = pre +:+ suf.
Proof.
  induction s as [|a s IH]; rewrite endswith_unfold.
  - rewrite orb_false_r, String.eqb_eq. split.
    + intros <-. by exists "".
    + intros (pre & Hpre). symmetry in Hpre.
      apply app_eq_nil_s in Hpre as [_ ->]. done.
  - rewrite orb_true_iff, String.eqb_eq, IH. split.
    + intros [<-|(pre & ->)]; [by exists ""|]. by exists (String a pre).
    + intros ([|b pre] & Hpre); [left; done|].
      rewrite sapp_cons in Hpre. injection Hpre as -> ->. right. eauto.
Qed.

Lemma endswith_app s suf : Py.endswith (s +:+ suf) suf = true.
Proof. apply endswith_spec. eauto. Qed.

Lemma endswith_nil suf : Py.endswith "" suf = true -> suf = "".
Proof. rewrite endswith_unfold, orb_false_r, String.eqb_eq. done. Qed.

Lemma startswith_spec s pre :
  Py.startswith s pre = true <-> exists rest, s = pre +:+ rest.
Proof.
  revert s. induction pre as [|a pre IH]; intros s.
  - destruct s; simpl; (split; [eauto | done]).
  - destruct s as [|b s]; simpl.
    + split; [done | intros (rest & Hr); by rewrite sapp_cons in Hr].
    + rewrite andb_true_iff, Ascii.eqb_eq, IH. split.
      * intros (-> & rest & ->). eauto.
      * intros (rest & Hr). rewrite sapp_cons in Hr.
        injection Hr as -> ->. eauto.
Qed.

Lemma has_sep_app s t : Py.has_sep (s +:+ t) = Py.has_sep s || Py.has_sep t.
Proof.
  induction s as [|a s IH]; [done|]. rewrite sapp_cons. simpl.
  by rewrite IH, orb_assoc.
Qed.

Lemma basename_no_sep p : Py.has_sep (Py.basename p) = false.
Proof.
  induction p as [|a p IH]; [done|]. simpl.
  destruct (Py.has_sep p) eqn:Hp; [done|].
  destruct (Ascii.eqb a Py.sep) eqn:Ha; [done|]. simpl. by rewrite Ha.
Qed.

(** The path is its directory part, which is empty or ends in the
    separator, and its base name. *)
Lemma basename_split p :
  exists d, p = d +:+ Py.basename p /\ (d = "" \/ Py.endswith d "/" = true).
Proof.
  induction p as [|a p (d & Hd & Hsep)];
    [exists ""; split; [done | by left]|]. simpl.
  destruct (Py.has_sep p) eqn:Hp.
  - exists (String a d). rewrite sapp_cons, <- Hd. split; [done|]. right.
    destruct Hsep as [->|Hsep].
    + rewrite sapp_nil_l in Hd. rewrite Hd, basename_no_sep in Hp. done.
    + apply endswith_spec in Hsep as (pre & ->).
      apply endswith_spec. by exists (String a pre).
  - destruct (Ascii.eqb a Py.sep) eqn:Ha.
    + apply Ascii.eqb_eq in Ha as ->. exists "/". split; [done|]. by right.
    + exists "". split; [done|]. by left.
Qed.

(** An empty final segment: the path is empty or ends in ["/"]. *)
Lemma basename_empty p :
  Py.basename p = "" <-> p = "" \/ Py.endswith p "/" = true.
Proof.
  split.
  - intros Hb. destruct (basename_split p) as (d & Hd & Hsep).
    rewrite Hb, sapp_nil_r in Hd. subst d. done.
  - intros [->|Hp]; [done|]. apply endswith_spec in Hp as (pre & ->).
    induction pre as [|a pre IH]; [done|]. rewrite sapp_cons. simpl.
    rewrite has_sep_app. simpl. rewrite orb_true_r. done.
Qed.

Lemma join_empty_unfold folder :
  Py.join folder "" =
  if String.eqb folder "" || Py.endswith folder "/" then folder
  else folder +:+ "/".
Proof.
  unfold Py.join. simpl Py.startswith. cbv iota.
  destruct (String.eqb folder "" || Py.endswith folder "/").
  - apply sapp_nil_r.
  - by rewrite <- app_assoc_s, sapp_nil_r.
Qed.

Lemma join_empty folder :
  Py.join folder "" = folder \/ Py.join folder "" = folder +:+ "/".
Proof.
  rewrite join_empty_unfold.
  destruct (String.eqb folder "" || Py.endswith folder "/"); auto.
Qed.

(** Nothing can be opened for writing at the folder's own path. *)
Lemma open_join_empty fs folder :
  exists code,
    Fs.open_error fs (Py.join folder "")
    = Some (OSError code (Py.join folder "")).
Proof.
  unfold Fs.open_error. destruct (decide (Py.join folder "" = "")); [eauto|].
  assert (Py.endswith (Py.join folder "") "/" = true) as ->; [|eauto].
  rewrite join_empty_unfold in *.
  destruct (String.eqb_spec folder ""); [done|]. simpl.
  destruct (Py.endswith folder "/") eqn:He; [done|]. apply endswith_app.
Qed.

Lemma concat_cons (x : string) xs :
  String.concat "" (x :: xs) = x +:+ String.concat "" xs.
Proof. destruct xs; simpl; [by rewrite sapp_nil_r | done]. Qed.

Lemma concat_app (xs ys : list string) :
  String.concat "" (xs ++ ys) = String.concat "" xs +:+ String.concat "" ys.
Proof.
  induction xs as [|x xs IH]; [done|].
  rewrite <- app_comm_cons, !concat_cons, IH, app_assoc_s. done.
Qed.

(* --------------------------------------------------------------------- *)
(** ** [str.strip] and the lines of a file *)

Lemma lstrip_spec s :
  exists lead, s = lead +:+ Py.lstrip s /\ Py.all_space lead = true.
Proof.
  induction s as [|c s (lead & Hs & Hl)]; [by exists ""|]. simpl.
  destruct (Py.isspace c) eqn:Hc.
  - exists (String c lead). rewrite sapp_cons, <- Hs. split; [done|].
    simpl. by rewrite Hc.
  - by exists "".
Qed.

Lemma lstrip_first s :
  from_option Py.isspace false (Py.first_char (Py.lstrip s)) = false.
Proof.
  induction s as [|c s IH]; [done|]. simpl.
  destruct (Py.isspace c) eqn:Hc; [done|]. simpl. done.
Qed.

Lemma lstrip_all_space s : Py.all_space s = true -> Py.lstrip s = "".
Proof.
  induction s as [|c s IH]; [done|]. simpl.
  destruct (Py.isspace c); [auto | done].
Qed.

Lemma rstrip_spec s :
  exists trail, s = Py.rstrip s +:+ trail /\ Py.all_space trail = true.
Proof.
  induction s as [|c s (trail & Hs & Ht)]; [by exists ""|]. simpl.
  destruct (Py.rstrip s) as [|d r] eqn:Hr.
  - rewrite sapp_nil_l in Hs. subst trail.
    destruct (Py.isspace c) eqn:Hc.
    + exists (String c s). split; [done|]. simpl. by rewrite Hc.
    + by exists s.
  - exists trail. split; [|done]. by rewrite sapp_cons, <- Hs.
Qed.

Lemma rstrip_last s :
  from_option Py.isspace false (Py.last_char (Py.rstrip s)) = false.
Proof.
  induction s as [|c s IH]; [done|]. simpl.
  destruct (Py.rstrip s) as [|d r] eqn:Hr.
  - destruct (Py.isspace c) eqn:Hc; simpl; done.
  - exact IH.
Qed.

Lemma rstrip_first s :
  from_option Py.isspace false (Py.first_char s) = false ->
  Py.first_char (Py.rstrip s) = Py.first_char s.
Proof.
  destruct s as [|c s]; [done|]. simpl. intros Hc.
  destruct (Py.rstrip s); [|done]. by rewrite Hc.
Qed.

(** [strip] takes white space, and nothing else, off both ends. *)
Lemma strip_spec s :
  (exists lead trail,
     s = lead +:+ Py.strip s +:+ trail /\
     Py.all_space lead = true /\ Py.all_space trail = true) /\
  stripped (Py.strip s) /\
  (Py.all_space s = true -> Py.strip s = "").
Proof.
  unfold Py.strip. split; [|split].
  - destruct (lstrip_spec s) as (lead & Hs & Hl).
    destruct (rstrip_spec (Py.lstrip s)) as (trail & Hr & Ht).
    exists lead, trail. by rewrite <- Hr.
  - split; [|apply rstrip_last].
    rewrite rstrip_first; apply lstrip_first.
  - intros Hs. by rewrite lstrip_all_space.
Qed.

Lemma keepends_concat s : String.concat "" (Py.keepends s) = s.
Proof.
  induction s as [|c s IH]; [done|]. simpl.
  destruct (Ascii.eqb c Py.LF).
  - rewrite concat_cons, IH. done.
  - destruct (Py.keepends s) as [|l ls].
    + simpl in IH. by subst s.
    + rewrite concat_cons in *. by rewrite sapp_cons, IH.
Qed.

Lemma keepends_lines s : Forall is_line (Py.keepends s).
Proof.
  induction s as [|c s IH]; [constructor|]. simpl.
  destruct (Ascii.eqb c Py.LF) eqn:Hc.
  - constructor; [|done]. apply Ascii.eqb_eq in Hc as ->.
    exists "". split; [done|]. by left.
  - destruct (Py.keepends s) as [|l ls].
    + constructor; [|done]. exists (String c "").
      split; [simpl; by rewrite Hc | by right].
    + inversion IH as [|? ? (body & Hb & Hl) Hls]. subst.
      constructor; [|done]. exists (String c body).
      split; [simpl; by rewrite Hc, Hb|].
      destruct Hl as [->|[-> _]]; [by left | by right].
Qed.

(** Every line but the last is closed by its line feed. *)
Lemma keepends_closed s i l :
  Py.keepends s !! i = Some l -> S i < length (Py.keepends s) ->
  Py.endswith l nl = true.
Proof.
  revert i l. induction s as [|c s IH]; intros i l; [done|]. simpl.
  destruct (Ascii.eqb c Py.LF) eqn:Hc.
  - apply Ascii.eqb_eq in Hc as ->. destruct i as [|i]; simpl.
    + intros [= <-] _. done.
    + intros Hl Hlen. apply (IH i); [done | lia].
  - destruct (Py.keepends s) as [|l0 ls]; [destruct i; simpl; [lia|done]|].
    destruct i as [|i]; simpl.
    + intros [= <-] Hlen. specialize (IH 0 l0 eq_refl).
      simpl in IH. apply endswith_spec in IH as (pre & ->); [|lia].
      apply endswith_spec. by exists (String c pre).
    + intros Hl Hlen. apply (IH (S i)); [done | simpl; lia].
Qed.

(* --------------------------------------------------------------------- *)
(** ** [str.lower] and the entries of a folder *)

Lemma lower_app x y : Py.lower (x +:+ y) = Py.lower x +:+ Py.lower y.
Proof.
  induction x as [|c x IH]; [done|]. rewrite sapp_cons. simpl.
  by rewrite IH, sapp_cons.
Qed.

Lemma lower_app_inv f a b :
  Py.lower f = a +:+ b ->
  exists x y, f = x +:+ y /\ Py.lower x = a /\ Py.lower y = b.
Proof.
  revert f. induction a as [|c a IH]; intros f Hf.
  - exists "", f. done.
  - destruct f as [|d f]; [done|]. rewrite sapp_cons in Hf. simpl in Hf.
    injection Hf as Hc Hf. apply IH in Hf as (x & y & -> & <- & <-).
    exists (String d x), y. simpl. by rewrite Hc.
Qed.

(** A name ends in one of the extensions, letter case apart. *)
Lemma endswith_any_lower f exts :
  Py.endswith_any (Py.lower f) exts = true <->
  exists stem ext, f = stem +:+ ext /\ In (Py.lower ext) exts.
Proof.
  unfold Py.endswith_any. rewrite existsb_exists. split.
  - intros (e & He & Hend). apply endswith_spec in Hend as (pre & Hpre).
    apply lower_app_inv in Hpre as (x & y & -> & _ & <-). eauto.
  - intros (stem & ext & -> & Hin). exists (Py.lower ext).
    split; [done|]. rewrite lower_app. apply endswith_app.
Qed.

Lemma strip_prefix_spec pre s f :
  Fs.strip_prefix pre s = Some f <-> s = pre +:+ f.
Proof.
  revert s. induction pre as [|a pre IH]; intros s; simpl.
  - rewrite sapp_nil_l. split; congruence.
  - destruct s as [|b s]; [done|]. rewrite sapp_cons.
    destruct (Ascii.eqb_spec a b) as [->|Hne].
    + rewrite IH. split; congruence.
    + split; congruence.
Qed.

Lemma entry_name_spec d k f :
  Fs.entry_name d k = Some f <->
  k = Fs.dir_prefix d +:+ f /\ f <> "" /\ Py.has_sep f = false.
Proof.
  unfold Fs.entry_name.
  destruct (Fs.strip_prefix (Fs.dir_prefix d) k) as [g|] eqn:Hg.
  - apply strip_prefix_spec in Hg as ->.
    destruct (String.eqb_spec g "") as [->|Hne]; simpl.
    + split; [done|]. intros (Hk & ? & _).
      apply String.app_inj in Hk. congruence.
    + destruct (Py.has_sep g) eqn:Hsep.
      * split; [done|]. intros (Hk & _ & ?).
        apply String.app_inj in Hk. congruence.
      * split; [intros [= <-]; done|]. intros (Hk & _).
        apply String.app_inj in Hk. congruence.
  - split; [done|]. intros (Hk & _).
    apply strip_prefix_spec in Hk. congruence.
Qed.

Lemma NoDup_omap_inj {A B} (f : A -> option B) (l : list A) :
  (forall x y z, f x = Some z -> f y = Some z -> x = y) ->
  NoDup l -> NoDup (omap f l).
Proof.
  intros Hinj. induction 1 as [|x l Hx Hl IH]; simpl; [constructor|].
  destruct (f x) as [z|] eqn:Hfx; [|done]. constructor; [|done].
  rewrite list_elem_of_omap. intros (y & Hy & Hfy).
  by rewrite (Hinj _ _ _ Hfx Hfy) in Hx.
Qed.

(** [os.listdir]: the names, each once, under which a path of the file
    system lies directly in the folder. *)
Lemma listdir_spec fs d names :
  Fs.listdir fs d = inr names ->
  d <> "" /\ fs !! d = Some Dir /\ NoDup names /\
  forall f, f ∈ names <->
            f <> "" /\ Py.has_sep f = false /\
            is_Some (fs !! (Fs.dir_prefix d +:+ f)).
Proof.
  unfold Fs.listdir. destruct (decide (d = "")); [done|].
  destruct (fs !! d) as [[]|]; try done. intros [= <-].
  split; [done|]. split; [done|]. split.
  - apply NoDup_omap_inj; [|apply NoDup_fst_map_to_list].
    intros x y z [Hx _]%entry_name_spec [Hy _]%entry_name_spec. congruence.
  - intros f. rewrite list_elem_of_omap. split.
    + intros (k & Hk & (-> & Hne & Hsep)%entry_name_spec).
      apply list_elem_of_fmap in Hk as ([k' v] & -> & Hkv).
      apply elem_of_map_to_list in Hkv. simpl in *. eauto.
    + intros (Hne & Hsep & v & Hv). exists (Fs.dir_prefix d +:+ f).
      split; [|by apply entry_name_spec].
      apply list_elem_of_fmap. exists (Fs.dir_prefix d +:+ f, v).
      split; [done|]. by apply elem_of_map_to_list.
Qed.

(** [os.path.join] of a folder and the name of an entry. *)
Lemma join_entry d f :
  d <> "" -> Py.has_sep f = false -> Py.join d f = Fs.dir_prefix d +:+ f.
Proof.
  intros Hd Hf. unfold Py.join, Fs.dir_prefix.
  assert (Py.startswith f "/" = false) as ->.
  { destruct (Py.startswith f "/") eqn:Hs; [|done].
    apply startswith_spec in Hs as (rest & ->). done. }
  destruct (String.eqb_spec d ""); [done|]. simpl.
  destruct (Py.endswith d "/"); [done|]. by rewrite app_assoc_s.
Qed.

(* ===================================================================== *)
(** * Programs and their paths *)
(* ===================================================================== *)

Section PathFacts.
Context {A : Type}.
Implicit Types p q m : prog A.

Lemma path_app evs1 evs2 p q :
  path (evs1 ++ evs2) p q <-> exists m, path evs1 p m /\ path evs2 m q.
Proof.
  revert p. induction evs1 as [|ev evs1 IH]; intros p; simpl.
  - split; [eauto | intros (m & -> & Hm); exact Hm].
  - destruct p as [a|e|X o k];
      try (split; [tauto | intros (m & [] & _)]).
    split.
    + intros (r & -> & Hp). apply IH in Hp as (m & H1 & H2). eauto.
    + intros (m & (r & -> & H1) & H2). exists r. split; [done|].
      apply IH. eauto.
Qed.

Lemma path_snoc {X} evs p (o : op X) k r :
  path evs p (Call o k) -> path (evs ++ [ev_of o r]) p (k r).
Proof.
  intros Hp. apply path_app. exists (Call o k). split; [done|].
  simpl. eauto.
Qed.

Lemma path_ret evs (a : A) q : path evs (Ret a) q -> evs = [] /\ q = Ret a.
Proof. destruct evs; simpl; [intros <-; done | tauto]. Qed.

Lemma path_raise evs e q : path evs (Raise e) q -> evs = [] /\ q = @Raise A e.
Proof. destruct evs; simpl; [intros <-; done | tauto]. Qed.

Lemma always_path P evs p q :
  always P p -> path evs p q -> Forall P evs /\ always P q.
Proof.
  revert p. induction evs as [|ev evs IH]; intros p Hal; simpl.
  - intros <-. split; [constructor | done].
  - destruct p as [a|e|X o k]; try tauto.
    intros (r & -> & Hp). destruct (Hal r) as [HP Hk].
    destruct (IH _ Hk Hp). split; [constructor|]; done.
Qed.

Lemma always_mono (P Q : event -> Prop) p :
  (forall ev, P ev -> Q ev) -> always P p -> always Q p.
Proof.
  intros HPQ. induction p as [a|e|X o k IH]; simpl; try done.
  intros Hal r. destruct (Hal r). split; [auto | apply IH; done].
Qed.

End PathFacts.

Lemma always_call {X} P (o : op X) :
  (forall r, P (ev_of o r)) -> always P (call o).
Proof. intros HP r. split; [apply HP | destruct r; done]. Qed.

Lemma always_bind {A B} P (p : prog A) (f : A -> prog B) :
  always P p -> (forall a, always P (f a)) -> always P (bind p f).
Proof.
  intros Hp Hf. induction p as [a|e|X o k IH]; simpl in *; try done.
  intros r. destruct (Hp r). split; [done | apply IH; done].
Qed.

Lemma always_try_except {A} P (body : prog A) catches handler :
  always P body -> (forall e, catches e = true -> always P (handler e)) ->
  always P (try_except body catches handler).
Proof.
  intros Hb Hh. induction body as [a|e|X o k IH]; simpl in *; try done.
  - destruct (catches e) eqn:Hc; [apply Hh; done | done].
  - intros r. destruct (Hb r). split; [done | apply IH; done].
Qed.

(** A program run alone follows one of its paths. *)
Lemma exec_path `{External} {A} (p : prog A) fs :
  path (exec p fs).2 p (lift (exec p fs).1.1).
Proof.
  revert fs. induction p as [a|e|X o k IH]; intros fs; simpl; try done.
  destruct (handle o fs) as [r fs'] eqn:Hh.
  specialize (IH r fs').
  destruct (exec (k r) fs') as [[res fs''] evs]. simpl in *. eauto.
Qed.

Lemma exec_try_except `{External} {A} (body : prog A) catches handler fs :
  exec (try_except body catches handler) fs =
  match exec body fs with
  | (inr a, fs1, evs1) => (inr a, fs1, evs1)
  | (inl e, fs1, evs1) =>
      if catches e then
        let '(r, fs2, evs2) := exec (handler e) fs1 in (r, fs2, evs1 ++ evs2)
      else (inl e, fs1, evs1)
  end.
Proof.
  revert fs. induction body as [a|e|X o k IH]; intros fs; simpl; try done.
  - destruct (catches e); [|done].
    by destruct (exec (handler e) fs) as [[r fs2] evs2].
  - destruct (handle o fs) as [r fs']. rewrite IH.
    destruct (exec (k r) fs') as [[[e|a] fs1] evs1]; [|done].
    destruct (catches e); [|done].
    by destruct (exec (handler e) fs1) as [[r2 fs2] evs2].
Qed.

Lemma exec_bind `{External} {A B} (p : prog A) (f : A -> prog B) fs :
  exec (bind p f) fs =
  match exec p fs with
  | (inl e, fs1, evs1) => (inl e, fs1, evs1)
  | (inr a, fs1, evs1) =>
      let '(r, fs2, evs2) := exec (f a) fs1 in (r, fs2, evs1 ++ evs2)
  end.
Proof.
  revert fs. induction p as [a|e|X o k IH]; intros fs; simpl; try done.
  - by destruct (exec (f a) fs) as [[r fs2] evs2].
  - destruct (handle o fs) as [r fs']. rewrite IH.
    destruct (exec (k r) fs') as [[[e|a] fs1] evs1]; [done|].
    by destruct (exec (f a) fs1) as [[r2 fs2] evs2].
Qed.

(** [try]/[except] with the handler of the two workers: the three ways
    a call ends. *)
Lemma try_except_ends body catches log line evs r :
  path evs
    (try_except body catches (fun e => call (open_a_write log (line e))))
    (final r) ->
  call_ends body catches log line evs r.
Proof.
  revert body. induction evs as [|ev evs IH]; intros body; simpl.
  - destruct body as [[]|e|X o k]; simpl.
    + destruct r; [intros _ | done]. by apply ends_ok.
    + destruct (catches e) eqn:Hc; [destruct r; done|].
      destruct r as [|e']; [done|]. intros [= <-]. by apply ends_escaped.
    + destruct r; done.
  - destruct body as [[]|e|X o k]; simpl; try tauto.
    + destruct (catches e) eqn:Hc; simpl; [|tauto].
      intros (a & -> & Hp). destruct evs as [|ev' evs]; simpl in Hp.
      * assert (r = outcome_of a) as ->.
        { destruct a as [e'|[]], r; simpl in *; congruence. }
        by apply (ends_logged _ _ _ _ [] e a).
      * destruct a; done.
    + intros (a & -> & Hp). apply IH in Hp.
      destruct Hp as [bevs Hb|bevs e a' Hb Hc|bevs e Hb Hc].
      * apply ends_ok. simpl. eauto.
      * apply (ends_logged _ _ _ _ (ev_of o a :: bevs)); [|done].
        simpl. eauto.
      * apply ends_escaped; [|done]. simpl. eauto.
Qed.

Lemma raised_by_ev_of {X} (o : op X) (r : exn + X) :
  raised_by (ev_of o r) = match r with inl e => Some e | inr _ => None end.
Proof. destruct o, r; reflexivity. Qed.

Lemma is_append_ev_of {X} (o : op X) (r : exn + X) :
  is_append (ev_of o r) = match o with open_a_write _ _ => true | _ => false end.
Proof. destruct o; reflexivity. Qed.

Lemma strict_raise {A} (p q : prog A) evs ev e :
  strict p -> path evs p q -> In ev evs -> raised_by ev = Some e ->
  q = Raise e /\ exists pre, evs = pre ++ [ev].
Proof.
  revert p. induction evs as [|ev' evs IH]; intros p Hs Hp Hin Hr; [done|].
  destruct p as [a|e'|X o k]; simpl in Hp; try done.
  destruct Hp as (r & -> & Hp). specialize (Hs r).
  destruct Hin as [<-|Hin].
  - rewrite raised_by_ev_of in Hr. destruct r as [e0|x]; [|done].
    injection Hr as ->. rewrite Hs in Hp.
    apply path_raise in Hp as [-> ->]. split; [done|]. by exists [].
  - destruct r as [e0|x].
    + rewrite Hs in Hp. apply path_raise in Hp as [-> _]. done.
    + destruct (IH _ Hs Hp Hin Hr) as (-> & pre & ->).
      split; [done|]. by exists (ev_of o (inr x) :: pre).
Qed.

Lemma strict_call {X} (o : op X) : strict (call o).
Proof. intros [e|x]; done. Qed.

Lemma strict_bind {A B} (p : prog A) (f : A -> prog B) :
  strict p -> (forall a, strict (f a)) -> strict (bind p f).
Proof.
  intros Hp Hf. induction p as [a|e|X o k IH]; simpl in *; try done.
  intros r. specialize (Hp r). destruct r as [e|x].
  - by rewrite Hp.
  - by apply IH.
Qed.

Lemma entries_app log evs1 evs2 :
  entries log (evs1 ++ evs2) = entries log evs1 ++ entries log evs2.
Proof. unfold entries. apply omap_app. Qed.

Lemma entries_no_append log evs :
  Forall (fun ev => is_append ev = false) evs -> entries log evs = [].
Proof.
  unfold entries. induction 1 as [|ev evs Hev _ IH]; [done|].
  destruct ev; simpl in *; done.
Qed.

(* --------------------------------------------------------------------- *)
(** ** [convert_to_webp] *)

Section ConvertFacts.
Context `{External}.
Variables image_path output_folder error_log : string.

Let argv := cwebp_argv image_path (webp_path image_path output_folder).

Lemma convert_body_calls :
  always (convert_call image_path output_folder)
    (convert_body image_path output_folder).
Proof.
  unfold convert_body. intros [e|[]]; simpl; (split; [done|]); try done.
  - intros [e|rc]; simpl; (split; [done|]); try done.
    by destruct (rc =? 0)%Z.
  - intros [e|[]]; simpl; (split; [done|]); try done.
    intros [e|rc]; simpl; (split; [done|]); try done.
    by destruct (rc =? 0)%Z.
Qed.

Lemma convert_body_strict : strict (convert_body image_path output_folder).
Proof.
  unfold convert_body. intros [e|[]]; simpl; try done.
  - intros [e|rc]; simpl; try done. by destruct (rc =? 0)%Z.
  - intros [e|[]]; simpl; try done.
    intros [e|rc]; simpl; try done. by destruct (rc =? 0)%Z.
Qed.

(** [check=True]: the exit status decides how the [try] block ends. *)
Lemma convert_body_exit bevs q a rc :
  path bevs (convert_body image_path output_folder) q ->
  In (EvRun a (inr rc)) bevs ->
  a = argv /\
  q = (if (rc =? 0)%Z then Ret tt else Raise (CalledProcessError rc argv))
  /\ exists pre, bevs = pre ++ [EvRun a (inr rc)].
Proof.
  unfold convert_body. intros Hp Hin.
  destruct bevs as [|ev1 bevs]; [done|]. simpl in Hp.
  destruct Hp as (r1 & -> & Hp). destruct Hin as [?|Hin]; [done|].
  destruct r1 as [e|[]]; simpl in Hp.
  - apply path_raise in Hp as [-> _]. done.
  - destruct bevs as [|ev2 bevs]; [done|]. simpl in Hp.
    destruct Hp as (r2 & -> & Hp). destruct r2 as [e|rc']; simpl in Hp.
    + apply path_raise in Hp as [-> _].
      destruct Hin as [?|[]]; done.
    + assert (bevs = [] /\
              q = if (rc' =? 0)%Z then Ret tt
                  else Raise (CalledProcessError rc' argv)) as [-> ->].
      { destruct (rc' =? 0)%Z;
          [apply path_ret in Hp | apply path_raise in Hp]; done. }
      destruct Hin as [?|[]]; simplify_eq. split; [done|]. split; [done|].
      by exists [EvExists output_folder (inr true)].
  - destruct bevs as [|ev2 bevs]; [done|]. simpl in Hp.
    destruct Hp as (r2 & -> & Hp). destruct Hin as [?|Hin]; [done|].
    destruct r2 as [e|[]]; simpl in Hp.
    { apply path_raise in Hp as [-> _]. done. }
    destruct bevs as [|ev3 bevs]; [done|]. simpl in Hp.
    destruct Hp as (r3 & -> & Hp). destruct r3 as [e|rc']; simpl in Hp.
    + apply path_raise in Hp as [-> _].
      destruct Hin as [?|[]]; done.
    + assert (bevs = [] /\
              q = if (rc' =? 0)%Z then Ret tt
                  else Raise (CalledProcessError rc' argv)) as [-> ->].
      { destruct (rc' =? 0)%Z;
          [apply path_ret in Hp | apply path_raise in Hp]; done. }
      destruct Hin as [?|[]]; simplify_eq. split; [done|]. split; [done|].
      by exists [EvExists output_folder (inr false);
                 EvMakedirs output_folder (inr tt)].
Qed.

Lemma convert_body_no_append bevs q :
  path bevs (convert_body image_path output_folder) q ->
  Forall (fun ev => is_append ev = false) bevs.
Proof.
  intros Hp. eapply always_path in Hp as [Hall _]; [|apply convert_body_calls].
  eapply Forall_impl; [exact Hall|]. by intros [].
Qed.

Lemma convert_ends evs r :
  path evs (convert_to_webp image_path output_folder error_log) (final r) ->
  call_ends (convert_body image_path output_folder) is_CalledProcessError
    error_log (convert_error_line image_path) evs r.
Proof. apply try_except_ends. Qed.

End ConvertFacts.

(* --------------------------------------------------------------------- *)
(** ** [download_image] *)

Section DownloadFacts.
Context `{External}.
Variables url folder_name error_log : string.

Lemma write_chunks_writes filepath cs stream_end :
  always (fun ev => match ev with
                    | EvWrite p _ _ => p = filepath
                    | _ => False
                    end)
    (write_chunks filepath cs stream_end).
Proof.
  induction cs as [|c cs IH]; simpl; [by destruct stream_end|].
  intros [e|[]]; simpl; done.
Qed.

Lemma write_chunks_calls filepath cs stream_end :
  always (download_call url filepath) (write_chunks filepath cs stream_end).
Proof.
  eapply always_mono; [|apply write_chunks_writes]. by intros [].
Qed.

Lemma write_chunks_strict filepath cs stream_end :
  strict (write_chunks filepath cs stream_end).
Proof.
  induction cs as [|c cs IH]; simpl; [by destruct stream_end|].
  intros [e|[]]; simpl; done.
Qed.

Lemma download_body_calls :
  always (download_call url (save_path url folder_name))
    (download_body url folder_name).
Proof.
  unfold download_body, save_path, raise_for_status.
  destruct (ext_urlpath url) as [e|p]; simpl; [done|].
  intros [e|response]; simpl; (split; [done|]); [done|].
  destruct (_ && _); simpl; [done|].
  intros [e|[]]; simpl; (split; [done|]); [done|].
  apply write_chunks_calls.
Qed.

Lemma download_body_strict : strict (download_body url folder_name).
Proof.
  unfold download_body, raise_for_status.
  destruct (ext_urlpath url) as [e|p]; simpl; [done|].
  intros [e|response]; simpl; [done|].
  destruct (_ && _); simpl; [done|].
  intros [e|[]]; simpl; [done|]. apply write_chunks_strict.
Qed.

(** [raise_for_status]: an error status ends the [try] block before
    anything is opened. *)
Lemma download_body_status bevs q u response :
  path bevs (download_body url folder_name) q ->
  In (EvGet u (inr response)) bevs -> error_status response = true ->
  u = url /\ q = Raise (HTTPError (status_code response) url)
  /\ bevs = [EvGet u (inr response)].
Proof.
  unfold download_body, raise_for_status, error_status. intros Hp Hin Hst.
  destruct (ext_urlpath url) as [e|p]; simpl in Hp.
  { apply path_raise in Hp as [-> _]. done. }
  destruct bevs as [|ev1 bevs]; [done|]. simpl in Hp.
  destruct Hp as (r1 & -> & Hp). destruct r1 as [e|response']; simpl in Hp.
  { apply path_raise in Hp as [-> _]. destruct Hin as [?|[]]; done. }
  destruct Hin as [?|Hin]; simplify_eq.
  - rewrite Hst in Hp. simpl in Hp. apply path_raise in Hp as [-> ->]. done.
  - destruct (_ && _); simpl in Hp.
    { apply path_raise in Hp as [-> _]. done. }
    destruct bevs as [|ev2 bevs]; [done|]. simpl in Hp.
    destruct Hp as (r2 & -> & Hp). destruct Hin as [?|Hin]; [done|].
    destruct r2 as [e|[]]; simpl in Hp.
    { apply path_raise in Hp as [-> _]. done. }
    eapply always_path in Hp as [Hall _]; [|apply write_chunks_writes].
    rewrite Forall_forall in Hall. apply list_elem_of_In, Hall in Hin. done.
Qed.

Lemma download_body_no_append bevs q :
  path bevs (download_body url folder_name) q ->
  Forall (fun ev => is_append ev = false) bevs.
Proof.
  intros Hp. eapply always_path in Hp as [Hall _]; [|apply download_body_calls].
  eapply Forall_impl; [exact Hall|]. by intros [].
Qed.

Lemma download_ends evs r :
  path evs (download_image url folder_name error_log) (final r) ->
  call_ends (download_body url folder_name) is_RequestException
    error_log (download_error_line url) evs r.
Proof. apply try_except_ends. Qed.

End DownloadFacts.

(* ===================================================================== *)
(** * The pool *)
(* ===================================================================== *)

Lemma first_pending_lookup fs j :
  first_pending fs = Some j -> fs !! j = Some Pending.
Proof.
  revert j. induction fs as [|f fs IH]; intros j; [done|]. simpl.
  destruct f; try (intros [= <-]; done);
    (destruct (first_pending fs) as [j'|]; [|done]);
    intros [= <-]; simpl; by apply IH.
Qed.

Lemma idle_lookup fs j f :
  idle fs = true -> fs !! j = Some f -> is_running f = false /\ is_pending f = false.
Proof.
  unfold idle. rewrite forallb_forall. intros Hall Hj.
  apply list_elem_of_lookup_2, list_elem_of_In, Hall in Hj.
  by destruct f.
Qed.

Lemma idle_intro fs :
  (forall j f, fs !! j = Some f -> is_running f = false /\ is_pending f = false) ->
  idle fs = true.
Proof.
  intros Hf. unfold idle. apply forallb_forall. intros f Hin.
  apply list_elem_of_In, list_elem_of_lookup in Hin as [j Hj].
  apply Hf in Hj as [-> ->]. done.
Qed.

Lemma events_of_snoc_eq j tr ev :
  events_of j (tr ++ [(j, ev)]) = events_of j tr ++ [ev].
Proof.
  unfold events_of. rewrite filter_app, fmap_app. f_equal.
  rewrite filter_cons_True by done. done.
Qed.

Lemma events_of_snoc_ne j j' tr ev :
  j <> j' -> events_of j (tr ++ [(j', ev)]) = events_of j tr.
Proof.
  intros Hne. unfold events_of. rewrite filter_app, fmap_app.
  rewrite filter_cons_False by (simpl; congruence).
  by rewrite filter_nil, app_nil_r.
Qed.

Lemma node_after_app n t1 t2 :
  node_after (node_after n t1) t2 = node_after n (t1 ++ t2).
Proof.
  destruct t1 as [|x t1]; [done|]. destruct t2 as [|y t2].
  { by rewrite app_nil_r. }
  unfold node_after at 1 2. cbn [app]. unfold node_after.
  rewrite (app_comm_cons t1 (y :: t2) x).
  rewrite (concat_app (x :: t1) (y :: t2)), app_assoc_s. done.
Qed.

Lemma entries_one p ev : entries p [ev] = option_list (appended p ev).
Proof. unfold entries. simpl. by destruct (appended p ev). Qed.

(** One call changes the node at a path it does not touch only by
    appending to it. *)
Lemma handle_node `{External} {X} (o : op X) fs r fs' p :
  handle o fs = (r, fs') -> touches p (ev_of o r) = false ->
  fs' !! p = node_after (fs !! p) (option_list (appended p (ev_of o r))).
Proof.
  destruct o as [q|q|q|q|argv|u|q|q text|q|q chunk]; simpl;
    try (intros [= <- <-]; done).
  - unfold Fs.makedirs. case_bool_decide; [done|]. intros Hh _.
    destruct (decide (q = "")); simplify_eq; [done|].
    destruct (fs !! q); simplify_eq; [done|]. simpl.
    by rewrite lookup_insert_ne.
  - destruct (ext_child argv fs) as [e|[rc out]]; intros [= <- <-]; [done|].
    unfold Fs.child_output. destruct out as [data|]; [|done].
    destruct (Fs.output_arg argv) as [o|]; [|done].
    case_bool_decide; [done|]. intros _.
    destruct (fs !! o) as [[]|]; simpl; by rewrite ?lookup_insert_ne.
  - unfold Fs.append. destruct (Fs.open_error fs q) as [e|];
      intros [= <- <-] _; [done|]. simpl.
    destruct (decide (q = p)) as [->|Hne]; simpl.
    + rewrite lookup_insert_eq. unfold Fs.content. done.
    + by rewrite lookup_insert_ne.
  - unfold Fs.create. case_bool_decide; [done|].
    destruct (Fs.open_error fs q) as [e|]; intros [= <- <-] _; [done|].
    simpl. by rewrite lookup_insert_ne.
  - unfold Fs.write. case_bool_decide; [done|].
    destruct (fs !! q) as [[]|]; intros [= <- <-] _; simpl;
      by rewrite ?lookup_insert_ne.
Qed.

Section PoolFacts.
Context `{External}.
Variable worker : string -> prog unit.
Variable items : list string.
Variable max_workers : Z.
Variable progress : nat -> nat -> string.

Local Abbreviation step := (step worker items max_workers progress).
Local Abbreviation run := (run worker items max_workers progress).
Local Abbreviation transition := (transition worker items progress).
Local Abbreviation counted := (counted items progress).
Local Abbreviation tracked := (tracked worker items).

Lemma step_transition c s s' : step c s = Some s' -> transition s s'.
Proof.
  destruct c as [|j|]; simpl.
  - unfold step_start. destruct (_ <? _)%Z; [|done].
    destruct (first_pending (futures s)) as [j|] eqn:Hj; [|done]. simpl.
    destruct (items !! j) as [item|] eqn:Hi; [|done]. simpl.
    intros [= <-]. apply first_pending_lookup in Hj. by constructor.
  - unfold step_work. destruct (futures s !! j) as [[|p| |]|] eqn:Hj; try done.
    destruct p as [a|e|X o k].
    + intros [= <-]. by econstructor.
    + intros [= <-]. by econstructor.
    + destruct (handle o (files s)) as [r fs'] eqn:Hh.
      intros [= <-]. by econstructor.
  - unfold step_main. destruct (pc s) as [i|e i [|m]|r|r] eqn:Hpc; try done.
    + destruct (futures s !! i) as [[|p|[|e]|]|] eqn:Hi; try done;
        intros [= <-].
      * unfold total. by eapply t_next.
      * by eapply t_fault.
      * by eapply t_done.
    + intros [= <-]. by eapply t_cancelled.
    + intros [= <-]. by eapply t_cancel.
    + destruct (idle (futures s)) eqn:Hidle; [|done].
      intros [= <-]. by eapply t_join.
Qed.

(** What every move keeps true, every run keeps true. *)
Lemma run_invariant (P : pool -> Prop) :
  (forall s s', P s -> transition s s' -> P s') ->
  forall sched s, P s -> P (run sched s).
Proof.
  intros Hstep sched. induction sched as [|c sched IH]; intros s Hs; [done|].
  simpl. apply IH. destruct (step c s) as [s'|] eqn:Hc; [|done].
  simpl. eapply Hstep; [done|]. by eapply step_transition.
Qed.

Lemma transition_length s s' :
  transition s s' -> length (futures s') = length (futures s).
Proof.
  destruct 1; simpl; rewrite ?length_insert, ?length_alter; done.
Qed.

(** A finished future stays as it is. *)
Lemma transition_finished s s' j r :
  transition s s' ->
  futures s !! j = Some (Finished r) -> futures s' !! j = Some (Finished r).
Proof.
  intros Ht Hj.
  destruct Ht as [s j' ? Hj'| s j' ? Hj'| s j' ? Hj'| s j' ? ? ? ? ? Hj' ?
                 | | | | s e i m ?| |]; simpl; try done.
  1-4: destruct (decide (j' = j)) as [->|Hne]; [congruence|];
       by rewrite list_lookup_insert_ne.
  rewrite list_lookup_alter. destruct (decide _) as [->|]; [|done].
  by rewrite Hj.
Qed.

(** Nothing becomes pending again. *)
Lemma transition_pending s s' j :
  transition s s' ->
  futures s' !! j = Some Pending -> futures s !! j = Some Pending.
Proof.
  intros Ht.
  destruct Ht as [s j' ? Hj'| s j' ? Hj'| s j' ? Hj'| s j' ? ? ? ? ? Hj' ?
                 | | | | s e i m ?| |]; simpl; try done.
  1-4: destruct (decide (j' = j)) as [->|Hne];
       [rewrite list_lookup_insert_eq by (by eapply lookup_lt_Some); done
       | by rewrite list_lookup_insert_ne].
  rewrite list_lookup_alter. destruct (decide _) as [->|]; [|done].
  destruct (futures s !! j) as [[]|]; done.
Qed.

Lemma cancel_not_pending f : cancel f <> Pending.
Proof. by destruct f. Qed.

Lemma counted_init fs : counted (pool_init items fs).
Proof.
  unfold counted. simpl. rewrite length_fmap.
  repeat split; [intros; lia | lia].
Qed.

(** The moves of the pool threads leave the main thread's part as it
    is. *)
Lemma counted_worker s s' j f :
  counted s -> transition s s' ->
  pc s' = pc s -> completed s' = completed s -> stdout s' = stdout s ->
  futures s !! j = Some f -> (is_running f || is_pending f) = true ->
  counted s'.
Proof.
  intros (Hlen & Hout & Hdone & Hpc) Ht Hpc' Hc' Ho' Hj Hf.
  assert (Hlen' := transition_length _ _ Ht).
  assert (Hfin := fun j r => transition_finished _ _ j r Ht).
  assert (Hpend := fun j => transition_pending _ _ j Ht).
  unfold counted. rewrite Hlen', Hpc', Hc', Ho'.
  repeat split; [done..|auto|].
  destruct (pc s) as [i|e i m|[|e]|[|e]].
  - done.
  - destruct Hpc as (? & ? & ? & Hnp). repeat split; auto.
    intros j' Hj' Hp. by eapply Hnp, Hpend.
  - done.
  - destruct Hpc as (? & Hnp). split; auto.
    intros j' Hp. by eapply Hnp, Hpend.
  - destruct Hpc as (_ & Hidle).
    destruct (idle_lookup _ _ _ Hidle Hj) as [Hr Hp].
    rewrite Hr, Hp in Hf. done.
  - destruct Hpc as (_ & Hidle).
    destruct (idle_lookup _ _ _ Hidle Hj) as [Hr Hp].
    rewrite Hr, Hp in Hf. done.
Qed.

Lemma counted_step s s' : counted s -> transition s s' -> counted s'.
Proof.
  intros Hinv Ht.
  destruct Ht as [s j ? Hj ?| s j ? Hj| s j ? Hj| s j ? ? ? ? ? Hj ?
                 | s i Hi Hfi | s i Hi Hfi | s i e Hi Hfi | s e i m Hi
                 | s e i Hi | s r Hi Hidle].
  1-4: eapply counted_worker; [done | by econstructor | done.. ].
  all: destruct Hinv as (Hlen & Hout & Hdone & Hpc); unfold counted;
    simpl in *; rewrite ?length_alter; rewrite Hi in Hpc.
  - (* the loop body *)
    destruct Hpc as [Hc Hle]. apply lookup_lt_Some in Hfi as Hlt.
    repeat split; try lia.
    + rewrite Hout. replace (completed s + 1) with (S (completed s)) by lia.
      by rewrite seq_S, fmap_app.
    + intros j Hj. destruct (decide (j = completed s)) as [->|];
        [congruence | apply Hdone; lia].
  - (* the iterator is exhausted *)
    destruct Hpc as [Hc Hle]. apply lookup_ge_None in Hfi.
    repeat split; auto. lia.
  - (* a result raises *)
    destruct Hpc as [Hc Hle]. apply lookup_lt_Some in Hfi as Hlt.
    repeat split; auto; try lia.
    intros j Hj. rewrite lookup_ge_None_2; [done | lia].
  - (* one more future cancelled *)
    destruct Hpc as (Hc & Hfi & Hlt & Hnp). repeat split; auto; try lia.
    + intros j Hj. rewrite list_lookup_alter_ne by lia. auto.
    + rewrite list_lookup_alter_ne by lia. done.
    + intros j Hj. rewrite list_lookup_alter.
      destruct (decide (i + S m = j)) as [<-|Hne].
      * destruct (futures s !! (i + S m)) as [f|]; [|done]. simpl.
        intros [= Hf]. by apply cancel_not_pending in Hf.
      * apply Hnp. lia.
  - (* all cancelled *)
    destruct Hpc as (Hc & Hfi & Hlt & Hnp). repeat split; auto.
    + congruence.
    + intros j. destruct (decide (j < i)) as [Hj|Hj].
      * rewrite Hdone by lia. done.
      * destruct (decide (j = i)) as [->|]; [congruence | apply Hnp; lia].
  - (* the pool is drained *)
    destruct r as [|e]; repeat split; tauto.
Qed.

Lemma run_counted sched fs : counted (run sched (pool_init items fs)).
Proof.
  apply run_invariant; [apply counted_step | apply counted_init].
Qed.

Lemma tracked_init fs : tracked (pool_init items fs).
Proof.
  split; [apply length_fmap|]. intros j. simpl. rewrite list_lookup_fmap.
  destruct (items !! j) as [item|] eqn:Hj; simpl; eauto.
Qed.

Lemma tracked_set s j f item :
  tracked s -> items !! j = Some item ->
  future_path worker item f (events_of j (trace s)) ->
  tracked (set_future s j f).
Proof.
  intros [Hlen Hall] Hitem Hf. split; [simpl; by rewrite length_insert|].
  intros j'. simpl. destruct (decide (j = j')) as [<-|Hne].
  - rewrite list_lookup_insert_eq; [eauto|].
    rewrite Hlen. by eapply lookup_lt_Some.
  - rewrite list_lookup_insert_ne by done. apply Hall.
Qed.

Lemma tracked_step s s' : tracked s -> transition s s' -> tracked s'.
Proof.
  intros Hinv Ht. pose proof Hinv as [Hlen Hall].
  destruct Ht as [s j item Hj Hitem| s j a Hj| s j e Hj| s j X o k r fs' Hj Hh
                 | s i Hi Hfi | s i Hi Hfi | s i e Hi Hfi | s e i m Hi
                 | s e i Hi | s r Hi Hidle]; try exact Hinv.
  - eapply tracked_set; [done..|]. simpl.
    specialize (Hall j). rewrite Hj in Hall.
    destruct Hall as (? & _ & ->). done.
  - specialize (Hall j) as Hjj. rewrite Hj in Hjj.
    destruct Hjj as (item & Hitem & Hp). eapply tracked_set; [done..|].
    by destruct a.
  - specialize (Hall j) as Hjj. rewrite Hj in Hjj.
    destruct Hjj as (item & Hitem & Hp). by eapply tracked_set.
  - split; [simpl; by rewrite length_insert|]. intros j'. simpl.
    destruct (decide (j = j')) as [<-|Hne].
    + specialize (Hall j). rewrite Hj in Hall.
      destruct Hall as (item & Hitem & Hp).
      rewrite list_lookup_insert_eq by (by eapply lookup_lt_Some).
      exists item. split; [done|]. rewrite events_of_snoc_eq.
      by apply path_snoc.
    + rewrite list_lookup_insert_ne, events_of_snoc_ne by done. apply Hall.
  - split; [simpl; by rewrite length_alter|]. intros j'. simpl.
    rewrite list_lookup_alter. specialize (Hall j').
    destruct (decide (i + S m = j')) as [<-|Hne]; [|done].
    destruct (futures s !! (i + S m)) as [[]|]; done.
Qed.

Lemma run_tracked sched fs : tracked (run sched (pool_init items fs)).
Proof.
  apply run_invariant; [apply tracked_step | apply tracked_init].
Qed.

Lemma follows_init p fs : follows p fs (pool_init items fs).
Proof. intros _. done. Qed.

Lemma follows_step p fs0 s s' :
  follows p fs0 s -> transition s s' -> follows p fs0 s'.
Proof.
  intros Hinv Ht.
  destruct Ht as [s j item Hj Hitem| s j a Hj| s j e Hj| s j X o k r fs' Hj Hh
                 | s i Hi Hfi | s i Hi Hfi | s i e Hi Hfi | s e i m Hi
                 | s e i Hi | s r Hi Hidle]; try exact Hinv.
  unfold follows in *. simpl.
  rewrite Forall_app, Forall_singleton, fmap_app, entries_app.
  cbn [fmap list_fmap snd]. rewrite entries_one.
  intros [Hall Hev]. rewrite <- node_after_app, <- Hinv by done.
  by apply handle_node.
Qed.

Lemma run_follows p sched fs : follows p fs (run sched (pool_init items fs)).
Proof.
  apply run_invariant; [intros ??; apply follows_step | apply follows_init].
Qed.

End PoolFacts.

(* ===================================================================== *)
(** * The batch functions *)
(* ===================================================================== *)

Section BatchFacts.
Context `{External}.

Lemma raised_counts progress summary e fs :
  counts_every_item progress summary (raised e fs).
Proof. split; simpl; [lia | done]. Qed.

Lemma with_executor_counts sched worker items max_threads progress summary fs :
  let b := with_executor sched worker items max_threads progress summary fs in
  counts_every_item progress summary b /\
  (b_outcome b = Some Returned -> b_submitted b = items).
Proof.
  unfold with_executor. destruct (max_threads <=? 0)%Z.
  { split; [apply raised_counts | done]. }
  pose proof (run_counted worker items max_threads progress sched fs)
    as (Hlen & Hout & Hdone & Hpc).
  destruct (pc _) as [i|e i m|[|e]|[|e]]; simpl;
    (split; [split; simpl|done]); try done.
  - destruct Hpc. lia.
  - destruct Hpc as (? & ? & ? & ?). lia.
  - lia.
  - destruct Hpc as [Hfi _]. apply lookup_lt_Some in Hfi. lia.
  - destruct Hpc. lia.
  - intros _. destruct Hpc as [Hc _]. rewrite Hc in *.
    repeat split; [done..|]. by rewrite Hout.
  - destruct Hpc as [Hfi _]. apply lookup_lt_Some in Hfi. lia.
Qed.

Lemma with_executor_fails_fast sched worker items max_threads progress
    summary fs :
  (max_threads <= 0)%Z ->
  with_executor sched worker items max_threads progress summary fs
  = raised max_workers_error fs.
Proof.
  intros Hle. unfold with_executor.
  destruct (Z.leb_spec max_threads 0); [done | lia].
Qed.

Lemma raised_fails_fast e fs : fails_fast (raised e fs).
Proof. unfold fails_fast. simpl. eauto 10. Qed.

Lemma exec_select_images image_folder names fs :
  exists evs,
    exec (select_images image_folder names) fs =
    (inr (Py.join image_folder <$>
          List.filter (fun f => Fs.isfile fs (Py.join image_folder f)
                                && Py.endswith_any (Py.lower f) image_exts)
            names), fs, evs).
Proof.
  induction names as [|f names (evs & IH)]; simpl; [eauto|].
  unfold mbind, prog_bind. rewrite exec_bind, IH. simpl.
  destruct (Fs.isfile fs _ && _); simpl; eauto.
Qed.

(** The scan reads the folder and changes nothing. *)
Lemma exec_scan_images image_folder fs :
  exists evs,
    exec (scan_images image_folder) fs =
    (match Fs.listdir fs image_folder with
     | inl e => inl e
     | inr names =>
         inr (Py.join image_folder <$>
              List.filter
                (fun f => Fs.isfile fs (Py.join image_folder f)
                          && Py.endswith_any (Py.lower f) image_exts)
                names)
     end, fs, evs).
Proof.
  unfold scan_images. simpl.
  destruct (Fs.listdir fs image_folder) as [e|names]; simpl; [eauto|].
  destruct (exec_select_images image_folder names fs) as (evs & ->). eauto.
Qed.

(** What the first statement of [download_images] does. *)
Lemma exec_ensure_folder folder_name fs :
  exec (ensure_folder folder_name) fs =
  if Fs.exists_ fs folder_name
  then (inr tt, fs, [EvExists folder_name (inr true)])
  else ((Fs.makedirs fs folder_name).1, (Fs.makedirs fs folder_name).2,
        [EvExists folder_name (inr false);
         EvMakedirs folder_name (Fs.makedirs fs folder_name).1]).
Proof.
  unfold ensure_folder. simpl.
  destruct (Fs.exists_ fs folder_name); simpl; [done|].
  by destruct (Fs.makedirs fs folder_name) as [[e|[]] fs'].
Qed.

Lemma makedirs_other fs p q : p <> q -> (Fs.makedirs fs q).2 !! p = fs !! p.
Proof.
  intros Hne. unfold Fs.makedirs. destruct (decide (q = "")); [done|].
  destruct (fs !! q); [done|]. simpl. by rewrite lookup_insert_ne.
Qed.

End BatchFacts.

(* ===================================================================== *)
(** * The loop counter *)
(* ===================================================================== *)



(* ===================================================================== *)
(** * A thread count that is not positive *)
(* ===================================================================== *)

(** C4.  With [max_threads <= 0] both functions raise before a worker
    runs: no future exists, no pool thread makes a call, nothing is
    printed.  The exception is the [ValueError] of
    [ThreadPoolExecutor(max_workers=...)] whenever the statements before
    it went through (the folder could be listed, resp. exists or could
    be created); the files are as those statements left them. *)
Theorem nonpositive_threads_fail_fast `{External} sched fs max_threads
    error_log :
  (max_threads <= 0)%Z ->
  (forall image_folder output_folder,
     let b := convert_images_to_webp sched image_folder output_folder
                max_threads error_log fs in
     fails_fast b /\ files (b_pool b) = fs /\
     (forall image_paths,
        (exec (scan_images image_folder) fs).1.1 = inr image_paths ->
        b_outcome b = Some (Raised max_workers_error))) /\
  (forall image_urls folder_name,
     let b := download_images sched image_urls folder_name max_threads
                error_log fs in
     fails_fast b /\
     files (b_pool b) = (exec (ensure_folder folder_name) fs).1.2 /\
     (forall p, p <> folder_name -> files (b_pool b) !! p = fs !! p) /\
     ((exec (ensure_folder folder_name) fs).1.1 = inr tt ->
      b_outcome b = Some (Raised max_workers_error))).
Proof.
  intros Hle. split.
  - intros image_folder output_folder. unfold convert_images_to_webp.
    destruct (exec_scan_images image_folder fs) as (evs & ->).
    destruct (Fs.listdir fs image_folder) as [e|names].
    { split; [apply raised_fails_fast|]. done. }
    rewrite with_executor_fails_fast by done.
    split; [apply raised_fails_fast|]. done.
  - intros image_urls folder_name. unfold download_images.
    assert (forall p, p <> folder_name ->
              (exec (ensure_folder folder_name) fs).1.2 !! p = fs !! p)
      as Hother.
    { intros p Hp. rewrite exec_ensure_folder.
      destruct (Fs.exists_ fs folder_name); [done|]. simpl.
      by apply makedirs_other. }
    destruct (exec (ensure_folder folder_name) fs) as [[[e|[]] fs'] evs];
      simpl in *.
    { split; [apply raised_fails_fast|]. done. }
    rewrite with_executor_fails_fast by done.
    split; [apply raised_fails_fast|]. done.
Qed.

Lemma nonpositive_threads_fail_fast_witness :
  (0 <= 0)%Z /\
  let b := @download_images Sample.env Sample.one_by_one Sample.urls
             "images" 0 "error_log.txt" ∅ in
  b_outcome b = Some (Raised max_workers_error) /\ trace (b_pool b) = [].
Proof.
  split; [lia|].
  destruct (@nonpositive_threads_fail_fast Sample.env Sample.one_by_one ∅
              0%Z "error_log.txt" ltac:(lia)) as [_ Hd].
  destruct (Hd Sample.urls "images") as (Hff & _ & _ & Herr).
  split; [apply Herr; vm_compute; reflexivity|].
  destruct Hff as (_ & _ & _ & Htr & _). exact Htr.
Defined.

(* ===================================================================== *)
(** * The summary line *)
(* ===================================================================== *)

Lemma contains_unfold s needle :
  Py.contains s needle =
  Py.startswith s needle
  || match s with "" => false | String _ s' => Py.contains s' needle end.
Proof. by destruct s. Qed.

Lemma contains_app pre needle post :
  Py.contains (pre +:+ needle +:+ post) needle = true.
Proof.
  induction pre as [|a pre IH]; rewrite contains_unfold.
  - rewrite sapp_nil_l. apply orb_true_iff. left.
    apply startswith_spec. eauto.
  - rewrite sapp_cons, IH. apply orb_true_r.
Qed.

(** The converter's summary names the error log it was given. *)
Lemma convert_summary_names_log converted_images total_images error_log :
  Py.contains (convert_summary converted_images total_images error_log)
    error_log = true.
Proof.
  unfold convert_summary. rewrite <- !app_assoc_s.
  rewrite (app_assoc_s _ error_log "."). apply contains_app.
Qed.

(** C5.  [download_images] on three URLs, from an empty directory, with
    the error log [error_log.txt]: it returns, and its last line of
    output ends in the text [{error_log}] as written in the source; the
    path [error_log.txt] is nowhere in it.  [convert_images_to_webp],
    run the same way with [log.txt], prints that path. *)
Theorem download_summary_keeps_placeholder :
  let d := @download_images Sample.env Sample.one_by_one Sample.urls
             "images" 1 "error_log.txt" ∅ in
  let c := @convert_images_to_webp Sample.env Sample.one_by_one
             "pics" "out" 1 "log.txt" Sample.pics in
  b_outcome d = Some Returned /\
  last (stdout (b_pool d))
  = Some ("Completed 3 of 3 images. Errors logged to {error_log}." +:+ nl) /\
  Py.contains (default "" (last (stdout (b_pool d)))) "error_log.txt" = false /\
  b_outcome c = Some Returned /\
  last (stdout (b_pool c))
  = Some ("Converted 2 of 2 images. Errors logged to log.txt." +:+ nl).
Proof. vm_compute. repeat split. Qed.

(* ===================================================================== *)
(** * Creating the output folder *)
(* ===================================================================== *)

(** C7.  Two images, two pool threads, no output folder yet.  Both
    calls of [convert_to_webp] find the folder missing before either
    creates it; the second [os.makedirs] then raises [FileExistsError],
    which leaves [convert_to_webp] and [convert_images_to_webp]. *)
Theorem makedirs_race_escapes :
  let b := @convert_images_to_webp Sample.env Sample.turn_by_turn
             "pics" "out" 2 "log.txt" Sample.pics in
  Sample.pics !! "out" = None /\
  events_of 0 (trace (b_pool b))
  = [EvExists "out" (inr false); EvMakedirs "out" (inr tt);
     EvRun ["cwebp"; "pics/a.PNG"; "-o"; "out/a.webp"] (inr 0%Z)] /\
  events_of 1 (trace (b_pool b))
  = [EvExists "out" (inr false);
     EvMakedirs "out" (inl (OSError EEXIST "out"))] /\
  futures (b_pool b) !! 1 = Some (Finished (Raised (OSError EEXIST "out"))) /\
  b_outcome b = Some (Raised (OSError EEXIST "out")) /\
  files (b_pool b) !! "log.txt" = None.
Proof. vm_compute. repeat split. Qed.

(** Called when the folder is there, or one call after the other,
    [convert_to_webp] does not come to [os.makedirs] a second time. *)
Lemma convert_folder_exists `{External} image_path output_folder error_log
    fs :
  Fs.exists_ fs output_folder = true ->
  forall ev, In ev (exec (convert_to_webp image_path output_folder error_log)
                      fs).2 ->
             match ev with EvMakedirs _ _ => False | _ => True end.
Proof.
  intros Hex ev. unfold convert_to_webp. rewrite exec_try_except.
  unfold convert_body. simpl. rewrite Hex. simpl.
  destruct (ext_child _ fs) as [e|[rc out]]; simpl.
  - destruct (is_CalledProcessError e); simpl.
    + destruct (Fs.append _ _ _) as [[?|[]] ?]; simpl;
        intros [<-|[<-|[<-|[]]]]; done.
    + intros [<-|[<-|[]]]; done.
  - destruct (rc =? 0)%Z; simpl.
    + intros [<-|[<-|[]]]; done.
    + destruct (Fs.append _ _ _) as [[?|[]] ?]; simpl;
        intros [<-|[<-|[<-|[]]]]; done.
Qed.

(* ===================================================================== *)
(** * A URL without a file name *)
(* ===================================================================== *)



(* ===================================================================== *)
(** * Reading the list of URLs *)
(* ===================================================================== *)

(** C9.  The list of URLs has one element per line of the file, in
    order: the line without the white space at its ends (the line feed
    that closes it included; [strip] takes off leading white space as
    well as trailing).  No line is left out: a line of white space
    only gives the empty string.  The lines are those of the text with
    its line ends read as line feeds; the block that reads the file
    hands this list to [download_images]. *)
Theorem read_urls_one_per_line content :
  length (read_urls content) = length (Py.file_lines content) /\
  String.concat "" (Py.file_lines content) = Py.universal_newlines content /\
  Forall is_line (Py.file_lines content) /\
  (forall i line,
     Py.file_lines content !! i = Some line ->
     S i < length (Py.file_lines content) -> Py.endswith line nl = true) /\
  (forall i line,
     Py.file_lines content !! i = Some line ->
     read_urls content !! i = Some (Py.strip line) /\
     (exists lead trail,
        line = lead +:+ Py.strip line +:+ trail /\
        Py.all_space lead = true /\ Py.all_space trail = true) /\
     stripped (Py.strip line) /\
     (Py.all_space line = true -> read_urls content !! i = Some "")) /\
  (forall `{External} sched url_file output threads fs,
     fs !! url_file = Some (File content) ->
     downloader_main sched url_file output threads fs
     = download_images sched (read_urls content) output threads
         "error_log.txt" fs).
Proof.
  unfold read_urls, Py.file_lines. split; [apply length_fmap|].
  split; [apply keepends_concat|]. split; [apply keepends_lines|].
  split; [apply keepends_closed|]. split.
  - intros i line Hi. rewrite list_lookup_fmap, Hi. simpl.
    destruct (strip_spec line) as (Hs & Hst & Hblank).
    split; [done|]. split; [done|]. split; [done|].
    intros Hb. by rewrite Hblank.
  - intros H sched url_file output threads fs Hf.
    unfold downloader_main. simpl. unfold Fs.read. rewrite Hf. done.
Qed.

Lemma read_urls_one_per_line_witness :
  read_urls Sample.url_file
  = ["http://example.com/img/cat.gif"; "http://example.com/missing.png";
     ""; "http://example.com/gallery/"] /\
  Py.strip (nl +:+ "") = "".
Proof.
  destruct (read_urls_one_per_line Sample.url_file)
    as (_ & _ & _ & _ & Hl & _).
  split; [reflexivity|].
  destruct (Hl 2 nl eq_refl) as (_ & _ & _ & Hb).
  specialize (Hb eq_refl). vm_compute in Hb. reflexivity.
Defined.

(* ===================================================================== *)
(** * The scan of the image folder *)
(* ===================================================================== *)

Lemma with_executor_submitted `{External} sched worker items max_threads
    progress summary fs :
  (1 <= max_threads)%Z ->
  let b := with_executor sched worker items max_threads progress summary fs in
  b_submitted b = items /\ length (futures (b_pool b)) = length items.
Proof.
  intros Hn. unfold with_executor.
  destruct (Z.leb_spec max_threads 0); [lia|].
  pose proof (run_counted worker items max_threads progress sched fs)
    as (Hlen & _).
  by destruct (pc _) as [| |[]|[]].
Qed.

Lemma NoDup_list_filter {A} (f : A -> bool) (l : list A) :
  NoDup l -> NoDup (List.filter f l).
Proof.
  induction 1 as [|x l Hx Hl IH]; simpl; [constructor|].
  destruct (f x); [|done]. constructor; [|done].
  intros Hin. apply list_elem_of_In, filter_In in Hin as [Hin _].
  apply Hx. by apply list_elem_of_In.
Qed.

Lemma isfile_spec fs p :
  Fs.isfile fs p = true <-> exists c, fs !! p = Some (File c).
Proof.
  unfold Fs.isfile. destruct (fs !! p) as [[c|]|].
  - split; eauto.
  - split; [done | by intros [c ?]].
  - split; [done | by intros [c ?]].
Qed.

(** C8.  When the folder can be listed, the paths the scan gives are,
    each once, exactly the paths [p] of the file system that lie
    directly in [image_folder] (the folder's path, a separator, and a
    name [f] that is not empty and has no separator in it), hold a
    regular file, and whose name ends in [.png], [.jpg], [.jpeg] or
    [.gif] whatever the case of its letters; [p] is
    [os.path.join(image_folder, f)].  The scan changes no file.  With a
    positive thread count these paths, and no others, are what
    [executor.map] is given, one future each. *)
Theorem scan_selects_images `{External} fs image_folder image_paths :
  (exec (scan_images image_folder) fs).1.1 = inr image_paths ->
  (exec (scan_images image_folder) fs).1.2 = fs /\
  NoDup image_paths /\
  (forall p,
     p ∈ image_paths <->
     exists f,
       p = Fs.dir_prefix image_folder +:+ f /\ p = Py.join image_folder f /\
       f <> "" /\ Py.has_sep f = false /\
       (exists c, fs !! p = Some (File c)) /\
       exists stem ext, f = stem +:+ ext /\ In (Py.lower ext) image_exts) /\
  (forall sched output_folder max_threads error_log,
     (1 <= max_threads)%Z ->
     let b := convert_images_to_webp sched image_folder output_folder
                max_threads error_log fs in
     b_submitted b = image_paths /\
     length (futures (b_pool b)) = length image_paths).
Proof.
  intros Hscan. destruct (exec_scan_images image_folder fs) as (evs & Hexec).
  rewrite Hexec in Hscan |- *. simpl in Hscan |- *.
  destruct (Fs.listdir fs image_folder) as [e|names] eqn:Hls; [done|].
  injection Hscan as <-.
  destruct (listdir_spec _ _ _ Hls) as (Hd & _ & Hnd & Hnames).
  split; [done|]. split; [|split].
  - apply NoDup_fmap_2_strong; [|by apply NoDup_list_filter].
    intros x y Hx Hy Hxy.
    apply list_elem_of_In, filter_In in Hx as [Hx%list_elem_of_In _].
    apply list_elem_of_In, filter_In in Hy as [Hy%list_elem_of_In _].
    apply Hnames in Hx as (_ & Hx & _). apply Hnames in Hy as (_ & Hy & _).
    rewrite !join_entry in Hxy by done. by apply String.app_inj in Hxy.
  - intros p. rewrite list_elem_of_fmap. split.
    + intros (f & -> & Hf).
      apply list_elem_of_In, filter_In in Hf as [Hf%list_elem_of_In HP].
      apply andb_true_iff in HP as [Hfile Hext].
      apply Hnames in Hf as (Hne & Hsep & _). exists f.
      split; [by apply join_entry|]. split; [done|]. split; [done|].
      split; [done|]. split; [by apply isfile_spec|].
      by apply (proj1 (endswith_any_lower f image_exts)).
    + intros (f & -> & Hj & Hne & Hsep & Hfile & Hext). exists f.
      split; [done|]. apply list_elem_of_In, filter_In. split.
      * apply list_elem_of_In, Hnames. destruct Hfile as [c Hc]. eauto.
      * apply andb_true_iff. rewrite <- Hj.
        split; [by apply isfile_spec|].
        by apply (proj2 (endswith_any_lower f image_exts)).
  - intros sched output_folder max_threads error_log Hn.
    unfold convert_images_to_webp. rewrite Hexec.
    by apply with_executor_submitted.
Qed.

Lemma scan_selects_images_witness :
  (@exec Sample.env _ (scan_images "pics") Sample.pics).1.1
  = inr ["pics/a.PNG"; "pics/bad.jpg"] /\
  NoDup ["pics/a.PNG"; "pics/bad.jpg"] /\
  ("pics/sub/c.png" ∈ ["pics/a.PNG"; "pics/bad.jpg"] -> False) /\
  "pics/a.PNG" ∈ ["pics/a.PNG"; "pics/bad.jpg"].
Proof.
  assert ((@exec Sample.env _ (scan_images "pics") Sample.pics).1.1
          = inr ["pics/a.PNG"; "pics/bad.jpg"]) as Hscan
    by (vm_compute; reflexivity).
  destruct (@scan_selects_images Sample.env Sample.pics "pics" _ Hscan)
    as (_ & Hnd & Hin & _).
  split; [exact Hscan|]. split; [exact Hnd|]. split.
  - intros Hc. apply Hin in Hc as (f & Hp & _ & _ & Hsep & _).
    change (Fs.dir_prefix "pics") with "pics/" in Hp.
    assert (f = "sub/c.png") as -> by (injection Hp; done).
    vm_compute in Hsep. discriminate.
  - apply Hin. exists "a.PNG".
    split; [reflexivity|]. split; [reflexivity|]. split; [discriminate|].
    split; [reflexivity|]. split.
    + exists "png-data". vm_compute. reflexivity.
    + exists "a", ".PNG". split; [reflexivity|]. left. reflexivity.
Defined.

(* ===================================================================== *)
(** * The error log *)
(* ===================================================================== *)

Lemma events_of_elem j ev tr : (j, ev) ∈ tr -> ev ∈ events_of j tr.
Proof.
  intros Hin. unfold events_of. apply list_elem_of_fmap.
  exists (j, ev). split; [done|]. by apply list_elem_of_filter.
Qed.

Lemma open_error_node fs fs' p :
  Fs.open_error fs p = None ->
  fs' !! p = fs !! p \/ (exists c, fs' !! p = Some (File c)) ->
  Fs.open_error fs' p = None.
Proof.
  unfold Fs.open_error. destruct (decide (p = "")); [done|].
  destruct (Py.endswith p "/"); [done|].
  intros Hp [->|[c ->]]; done.
Qed.

Lemma node_after_file n texts :
  node_after n texts = n \/ exists c, node_after n texts = Some (File c).
Proof. destruct texts; simpl; eauto. Qed.

Section LogFacts.
Context `{External}.
Variable body : string -> prog unit.
Variable catches : exn -> bool.
Variable log : string.
Variable line : string -> exn -> string.
Variable items : list string.
Variable max_workers : Z.
Variable progress : nat -> nat -> string.
Variable fs0 : gmap string node.

Let worker (item : string) : prog unit :=
  try_except (body item) catches
    (fun e => call (open_a_write log (line item e))).

(** The [try] block neither touches the log nor appends to anything. *)
Hypothesis body_calls :
  forall item, item ∈ items ->
    always (fun ev => touches log ev = false /\ is_append ev = false)
      (body item).
Hypothesis log_opens : Fs.open_error fs0 log = None.

Local Abbreviation transition := (transition worker items progress).
Local Abbreviation tracked := (tracked worker items).
Local Abbreviation run := (run worker items max_workers progress).

Lemma worker_calls item :
  item ∈ items -> always (fun ev => touches log ev = false) (worker item).
Proof.
  intros Hin. apply always_try_except.
  - eapply always_mono; [|by apply body_calls]. by intros ev [].
  - intros e _. by apply always_call.
Qed.

Lemma tracked_untouched s :
  tracked s -> Forall (fun te => touches log te.2 = false) (trace s).
Proof.
  intros [_ Hall]. apply Forall_forall. intros [j ev] Hin%events_of_elem.
  specialize (Hall j). simpl.
  destruct (futures s !! j) as [f|]; [|rewrite Hall in Hin; by inversion Hin].
  destruct Hall as (item & Hitem & Hf).
  apply list_elem_of_lookup_2 in Hitem.
  assert (forall q, path (events_of j (trace s)) (worker item) q ->
                    touches log ev = false) as Hq.
  { intros q Hp. eapply always_path in Hp as [Hp _]; [|by apply worker_calls].
    rewrite Forall_forall in Hp. by apply Hp. }
  destruct f; simpl in Hf; eauto; rewrite Hf in Hin; by inversion Hin.
Qed.

Local Abbreviation log_inv := (log_inv worker items log fs0).

Lemma log_inv_opens s : log_inv s -> Fs.open_error (files s) log = None.
Proof.
  intros (Ht & Hf & _). eapply open_error_node; [exact log_opens|].
  specialize (Hf (tracked_untouched _ Ht)).
  destruct (node_after_file (fs0 !! log) (entries log (snd <$> trace s)))
    as [Hn|[c Hn]]; [left | right; exists c]; congruence.
Qed.

Lemma log_inv_init : log_inv (pool_init items fs0).
Proof.
  split; [apply tracked_init|]. split; [apply follows_init | constructor].
Qed.

Lemma log_inv_step s s' : log_inv s -> transition s s' -> log_inv s'.
Proof.
  intros Hinv Ht. pose proof (log_inv_opens _ Hinv) as Hopen.
  destruct Hinv as (Htr & Hfo & Hap).
  split; [by eapply tracked_step|]. split; [by eapply follows_step|].
  destruct Ht as [s j item Hj Hitem| s j a Hj| s j e Hj| s j X o k r fs' Hj Hh
                 | s i Hi Hfi | s i Hi Hfi | s i e Hi Hfi | s e i m Hi
                 | s e i Hi | s r Hi Hidle]; try exact Hap.
  unfold appends_ok. simpl. apply Forall_app. split; [exact Hap|].
  apply Forall_singleton. simpl.
  destruct o; simpl; try done. intros ->. simpl in Hh.
  unfold Fs.append in Hh. rewrite Hopen in Hh. by injection Hh as <- _.
Qed.

Lemma run_log_inv sched : log_inv (run sched (pool_init items fs0)).
Proof.
  apply run_invariant; [apply log_inv_step | apply log_inv_init].
Qed.

Lemma appends_ok_elem tr j p text a :
  appends_ok log tr -> EvAppend p text a ∈ events_of j tr ->
  p = log -> a = inr tt.
Proof.
  intros Hap Hin. unfold events_of in Hin.
  apply list_elem_of_fmap in Hin as ([j' ev] & Hev & Hin).
  apply list_elem_of_filter in Hin as [_ Hin]. simpl in Hev. subst ev.
  unfold appends_ok in Hap. rewrite Forall_forall in Hap.
  by apply Hap in Hin.
Qed.

(** In every state of the pool, a call that has ended left in the log
    what [item_logged] says. *)
Lemma run_item_logged sched j item r :
  let s := run sched (pool_init items fs0) in
  items !! j = Some item -> futures s !! j = Some (Finished r) ->
  item_logged (body item) catches log (line item) (events_of j (trace s)) r.
Proof.
  intros s Hitem Hj. destruct (run_log_inv sched) as ([_ Hall] & _ & Hap).
  fold s in Hall, Hap. specialize (Hall j). rewrite Hj in Hall.
  destruct Hall as (item' & Hitem' & Hp). simplify_eq. simpl in Hp.
  apply try_except_ends in Hp.
  apply list_elem_of_lookup_2 in Hitem.
  remember (events_of j (trace s)) as evs eqn:Hevs.
  assert (forall bevs q, path bevs (body item) q -> entries log bevs = [])
    as Hnone.
  { intros bevs q Hb. apply entries_no_append.
    eapply always_path in Hb as [Hb _]; [|by apply body_calls].
    eapply Forall_impl; [exact Hb|]. by intros ev []. }
  destruct Hp as [bevs Hb|bevs e a Hb Hc|bevs e Hb Hc]; simpl.
  - left. eauto.
  - assert (a = inr tt) as ->.
    { eapply appends_ok_elem; [exact Hap| |done].
      rewrite <- Hevs. apply elem_of_app. right. by left. }
    simpl. right. exists e, bevs. repeat split; [done..|].
    rewrite entries_app, (Hnone _ _ Hb), entries_one. simpl.
    by rewrite decide_True.
  - eauto.
Qed.

Lemma run_log_file sched :
  let s := run sched (pool_init items fs0) in
  files s !! log = node_after (fs0 !! log) (entries log (snd <$> trace s)).
Proof.
  intros s. destruct (run_log_inv sched) as (Ht & Hf & _).
  apply Hf. by apply tracked_untouched.
Qed.

End LogFacts.

Section BatchLog.
Context `{External}.

Lemma raised_log_kept body catches log line fs0 e fs :
  fs !! log = fs0 !! log ->
  log_kept body catches log line fs0 (raised e fs).
Proof. intros Hfs. split; simpl; done. Qed.

Lemma with_executor_log_kept sched body catches log line items max_threads
    progress summary fs0 fs :
  (forall item, item ∈ items ->
     always (fun ev => touches log ev = false /\ is_append ev = false)
       (body item)) ->
  Fs.open_error fs log = None -> fs !! log = fs0 !! log ->
  log_kept body catches log line fs0
    (with_executor sched
       (fun item =>
          try_except (body item) catches
            (fun e => call (open_a_write log (line item e))))
       items max_threads progress summary fs).
Proof.
  intros Hbody Hopen Hfs. unfold with_executor.
  destruct (max_threads <=? 0)%Z; [by apply raised_log_kept|].
  pose proof (run_item_logged body catches log line items max_threads
                progress fs Hbody Hopen sched) as Hitems.
  pose proof (run_log_file body catches log line items max_threads
                progress fs Hbody Hopen sched) as Hfile.
  simpl in Hitems, Hfile. rewrite Hfs in Hfile.
  destruct (pc _) as [| |[]|[]]; split; simpl; auto.
Qed.

Lemma convert_body_quiet image_path output_folder error_log :
  error_log <> output_folder ->
  webp_path image_path output_folder <> error_log ->
  always (fun ev => touches error_log ev = false /\ is_append ev = false)
    (convert_body image_path output_folder).
Proof.
  intros Hfolder Hout. eapply always_mono; [|apply convert_body_calls].
  intros [] Hev; simpl in *; try done; subst.
  - by rewrite bool_decide_eq_false_2.
  - assert (Fs.output_arg (cwebp_argv image_path
                             (webp_path image_path output_folder))
            = Some (webp_path image_path output_folder)) as ->
      by reflexivity.
    by rewrite bool_decide_eq_false_2.
Qed.

Lemma download_body_quiet url folder_name error_log :
  save_path url folder_name <> error_log ->
  always (fun ev => touches error_log ev = false /\ is_append ev = false)
    (download_body url folder_name).
Proof.
  intros Hout. eapply always_mono; [|apply download_body_calls].
  intros [] Hev; simpl in *; try done; subst;
    by rewrite bool_decide_eq_false_2.
Qed.

Lemma ensure_folder_log folder_name error_log fs :
  error_log <> folder_name -> Fs.open_error fs error_log = None ->
  let fs' := (exec (ensure_folder folder_name) fs).1.2 in
  fs' !! error_log = fs !! error_log /\ Fs.open_error fs' error_log = None.
Proof.
  intros Hne Hopen fs'.
  assert (fs' !! error_log = fs !! error_log) as Hfs.
  { unfold fs'. rewrite exec_ensure_folder.
    destruct (Fs.exists_ fs folder_name); [done|]. simpl.
    by apply makedirs_other. }
  split; [done|]. eapply open_error_node; [exact Hopen | by left].
Qed.

End BatchLog.



(* ===================================================================== *)
(** * Exceptions in a worker *)
(* ===================================================================== *)

Lemma with_executor_fault `{External} sched worker items max_threads progress
    summary fs :
  let b := with_executor sched worker items max_threads progress summary fs in
  (forall e, b_outcome b = Some (Raised e) -> fault_propagated progress b e) /\
  (forall i e, futures (b_pool b) !! i = Some (Finished (Raised e)) ->
               b_outcome b <> Some Returned).
Proof.
  unfold with_executor. destruct (max_threads <=? 0)%Z.
  { split; [intros e _; by left | done]. }
  pose proof (run_counted worker items max_threads progress sched fs)
    as (Hlen & Hout & Hdone & Hpc).
  destruct (pc _) as [i|e i m|[|e]|[|e]]; simpl; split; try done.
  - intros i e Hi _. destruct Hpc as [Hc _]. rewrite Hdone in Hi; [done|].
    apply lookup_lt_Some in Hi. lia.
  - intros e' [= <-]. right. destruct Hpc as [Hf Hidle]. done.
Qed.

Lemma raised_fault progress e fs : fault_propagated progress (raised e fs) e.
Proof. by left. Qed.

(** C2, as the code has it.  Inside a worker only the exception its
    [except] clause names is caught: the call then appends the item's
    entry and ends as that append ends.  Any other exception of the
    [try] block ends the call ([ends_escaped]).  In the batch
    function, a call that raised keeps the function from returning;
    when the function has raised [e] after the pool was set up, [e] is
    the exception of the call whose result the loop had come to: the
    results before it were counted, nothing is pending or running any
    more (what had not started was cancelled), and no summary was
    printed. *)
Theorem unexpected_fault_escapes `{External} :
  (forall image_path output_folder error_log evs r,
     path evs (convert_to_webp image_path output_folder error_log)
       (final r) ->
     call_ends (convert_body image_path output_folder)
       is_CalledProcessError error_log (convert_error_line image_path)
       evs r) /\
  (forall url folder_name error_log evs r,
     path evs (download_image url folder_name error_log) (final r) ->
     call_ends (download_body url folder_name) is_RequestException
       error_log (download_error_line url) evs r) /\
  (forall sched image_folder output_folder max_threads error_log fs,
     let b := convert_images_to_webp sched image_folder output_folder
                max_threads error_log fs in
     (forall e, b_outcome b = Some (Raised e) ->
                fault_propagated convert_progress b e) /\
     (forall i e, futures (b_pool b) !! i = Some (Finished (Raised e)) ->
                  b_outcome b <> Some Returned)) /\
  (forall sched image_urls folder_name max_threads error_log fs,
     let b := download_images sched image_urls folder_name max_threads
                error_log fs in
     (forall e, b_outcome b = Some (Raised e) ->
                fault_propagated download_progress b e) /\
     (forall i e, futures (b_pool b) !! i = Some (Finished (Raised e)) ->
                  b_outcome b <> Some Returned)).
Proof.
  split; [intros; by apply convert_ends|].
  split; [intros; by apply download_ends|]. split.
  - intros sched image_folder output_folder max_threads error_log fs.
    unfold convert_images_to_webp.
    destruct (exec (scan_images image_folder) fs) as [[[e|image_paths] fs'] evs].
    { split; [intros e' _; by left | done]. }
    apply with_executor_fault.
  - intros sched image_urls folder_name max_threads error_log fs.
    unfold download_images.
    destruct (exec (ensure_folder folder_name) fs) as [[[e|[]] fs'] evs].
    { split; [intros e' _; by left | done]. }
    apply with_executor_fault.
Qed.

(** Against C2 as stated: five URLs, one pool thread, the third URL
    without a file name.  Its [open] raises [IsADirectoryError]; the
    exception leaves [download_image] and then [download_images],
    nothing is logged for it, the fourth item (already started) runs
    to its end uncounted, the fifth is cancelled, and the summary is
    never printed. *)
Lemma fault_escapes_download_images :
  let b := @download_images Sample.env Sample.one_by_one Sample.five_urls
             "images" 1 "error_log.txt" ∅ in
  b_outcome b = Some (Raised (OSError EISDIR "images/")) /\
  futures (b_pool b)
  = [Finished Returned; Finished Returned;
     Finished (Raised (OSError EISDIR "images/")); Finished Returned;
     Cancelled] /\
  completed (b_pool b) = 2 /\
  entries "error_log.txt" (events_of 2 (trace (b_pool b))) = [] /\
  events_of 4 (trace (b_pool b)) = [] /\
  stdout (b_pool b)
  = ["Completed 1 of 5 images..." +:+ cr; "Completed 2 of 5 images..." +:+ cr].
Proof. vm_compute. repeat split. Qed.

(* ===================================================================== *)
(** * Which failures reach the log *)
(* ===================================================================== *)

Lemma entries_logged log bevs text a :
  Forall (fun ev => is_append ev = false) bevs ->
  entries log (bevs ++ [EvAppend log text a])
  = match a with inr _ => [text] | inl _ => [] end.
Proof.
  intros Hb. rewrite entries_app, entries_no_append, entries_one by done.
  simpl. destruct a; [done|]. by rewrite decide_True.
Qed.

Lemma in_body_events (bevs : list event) ev last_ev :
  In ev (bevs ++ [last_ev]) -> is_append ev = false ->
  is_append last_ev = true -> In ev bevs.
Proof.
  intros Hin Hev Hlast. apply in_app_or in Hin as [Hin|[<-|[]]]; [done|].
  congruence.
Qed.



(* ===================================================================== *)
(** * More about the pool: how many calls run, in which order results
      are taken, and that some thread can always move *)
(* ===================================================================== *)

Lemma running_count_cons f l :
  running_count (f :: l) = (if is_running f then 1 else 0) + running_count l.
Proof.
  unfold running_count. destruct (is_running f) eqn:Hf.
  - by rewrite filter_cons_True.
  - rewrite filter_cons_False; [done|]. by rewrite Hf.
Qed.

Lemma running_count_insert l j f g :
  l !! j = Some g ->
  running_count (<[j := f]> l) + (if is_running g then 1 else 0)
  = running_count l + (if is_running f then 1 else 0).
Proof.
  revert j. induction l as [|h l IH]; intros j Hj; [done|].
  destruct j as [|j]; simpl in *.
  - injection Hj as ->. rewrite !running_count_cons. lia.
  - rewrite !running_count_cons. specialize (IH j Hj). lia.
Qed.

Lemma running_count_cancel l j :
  running_count (alter cancel j l) = running_count l.
Proof.
  revert j. induction l as [|h l IH]; intros j; [done|].
  destruct j as [|j].
  - change (alter cancel 0 (h :: l)) with (cancel h :: l).
    rewrite !running_count_cons. by destruct h.
  - change (alter cancel (S j) (h :: l)) with (h :: alter cancel j l).
    rewrite !running_count_cons. by rewrite IH.
Qed.

Lemma running_count_pending (items : list string) :
  running_count ((fun _ => Pending) <$> items) = 0.
Proof.
  induction items as [|i items IH]; [done|].
  rewrite fmap_cons, running_count_cons. simpl. done.
Qed.

Lemma running_exists l :
  0 < running_count l -> exists j p, l !! j = Some (Running p).
Proof.
  induction l as [|f l IH]; [unfold running_count; simpl; lia|].
  rewrite running_count_cons. destruct f as [|p| |]; simpl.
  2: { intros _. by exists 0, p. }
  all: intros Hl; destruct (IH Hl) as (j & p & Hj); by exists (S j), p.
Qed.

Lemma first_pending_exists l j :
  l !! j = Some Pending ->
  exists j', first_pending l = Some j' /\ j' < length l.
Proof.
  revert j. induction l as [|f l IH]; intros j Hj; [done|].
  destruct f; try (exists 0; simpl; split; [done | lia]);
    (destruct j as [|j]; [done|]); simpl in Hj;
    destruct (IH j Hj) as (j' & Hj' & Hlt); exists (S j'); simpl;
    rewrite Hj'; (split; [done | lia]).
Qed.

Lemma not_idle l :
  idle l = false ->
  exists j f, l !! j = Some f /\ (is_running f || is_pending f) = true.
Proof.
  induction l as [|f l IH]; [done|]. unfold idle in *. simpl.
  destruct (is_running f || is_pending f) eqn:Hf; simpl.
  - intros _. by exists 0, f.
  - intros Hl. destruct (IH Hl) as (j & g & Hj & Hg). by exists (S j), g.
Qed.

Section PoolMore.
Context `{External}.
Variable worker : string -> prog unit.
Variable items : list string.
Variable max_workers : Z.
Variable progress : nat -> nat -> string.

Local Abbreviation step := (step worker items max_workers progress).
Local Abbreviation run := (run worker items max_workers progress).

Lemma run_step_invariant (P : pool -> Prop) :
  (forall c s s', P s -> step c s = Some s' -> P s') ->
  forall sched s, P s -> P (run sched s).
Proof.
  intros Hstep sched. induction sched as [|c sched IH]; intros s Hs; [done|].
  simpl. apply IH. destruct (step c s) as [s'|] eqn:Hc; [|done].
  simpl. by eapply Hstep.
Qed.

(** One move keeps the number of running calls within the limit. *)
Lemma step_bounded c s s' :
  (Z.of_nat (running_count (futures s)) <= max_workers)%Z ->
  step c s = Some s' ->
  (Z.of_nat (running_count (futures s')) <= max_workers)%Z.
Proof.
  intros Hb. destruct c as [|j|]; simpl.
  - unfold step_start. destruct (Z.ltb_spec
      (Z.of_nat (running_count (futures s))) max_workers) as [Hlt|]; [|done].
    destruct (first_pending (futures s)) as [j|] eqn:Hj; [|done]. simpl.
    destruct (items !! j) as [item|]; [|done]. simpl. intros [= <-]. simpl.
    apply first_pending_lookup in Hj.
    pose proof (running_count_insert _ _ (Running (worker item)) _ Hj).
    simpl in *. lia.
  - unfold step_work. destruct (futures s !! j) as [[|p| |]|] eqn:Hj; try done.
    destruct p as [a|e|X o k].
    + intros [= <-]. simpl.
      pose proof (running_count_insert _ _ (Finished Returned) _ Hj).
      simpl in *. lia.
    + intros [= <-]. simpl.
      pose proof (running_count_insert _ _ (Finished (Raised e)) _ Hj).
      simpl in *. lia.
    + destruct (handle o (files s)) as [r fs']. intros [= <-]. simpl.
      pose proof (running_count_insert _ _ (Running (k r)) _ Hj).
      simpl in *. lia.
  - unfold step_main. destruct (pc s) as [i|e i [|m]|r|r]; try done.
    + destruct (futures s !! i) as [[|p|[|e]|]|]; try done;
        intros [= <-]; done.
    + intros [= <-]. done.
    + intros [= <-]. simpl. by rewrite running_count_cancel.
    + destruct (idle (futures s)); [|done]. intros [= <-]. done.
Qed.

Lemma run_bounded sched fs :
  (0 <= max_workers)%Z ->
  (Z.of_nat (running_count (futures (run sched (pool_init items fs))))
   <= max_workers)%Z.
Proof.
  intros Hn. apply run_step_invariant; [apply step_bounded|].
  simpl. rewrite running_count_pending. lia.
Qed.

(** While the loop is taking results, nothing is cancelled. *)
Lemma run_none_cancelled sched fs :
  let s := run sched (pool_init items fs) in
  (exists i, pc s = Iterating i) ->
  forall j, futures s !! j <> Some Cancelled.
Proof.
  apply (run_invariant worker items max_workers progress
           (fun s => (exists i, pc s = Iterating i) ->
                     forall j, futures s !! j <> Some Cancelled)).
  - intros s s' Hinv Ht.
    destruct Ht as [s j item Hj Hitem| s j a Hj| s j e Hj| s j X o k r fs' Hj Hh
                   | s i Hi Hfi | s i Hi Hfi | s i e Hi Hfi | s e i m Hi
                   | s e i Hi | s r Hi Hidle]; simpl;
      try (intros [i' [=]]; fail).
    1-4: intros Hpc j'; specialize (Hinv Hpc j');
         destruct (decide (j = j')) as [<-|Hne];
         [ rewrite list_lookup_insert_eq by (by eapply lookup_lt_Some); done
         | by rewrite list_lookup_insert_ne ].
    intros _. apply Hinv. eauto.
  - simpl. intros _ j. rewrite list_lookup_fmap.
    by destruct (items !! j).
Qed.

(** As long as the [with] block has not been left, some thread can
    move: the pool does not come to a stop with work left. *)
Lemma run_can_move sched fs :
  (1 <= max_workers)%Z ->
  let s := run sched (pool_init items fs) in
  (forall r, pc s <> Exited r) -> exists c, is_Some (step c s).
Proof.
  intros Hn s Hpc.
  pose proof (run_counted worker items max_workers progress sched fs)
    as (Hlen & _). fold s in Hlen.
  assert (forall j, futures s !! j = Some Pending ->
                    exists c, is_Some (step c s)) as Hpending.
  { intros j Hj.
    destruct (Z.ltb_spec (Z.of_nat (running_count (futures s))) max_workers)
      as [Hlt|Hge].
    - exists Start. simpl. unfold step_start.
      destruct (Z.ltb_spec (Z.of_nat (running_count (futures s)))
                  max_workers); [|lia].
      destruct (first_pending_exists _ _ Hj) as (j' & -> & Hj'). simpl.
      rewrite Hlen in Hj'. apply lookup_lt_is_Some in Hj' as [item ->].
      simpl. eauto.
    - destruct (running_exists (futures s)) as (j' & p & Hj'); [lia|].
      exists (Work j'). simpl. unfold step_work. rewrite Hj'.
      destruct p; [eauto..|]. by destruct (handle _ _). }
  assert (forall j p, futures s !! j = Some (Running p) ->
                      exists c, is_Some (step c s)) as Hrunning.
  { intros j p Hj. exists (Work j). simpl. unfold step_work. rewrite Hj.
    destruct p; [eauto..|]. by destruct (handle _ _). }
  destruct (pc s) as [i|e i m|r|r] eqn:Hs.
  - destruct (futures s !! i) as [[|p|r|]|] eqn:Hi.
    + eauto.
    + eauto.
    + exists Main. simpl. unfold step_main. rewrite Hs, Hi.
      destruct r; eauto.
    + exfalso. eapply (run_none_cancelled sched fs); [eauto|]. exact Hi.
    + exists Main. simpl. unfold step_main. rewrite Hs, Hi. eauto.
  - exists Main. simpl. unfold step_main. rewrite Hs. destruct m; eauto.
  - destruct (idle (futures s)) eqn:Hidle.
    + exists Main. simpl. unfold step_main. rewrite Hs, Hidle. eauto.
    + destruct (not_idle _ Hidle) as (j & f & Hj & Hf).
      destruct f; try done; eauto.
  - by destruct (Hpc r).
Qed.

End PoolMore.

Section PoolCancel.
Context `{External}.
Variable worker : string -> prog unit.
Variable items : list string.
Variable max_workers : Z.
Variable progress : nat -> nat -> string.

Local Abbreviation run := (run worker items max_workers progress).
Local Abbreviation transition := (transition worker items progress).
Local Abbreviation counted := (counted items progress).

Lemma cancelled_step s s' :
  counted s /\ cancelled_behind_fault s -> transition s s' ->
  counted s' /\ cancelled_behind_fault s'.
Proof.
  intros [Hc Hinv] Ht.
  split; [by eapply counted_step|].
  destruct Hc as (_ & _ & _ & Hpc).
  destruct Ht as [s j item Hj Hitem| s j a Hj| s j e Hj| s j X o k r fs' Hj Hh
                 | s i Hi Hfi | s i Hi Hfi | s i e Hi Hfi | s e i m Hi
                 | s e i Hi | s r Hi Hidle]; intros j'; simpl.
  1-4: destruct (decide (j = j')) as [<-|Hne];
       [ rewrite list_lookup_insert_eq by (by eapply lookup_lt_Some); done
       | rewrite list_lookup_insert_ne by done; apply Hinv ].
  - intros Hj'. apply Hinv in Hj' as [Hf _]. by rewrite Hi in Hf.
  - intros Hj'. apply Hinv in Hj' as [Hf _]. by rewrite Hi in Hf.
  - intros Hj'. apply Hinv in Hj' as [Hf _]. by rewrite Hi in Hf.
  - rewrite Hi in Hpc. destruct Hpc as (Hc & _).
    rewrite list_lookup_alter. destruct (decide (i + S m = j')) as [<-|Hne].
    + intros _. split; [done | lia].
    + intros Hj'. apply Hinv in Hj' as [_ Hlt]. done.
  - intros Hj'. apply Hinv in Hj' as [_ Hlt]. done.
  - intros Hj'. apply Hinv in Hj' as [Hf Hlt]. rewrite Hi in Hf.
    by destruct r.
Qed.

Lemma run_cancelled sched fs :
  cancelled_behind_fault (run sched (pool_init items fs)).
Proof.
  apply (run_invariant worker items max_workers progress
           (fun s => counted s /\ cancelled_behind_fault s)).
  - apply cancelled_step.
  - split; [apply counted_init|]. intros j. simpl.
    rewrite list_lookup_fmap. by destruct (items !! j).
Qed.

End PoolCancel.

Section BatchMore.
Context `{External}.

(** What the [with] block gives for the three properties below. *)
Lemma with_executor_more sched worker items max_threads progress summary fs :
  let b := with_executor sched worker items max_threads progress summary fs in
  (Z.of_nat (running_count (futures (b_pool b))) <= Z.max 0 max_threads)%Z /\
  (forall j, j < completed (b_pool b) ->
             futures (b_pool b) !! j = Some (Finished Returned)) /\
  stdout (b_pool b) = printed_so_far progress summary b /\
  (forall j, futures (b_pool b) !! j = Some Cancelled ->
     events_of j (trace (b_pool b)) = [] /\
     completed (b_pool b) < j /\
     b_outcome b <> Some Returned /\
     exists e, futures (b_pool b) !! completed (b_pool b)
               = Some (Finished (Raised e))) /\
  (b_outcome b = None ->
   exists c, is_Some (step worker items max_threads progress c (b_pool b))).
Proof.
  unfold with_executor, printed_so_far.
  destruct (Z.leb_spec max_threads 0) as [Hle|Hgt].
  { unfold raised, no_pool. simpl. split; [unfold running_count; simpl; lia|].
    split; [intros j Hj; lia|]. split; [done|].
    split; [intros j Hj; done | intros [=]]. }
  set (s := run worker items max_threads progress sched (pool_init items fs)).
  pose proof (run_bounded worker items max_threads progress sched fs
                ltac:(lia)) as Hb.
  pose proof (run_counted worker items max_threads progress sched fs)
    as (Hlen & Hout & Hdone & Hpc).
  pose proof (run_tracked worker items max_threads progress sched fs)
    as [_ Htr].
  pose proof (run_cancelled worker items max_threads progress sched fs)
    as Hcan.
  pose proof (run_can_move worker items max_threads progress sched fs
                ltac:(lia)) as Hmove.
  fold s in Hb, Hlen, Hout, Hdone, Hpc, Htr, Hcan, Hmove. simpl in Hmove.
  assert (forall j, futures s !! j = Some Cancelled ->
                    events_of j (trace s) = []) as Hquiet.
  { intros j Hj. specialize (Htr j). rewrite Hj in Htr.
    by destruct Htr as (item & _ & Hev). }
  assert (forall j, futures s !! j = Some Cancelled ->
            completed s < j /\
            exists e, futures s !! completed s = Some (Finished (Raised e)))
    as Hbehind.
  { intros j Hj. destruct (Hcan j Hj) as [Hf Hlt]. split; [done|].
    destruct (pc s) as [i|e i m|[|e]|[|e]]; try done.
    - destruct Hpc as (-> & ? & _). eauto.
    - destruct Hpc. eauto.
    - destruct Hpc. eauto. }
  destruct (pc s) as [i|e i m|[|e]|[|e]] eqn:Hs; simpl.
  1-4, 6: split; [lia|]; split; [done|];
    split; [by rewrite Hout, app_nil_r|]; split;
    [ intros j Hj; destruct (Hbehind j Hj) as [? ?]; by rewrite Hquiet
    | intros Hn; try done; apply Hmove; intros r; congruence ].
  split; [lia|]. split; [done|]. split; [by rewrite Hout|]. split; [|done].
  intros j Hj. destruct (Hcan j Hj) as [Hf _]. by rewrite Hs in Hf.
Qed.

End BatchMore.

Lemma raised_more `{External} worker items max_threads progress summary e fs :
  let b := raised e fs in
  (Z.of_nat (running_count (futures (b_pool b))) <= Z.max 0 max_threads)%Z /\
  (forall j, j < completed (b_pool b) ->
             futures (b_pool b) !! j = Some (Finished Returned)) /\
  stdout (b_pool b) = printed_so_far progress summary b /\
  (forall j, futures (b_pool b) !! j = Some Cancelled ->
     events_of j (trace (b_pool b)) = [] /\
     completed (b_pool b) < j /\
     b_outcome b <> Some Returned /\
     exists e, futures (b_pool b) !! completed (b_pool b)
               = Some (Finished (Raised e))) /\
  (b_outcome b = None ->
   exists c, is_Some (step worker items max_threads progress c (b_pool b))).
Proof.
  unfold raised, no_pool, printed_so_far. simpl.
  split; [unfold running_count; simpl; lia|].
  split; [intros j Hj; lia|]. split; [done|].
  split; [intros j Hj; done | intros [=]].
Qed.

(** X1.  Whatever the schedule, at most [max_threads] calls of the
    worker are running at any moment, in both scripts. *)
Theorem running_calls_bounded `{External} sched fs max_threads error_log :
  (forall image_folder output_folder,
     let b := convert_images_to_webp sched image_folder output_folder
                max_threads error_log fs in
     (Z.of_nat (running_count (futures (b_pool b)))
      <= Z.max 0 max_threads)%Z) /\
  (forall image_urls folder_name,
     let b := download_images sched image_urls folder_name max_threads
                error_log fs in
     (Z.of_nat (running_count (futures (b_pool b)))
      <= Z.max 0 max_threads)%Z).
Proof.
  split.
  - intros image_folder output_folder. unfold convert_images_to_webp.
    destruct (exec (scan_images image_folder) fs) as [[[e|image_paths] fs'] evs].
    + apply (raised_more (fun _ => Ret tt) [] max_threads convert_progress
               convert_progress e fs').
    + apply with_executor_more.
  - intros image_urls folder_name. unfold download_images.
    destruct (exec (ensure_folder folder_name) fs) as [[[e|[]] fs'] evs].
    + apply (raised_more (fun _ => Ret tt) [] max_threads download_progress
               download_progress e fs').
    + apply with_executor_more.
Qed.

(** X2.  Results are taken in the order of the input, at every moment
    of a run: when the counter stands at [n], the calls for the first
    [n] items have returned, and what has been printed is the progress
    lines 1 of K ... n of K, each closed by a carriage return,
    followed by the summary line once the function has returned. *)
Theorem results_taken_in_order `{External} sched fs max_threads error_log :
  (forall image_folder output_folder,
     let b := convert_images_to_webp sched image_folder output_folder
                max_threads error_log fs in
     (forall j, j < completed (b_pool b) ->
                futures (b_pool b) !! j = Some (Finished Returned)) /\
     stdout (b_pool b)
     = printed_so_far convert_progress
         (fun c t => convert_summary c t error_log) b) /\
  (forall image_urls folder_name,
     let b := download_images sched image_urls folder_name max_threads
                error_log fs in
     (forall j, j < completed (b_pool b) ->
                futures (b_pool b) !! j = Some (Finished Returned)) /\
     stdout (b_pool b)
     = printed_so_far download_progress
         (fun c t => download_summary c t error_log) b).
Proof.
  split.
  - intros image_folder output_folder. unfold convert_images_to_webp.
    destruct (exec (scan_images image_folder) fs) as [[[e|image_paths] fs'] evs].
    + destruct (raised_more (fun _ => Ret tt) [] max_threads convert_progress
                  (fun c t => convert_summary c t error_log) e fs')
        as (_ & Hdone & Hout & _). by split.
    + destruct (with_executor_more sched
                  (fun image_path =>
                     convert_to_webp image_path output_folder error_log)
                  image_paths max_threads convert_progress
                  (fun c t => convert_summary c t error_log) fs')
        as (_ & Hdone & Hout & _). by split.
  - intros image_urls folder_name. unfold download_images.
    destruct (exec (ensure_folder folder_name) fs) as [[[e|[]] fs'] evs].
    + destruct (raised_more (fun _ => Ret tt) [] max_threads download_progress
                  (fun c t => download_summary c t error_log) e fs')
        as (_ & Hdone & Hout & _). by split.
    + destruct (with_executor_more sched
                  (fun url => download_image url folder_name error_log)
                  image_urls max_threads download_progress
                  (fun c t => download_summary c t error_log) fs')
        as (_ & Hdone & Hout & _). by split.
Qed.

(** X3.  An item is cancelled only behind a call that raised: a
    cancelled future comes after the one the counter stopped at, whose
    call raised; the function does not return; and no call was ever
    made for the cancelled item (nothing of it was requested, converted
    or logged). *)
Theorem cancelled_items_make_no_call `{External} sched fs max_threads
    error_log :
  (forall image_folder output_folder j,
     let b := convert_images_to_webp sched image_folder output_folder
                max_threads error_log fs in
     futures (b_pool b) !! j = Some Cancelled ->
     events_of j (trace (b_pool b)) = [] /\
     completed (b_pool b) < j /\
     b_outcome b <> Some Returned /\
     exists e, futures (b_pool b) !! completed (b_pool b)
               = Some (Finished (Raised e))) /\
  (forall image_urls folder_name j,
     let b := download_images sched image_urls folder_name max_threads
                error_log fs in
     futures (b_pool b) !! j = Some Cancelled ->
     events_of j (trace (b_pool b)) = [] /\
     completed (b_pool b) < j /\
     b_outcome b <> Some Returned /\
     exists e, futures (b_pool b) !! completed (b_pool b)
               = Some (Finished (Raised e))).
Proof.
  split.
  - intros image_folder output_folder j. unfold convert_images_to_webp.
    destruct (exec (scan_images image_folder) fs) as [[[e|image_paths] fs'] evs].
    + destruct (raised_more (fun _ => Ret tt) [] max_threads convert_progress
                  convert_progress e fs') as (_ & _ & _ & Hcan & _).
      apply Hcan.
    + destruct (with_executor_more sched
                  (fun image_path =>
                     convert_to_webp image_path output_folder error_log)
                  image_paths max_threads convert_progress
                  (fun c t => convert_summary c t error_log) fs')
        as (_ & _ & _ & Hcan & _). apply Hcan.
  - intros image_urls folder_name j. unfold download_images.
    destruct (exec (ensure_folder folder_name) fs) as [[[e|[]] fs'] evs].
    + destruct (raised_more (fun _ => Ret tt) [] max_threads
                  download_progress download_progress e fs')
        as (_ & _ & _ & Hcan & _).
      apply Hcan.
    + destruct (with_executor_more sched
                  (fun url => download_image url folder_name error_log)
                  image_urls max_threads download_progress
                  (fun c t => download_summary c t error_log) fs')
        as (_ & _ & _ & Hcan & _). apply Hcan.
Qed.

Lemma cancelled_items_make_no_call_witness :
  let b := @download_images Sample.env Sample.one_by_one Sample.five_urls
             "images" 1 "error_log.txt" ∅ in
  futures (b_pool b) !! 4 = Some Cancelled /\
  events_of 4 (trace (b_pool b)) = [] /\
  completed (b_pool b) < 4.
Proof.
  destruct (@cancelled_items_make_no_call Sample.env Sample.one_by_one ∅
              1%Z "error_log.txt") as [_ Hd].
  assert (futures (b_pool (@download_images Sample.env Sample.one_by_one
                            Sample.five_urls "images" 1 "error_log.txt" ∅))
          !! 4 = Some Cancelled) as Hc by (vm_compute; reflexivity).
  destruct (Hd Sample.five_urls "images" 4 Hc) as (Hev & Hlt & _).
  split; [exact Hc|]. split; [exact Hev | exact Hlt].
Defined.

(** X4.  While a batch function is inside its [with] block some
    thread can move, whatever the schedule so far: a pool thread can
    start or continue a call, or the main thread can go on.  With at
    least one thread the pool never stops with work left. *)
Theorem some_thread_can_move `{External} sched fs max_threads error_log :
  (forall image_folder output_folder,
     let b := convert_images_to_webp sched image_folder output_folder
                max_threads error_log fs in
     b_outcome b = None ->
     exists c,
       is_Some (step (fun image_path =>
                        convert_to_webp image_path output_folder error_log)
                  (b_submitted b) max_threads convert_progress c
                  (b_pool b))) /\
  (forall image_urls folder_name,
     let b := download_images sched image_urls folder_name max_threads
                error_log fs in
     b_outcome b = None ->
     exists c,
       is_Some (step (fun url => download_image url folder_name error_log)
                  (b_submitted b) max_threads download_progress c
                  (b_pool b))).
Proof.
  split.
  - intros image_folder output_folder. unfold convert_images_to_webp.
    destruct (exec (scan_images image_folder) fs) as [[[e|image_paths] fs'] evs].
    + done.
    + pose proof (with_executor_more sched
                  (fun image_path =>
                     convert_to_webp image_path output_folder error_log)
                  image_paths max_threads convert_progress
                  (fun c t => convert_summary c t error_log) fs')
        as (_ & _ & _ & _ & Hmove).
      cbv zeta. intros Hb.
      assert (b_submitted
                (with_executor sched
                   (fun image_path =>
                      convert_to_webp image_path output_folder error_log)
                   image_paths max_threads convert_progress
                   (fun c t => convert_summary c t error_log) fs')
              = image_paths) as ->; [|by apply Hmove].
      revert Hb. unfold with_executor.
      destruct (max_threads <=? 0)%Z; [done|].
      by destruct (pc _) as [| |[]|[]].
  - intros image_urls folder_name. unfold download_images.
    destruct (exec (ensure_folder folder_name) fs) as [[[e|[]] fs'] evs].
    + done.
    + pose proof (with_executor_more sched
                  (fun url => download_image url folder_name error_log)
                  image_urls max_threads download_progress
                  (fun c t => download_summary c t error_log) fs')
        as (_ & _ & _ & _ & Hmove).
      cbv zeta. intros Hb.
      assert (b_submitted
                (with_executor sched
                   (fun url => download_image url folder_name error_log)
                   image_urls max_threads download_progress
                   (fun c t => download_summary c t error_log) fs')
              = image_urls) as ->; [|by apply Hmove].
      revert Hb. unfold with_executor.
      destruct (max_threads <=? 0)%Z; [done|].
      by destruct (pc _) as [| |[]|[]].
Qed.

Lemma some_thread_can_move_witness :
  let b := @download_images Sample.env [Start; Work 0] Sample.urls
             "images" 2 "error_log.txt" ∅ in
  b_outcome b = None /\
  exists c,
    is_Some (@step Sample.env
               (fun url => @download_image Sample.env url "images"
                             "error_log.txt")
               (b_submitted b) 2 download_progress c (b_pool b)).
Proof.
  destruct (@some_thread_can_move Sample.env [Start; Work 0] ∅ 2%Z
              "error_log.txt") as [_ Hd].
  split; [vm_compute; reflexivity|].
  apply (Hd Sample.urls "images"). vm_compute. reflexivity.
Defined.

(* ===================================================================== *)
(** * One download, run alone *)
(* ===================================================================== *)

Section DownloadAlone.
Context `{External}.

(** The loop over the chunks appends each to the open file. *)
Lemma exec_write_chunks filepath cs stream_end c fs :
  fs !! filepath = Some (File c) ->
  exec (write_chunks filepath cs stream_end) fs =
  (match stream_end with Some e => inl e | None => inr tt end,
   <[filepath := File (c +:+ String.concat "" cs)]> fs,
   (fun chunk => EvWrite filepath chunk (inr tt)) <$> cs).
Proof.
  revert c fs. induction cs as [|chunk cs IH]; intros c fs Hf.
  - simpl. rewrite sapp_nil_r, insert_id by done. by destruct stream_end.
  - rewrite concat_cons. simpl. unfold Fs.write. rewrite Hf.
    rewrite (IH (c +:+ chunk)) by apply lookup_insert_eq.
    rewrite insert_insert_eq, app_assoc_s. done.
Qed.

(** The [try] block when the request goes through and the file can be
    opened. *)
Lemma exec_download_body url folder_name path response fs :
  ext_urlpath url = inr path -> ext_get url = inr response ->
  error_status response = false ->
  Fs.open_error fs (save_path url folder_name) = None ->
  exec (download_body url folder_name) fs =
  (match stream_error response with Some e => inl e | None => inr tt end,
   <[save_path url folder_name
     := File (String.concat "" (chunks response))]> fs,
   EvGet url (inr response)
   :: EvOpenWb (save_path url folder_name) (inr tt)
   :: ((fun chunk => EvWrite (save_path url folder_name) chunk (inr tt))
       <$> chunks response)).
Proof.
  intros Hpath Hget Hst Hopen. unfold save_path in *. rewrite Hpath in *.
  unfold download_body, raise_for_status. rewrite Hpath. simpl.
  rewrite Hget. simpl. fold (error_status response). rewrite Hst. simpl.
  unfold Fs.create. rewrite Hopen. simpl.
  rewrite (exec_write_chunks _ _ _ "") by apply lookup_insert_eq.
  rewrite insert_insert_eq, sapp_nil_l. done.
Qed.

(** The [try] block when the request is refused: by [requests.get]
    raising, or by the status [raise_for_status] rejects. *)
Lemma exec_download_refused url folder_name path fs :
  ext_urlpath url = inr path ->
  forall e,
    (ext_get url = inl e \/
     exists response, ext_get url = inr response /\
                      error_status response = true /\
                      e = HTTPError (status_code response) url) ->
    exec (download_body url folder_name) fs = (inl e, fs, [EvGet url (ext_get url)]).
Proof.
  intros Hpath e Hget. unfold download_body, raise_for_status.
  rewrite Hpath. simpl.
  destruct Hget as [Hget|(response & Hget & Hst & ->)]; rewrite Hget; simpl.
  - done.
  - fold (error_status response). by rewrite Hst.
Qed.

End DownloadAlone.



Lemma exec_log_line `{External} error_log text fs :
  exec (call (open_a_write error_log text)) fs =
  match Fs.open_error fs error_log with
  | Some e => (inl e, fs, [EvAppend error_log text (inl e)])
  | None =>
      (inr tt, <[error_log := File (Fs.content fs error_log +:+ text)]> fs,
       [EvAppend error_log text (inr tt)])
  end.
Proof.
  simpl. unfold Fs.append. by destruct (Fs.open_error fs error_log).
Qed.

Lemma content_insert_ne fs p q n :
  p <> q -> Fs.content (<[p := n]> fs) q = Fs.content fs q.
Proof. intros Hne. unfold Fs.content. by rewrite lookup_insert_ne. Qed.





(** X8.  The [except] clause is not protected: when the item failed in
    the expected way but the error log cannot be opened for appending
    (it is a directory, say), the [OSError] of that [open] leaves the
    worker, and the failure is recorded nowhere.  For
    [download_image] after a refused request, for [convert_to_webp]
    after a non-zero exit of [cwebp] with the output folder in
    place. *)
Theorem log_error_escapes `{External} error_log e' :
  (forall url folder_name path e fs,
     Fs.open_error fs error_log = Some e' ->
     ext_urlpath url = inr path ->
     (ext_get url = inl e /\ is_RequestException e = true) \/
     (exists response, ext_get url = inr response /\
                       error_status response = true /\
                       e = HTTPError (status_code response) url) ->
     exec (download_image url folder_name error_log) fs =
     (inl e', fs,
      [EvGet url (ext_get url);
       EvAppend error_log (download_error_line url e) (inl e')])) /\
  (forall image_path output_folder rc out fs,
     let argv := cwebp_argv image_path (webp_path image_path output_folder) in
     Fs.exists_ fs output_folder = true ->
     ext_child argv fs = inr (rc, out) -> rc <> 0%Z ->
     Fs.open_error (Fs.child_output argv out fs) error_log = Some e' ->
     exec (convert_to_webp image_path output_folder error_log) fs =
     (inl e', Fs.child_output argv out fs,
      [EvExists output_folder (inr true); EvRun argv (inr rc);
       EvAppend error_log
         (convert_error_line image_path (CalledProcessError rc argv))
         (inl e')])).
Proof.
  split.
  - intros url folder_name path e fs Hlog Hpath Href.
    unfold download_image. rewrite exec_try_except.
    assert (is_RequestException e = true) as He.
    { destruct Href as [[_ He]|(response & _ & _ & ->)]; done. }
    rewrite (exec_download_refused _ _ _ _ Hpath e), He.
    + rewrite exec_log_line, Hlog. done.
    + destruct Href as [[Hget _]|Href]; [by left | by right].
  - intros image_path output_folder rc out fs argv Hex Hchild Hrc Hlog.
    unfold convert_to_webp. rewrite exec_try_except.
    unfold convert_body. simpl. rewrite Hex. simpl.
    fold argv. rewrite Hchild. simpl.
    apply Z.eqb_neq in Hrc. rewrite Hrc. simpl.
    unfold Fs.append. fold argv. rewrite Hlog. done.
Qed.

Lemma log_error_escapes_witness :
  (@exec Sample.env _
     (@convert_to_webp Sample.env "pics/bad.jpg" "pics" "pics/sub")
     Sample.pics).1.1
  = inl (OSError EISDIR "pics/sub").
Proof.
  destruct (@log_error_escapes Sample.env "pics/sub"
              (OSError EISDIR "pics/sub")) as [_ Hc].
  rewrite (Hc "pics/bad.jpg" "pics" 1%Z None Sample.pics).
  - reflexivity.
  - vm_compute. reflexivity.
  - vm_compute. reflexivity.
  - discriminate.
  - vm_compute. reflexivity.
Defined.

(* --------------------------------------------------------------------- *)
(** ** The name of the converted file *)

Lemma rfind_from_no_sep i s :
  Py.has_sep s = false -> Py.rfind_from i Py.sep s = (-1)%Z.
Proof.
  revert i. induction s as [|a s IH]; intros i; [done|].
  cbn [Py.has_sep Py.rfind_from]. intros [Ha Hs]%orb_false_iff.
  rewrite IH by done. by rewrite Ha.
Qed.

Lemma rfind_from_no_dot i s :
  Py.contains s "." = false -> Py.rfind_from i "."%char s = (-1)%Z.
Proof.
  revert i. induction s as [|a s IH]; intros i; [done|].
  rewrite contains_unfold. intros [Ha Hs]%orb_false_iff.
  cbn [Py.rfind_from]. rewrite IH by done.
  change ((0 <=? -1)%Z) with false. cbv iota.
  destruct (Ascii.eqb_spec a "."%char) as [->|Hne]; [|done].
  assert (Py.startswith (String "."%char s) "." = true) as Hs'.
  { apply startswith_spec. by exists s. }
  congruence.
Qed.

Lemma rfind_from_last i c s1 s2 :
  (forall j, Py.rfind_from j c s2 = (-1)%Z) ->
  (0 <= i)%Z ->
  Py.rfind_from i c (s1 +:+ String c s2)
  = (i + Z.of_nat (String.length s1))%Z.
Proof.
  intros Hs2. revert i. induction s1 as [|a s1 IH]; intros i Hi.
  - rewrite sapp_nil_l. cbn [Py.rfind_from]. rewrite Hs2.
    rewrite Ascii.eqb_refl. simpl. lia.
  - rewrite sapp_cons. cbn [Py.rfind_from]. rewrite IH by lia.
    cbn [String.length].
    destruct (Z.leb_spec 0 (i + 1 + Z.of_nat (String.length s1))); lia.
Qed.

Lemma substring_all s : String.substring 0 (String.length s) s = s.
Proof. induction s as [|a s IH]; [done|]. simpl. by rewrite IH. Qed.

Lemma substring_prefix s1 s2 :
  String.substring 0 (String.length s1) (s1 +:+ s2) = s1.
Proof.
  induction s1 as [|a s1 IH]; [by destruct s2|].
  rewrite sapp_cons. simpl. by rewrite IH.
Qed.

Lemma substring_suffix s1 s2 :
  String.substring (String.length s1) (String.length s2) (s1 +:+ s2) = s2.
Proof.
  induction s1 as [|a s1 IH]; [rewrite sapp_nil_l; apply substring_all|].
  rewrite sapp_cons. simpl. apply IH.
Qed.

(** [os.path.splitext] on a name with a dot in it and no separator:
    the extension is what follows the last dot, unless only dots come
    before it. *)
Lemma splitext_last_dot stem ext :
  Py.has_sep (stem +:+ "." +:+ ext) = false ->
  Py.contains ext "." = false ->
  Py.splitext (stem +:+ "." +:+ ext)
  = if Py.all_dots stem then (stem +:+ "." +:+ ext, "")
    else (stem, "." +:+ ext).
Proof.
  intros Hsep Hdot. unfold Py.splitext, Py.rfind.
  rewrite rfind_from_no_sep by done.
  change (stem +:+ "." +:+ ext) with (stem +:+ String "."%char ext).
  rewrite rfind_from_last;
    [|intros j; by apply rfind_from_no_dot|done].
  rewrite Z.add_0_l.
  destruct (Z.ltb_spec (-1) (Z.of_nat (String.length stem))); [|lia].
  unfold Py.slice. change (-1 + 1)%Z with 0%Z.
  rewrite Z.sub_0_r, Nat2Z.id. change (Z.to_nat 0) with 0.
  rewrite substring_prefix.
  destruct (Py.all_dots stem); [done|]. f_equal.
  rewrite app_length_s, Nat2Z.inj_add, Z.add_simpl_l, Nat2Z.id.
  apply substring_suffix.
Qed.

Lemma basename_plain f : Py.has_sep f = false -> Py.basename f = f.
Proof.
  destruct f as [|a f]; [done|]. cbn [Py.has_sep Py.basename].
  intros [Ha Hf]%orb_false_iff. by rewrite Hf, Ha.
Qed.

Lemma basename_under pre f :
  Py.has_sep f = false -> Py.basename (pre +:+ "/" +:+ f) = f.
Proof.
  intros Hf. induction pre as [|a pre IH].
  - rewrite sapp_nil_l. change ("/" +:+ f) with (String "/"%char f).
    cbn [Py.basename]. by rewrite Hf.
  - rewrite sapp_cons. cbn [Py.basename].
    rewrite has_sep_app. change ("/" +:+ f) with (String "/"%char f).
    cbn [Py.has_sep]. rewrite Ascii.eqb_refl. simpl. rewrite orb_true_r.
    exact IH.
Qed.

Lemma basename_join d f :
  Py.has_sep f = false -> Py.basename (Py.join d f) = f.
Proof.
  intros Hf. unfold Py.join.
  assert (Py.startswith f "/" = false) as ->.
  { destruct (Py.startswith f "/") eqn:Hs; [|done].
    apply startswith_spec in Hs as (rest & ->). done. }
  destruct (String.eqb_spec d "") as [->|Hd]; simpl.
  - rewrite sapp_nil_l. by apply basename_plain.
  - destruct (Py.endswith d "/") eqn:He.
    + apply endswith_spec in He as (pre & ->).
      rewrite app_assoc_s. by apply basename_under.
    + by apply basename_under.
Qed.

(** X9.  The converted file is named after the stem of the image
    alone: for a file name [stem.ext] without separator, [ext] without
    dot and [stem] not made of dots only, the output path is
    [os.path.join(output_folder, stem + ".webp")], whatever the image
    folder and the extension.  Two images of one batch that differ in
    their extension only ([a.png], [a.jpg]) are converted to the same
    file. *)
Theorem webp_path_keeps_stem_only image_folder stem ext output_folder :
  Py.has_sep (stem +:+ "." +:+ ext) = false ->
  Py.contains ext "." = false ->
  Py.all_dots stem = false ->
  webp_path (Py.join image_folder (stem +:+ "." +:+ ext)) output_folder
  = Py.join output_folder (stem +:+ ".webp").
Proof.
  intros Hsep Hdot Hstem. unfold webp_path.
  rewrite basename_join, splitext_last_dot, Hstem by done. done.
Qed.

Lemma webp_path_keeps_stem_only_witness :
  webp_path "pics/a.png" "out" = "out/a.webp" /\
  webp_path "pics/a.jpg" "out" = "out/a.webp".
Proof.
  split.
  - apply (webp_path_keeps_stem_only "pics" "a" "png" "out");
      vm_compute; reflexivity.
  - apply (webp_path_keeps_stem_only "pics" "a" "jpg" "out");
      vm_compute; reflexivity.
Defined.

(* --------------------------------------------------------------------- *)
(** ** Nothing is removed *)

Lemma kept_refl fs : kept fs fs.
Proof. by intros p. Qed.

Lemma kept_trans fs1 fs2 fs3 : kept fs1 fs2 -> kept fs2 fs3 -> kept fs1 fs3.
Proof.
  intros H12 H23 p. destruct (H12 p), (H23 p). split; auto.
Qed.

(** Writing a file where no directory is keeps everything. *)
Lemma kept_insert_file fs q c :
  fs !! q <> Some Dir -> kept fs (<[q := File c]> fs).
Proof.
  intros Hq p. destruct (decide (q = p)) as [->|Hne].
  - rewrite lookup_insert_eq. split; [eauto | done].
  - by rewrite lookup_insert_ne.
Qed.

Lemma open_error_not_dir fs q : Fs.open_error fs q = None -> fs !! q <> Some Dir.
Proof.
  unfold Fs.open_error. destruct (decide (q = "")); [done|].
  destruct (Py.endswith q "/"); [done|]. by destruct (fs !! q) as [[]|].
Qed.

Lemma handle_kept `{External} {X} (o : op X) fs : kept fs (handle o fs).2.
Proof.
  destruct o as [q|q|q|q|argv|u|q|q text|q|q chunk]; simpl;
    try apply kept_refl.
  - unfold Fs.makedirs. destruct (decide (q = "")); [apply kept_refl|].
    destruct (fs !! q) eqn:Hq; [apply kept_refl|]. simpl. intros p.
    destruct (decide (q = p)) as [->|Hne].
    + rewrite lookup_insert_eq, Hq. split; [eauto | done].
    + by rewrite lookup_insert_ne.
  - destruct (ext_child argv fs) as [e|[rc out]]; [apply kept_refl|]. simpl.
    unfold Fs.child_output. destruct out as [data|]; [|apply kept_refl].
    destruct (Fs.output_arg argv) as [o|]; [|apply kept_refl].
    destruct (fs !! o) as [[c|]|] eqn:Ho; [|apply kept_refl|];
      apply kept_insert_file; congruence.
  - unfold Fs.append. destruct (Fs.open_error fs q) eqn:Hq; [apply kept_refl|].
    simpl. by apply kept_insert_file, open_error_not_dir.
  - unfold Fs.create. destruct (Fs.open_error fs q) eqn:Hq; [apply kept_refl|].
    simpl. by apply kept_insert_file, open_error_not_dir.
  - unfold Fs.write. destruct (fs !! q) as [[c|]|] eqn:Hq; try apply kept_refl.
    simpl. apply kept_insert_file. congruence.
Qed.

Lemma exec_kept `{External} {A} (p : prog A) fs : kept fs (exec p fs).1.2.
Proof.
  revert fs. induction p as [a|e|X o k IH]; intros fs;
    [apply kept_refl..|].
  simpl. pose proof (handle_kept o fs) as Hh.
  destruct (handle o fs) as [r fs1]. specialize (IH r fs1).
  destruct (exec (k r) fs1) as [[res fs2] evs]. simpl in *.
  by eapply kept_trans.
Qed.

Lemma run_kept `{External} worker items max_workers progress sched fs :
  kept fs (files (run worker items max_workers progress sched
                    (pool_init items fs))).
Proof.
  apply (run_invariant worker items max_workers progress
           (fun s => kept fs (files s))); [|apply kept_refl].
  intros s s' Hs Ht.
  destruct Ht as [s j item Hj Hitem| s j a Hj| s j e Hj| s j X o k r fs' Hj Hh
                 | s i Hi Hfi | s i Hi Hfi | s i e Hi Hfi | s e i m Hi
                 | s e i Hi | s r Hi Hidle]; try exact Hs.
  simpl. eapply kept_trans; [exact Hs|].
  pose proof (handle_kept o (files s)) as Hk. by rewrite Hh in Hk.
Qed.

Lemma with_executor_kept `{External} sched worker items max_threads progress
    summary fs :
  kept fs (files (b_pool (with_executor sched worker items max_threads
                            progress summary fs))).
Proof.
  unfold with_executor. destruct (max_threads <=? 0)%Z; [apply kept_refl|].
  pose proof (run_kept worker items max_threads progress sched fs) as Hk.
  destruct (pc _) as [| | |[|]]; exact Hk.
Qed.

(** X10.  Neither script removes anything: whatever the schedule, the
    arguments and the answers of the network and of [cwebp], every path
    there was when the script started is there at every later moment,
    and every directory is still a directory.  (Files may be rewritten:
    a download or a conversion replaces a file at its destination.) *)
Theorem nothing_removed `{External} sched threads fs :
  (forall image_folder output,
     kept fs (files (b_pool (converter_main sched image_folder output
                               threads fs)))) /\
  (forall url_file output,
     kept fs (files (b_pool (downloader_main sched url_file output
                               threads fs)))).
Proof.
  split.
  - intros image_folder output. unfold converter_main, convert_images_to_webp.
    pose proof (exec_kept (scan_images image_folder) fs) as Hk.
    destruct (exec (scan_images image_folder) fs) as [[[e|image_paths] fs'] evs];
      simpl in Hk; [exact Hk|].
    eapply kept_trans; [exact Hk | apply with_executor_kept].
  - intros url_file output. unfold downloader_main.
    pose proof (exec_kept (call (open_r url_file)) fs) as Hk.
    destruct (exec (call (open_r url_file)) fs) as [[[e|content] fs'] evs];
      simpl in Hk; [exact Hk|].
    eapply kept_trans; [exact Hk|]. unfold download_images.
    pose proof (exec_kept (ensure_folder output) fs') as Hk'.
    destruct (exec (ensure_folder output) fs') as [[[e|[]] fs''] evs'];
      simpl in Hk'; [exact Hk'|].
    eapply kept_trans; [exact Hk' | apply with_executor_kept].
Qed.

(* --------------------------------------------------------------------- *)
(** ** Scripts that cannot start *)

(** X11.  A script whose input is missing changes nothing: when the
    image folder is no directory the converter raises the [OSError] of
    [os.listdir], when the URL file is no file the downloader raises
    the one of [open]; in both cases nothing was printed, no call was
    submitted and the file system is as it was (no output folder, no
    error log). *)
Theorem missing_input_changes_nothing `{External} sched threads fs :
  (forall image_folder output,
     image_folder = "" \/ fs !! image_folder <> Some Dir ->
     exists code,
       converter_main sched image_folder output threads fs
       = raised (OSError code image_folder) fs) /\
  (forall url_file output,
     (forall c, fs !! url_file <> Some (File c)) ->
     exists code,
       downloader_main sched url_file output threads fs
       = raised (OSError code url_file) fs).
Proof.
  split.
  - intros image_folder output Hdir.
    unfold converter_main, convert_images_to_webp.
    destruct (exec_scan_images image_folder fs) as (evs & ->).
    unfold Fs.listdir. destruct (decide (image_folder = "")); [eauto|].
    destruct Hdir as [?|Hdir]; [done|].
    destruct (fs !! image_folder) as [[c|]|]; [eauto|done|eauto].
  - intros url_file output Hfile. unfold downloader_main. simpl.
    unfold Fs.read. destruct (fs !! url_file) as [[c|]|] eqn:Hf; [|eauto..].
    by destruct (Hfile c).
Qed.

Lemma missing_input_changes_nothing_witness :
  (exists code,
     @converter_main Sample.env Sample.one_by_one "pics/a.PNG" "webp_images"
       8 Sample.pics
     = raised (OSError code "pics/a.PNG") Sample.pics) /\
  (exists code,
     @downloader_main Sample.env Sample.one_by_one "urls.txt" "images" 8
       Sample.pics
     = raised (OSError code "urls.txt") Sample.pics).
Proof.
  destruct (@missing_input_changes_nothing Sample.env Sample.one_by_one 8
              Sample.pics) as [Hc Hd].
  split.
  - apply Hc. right. vm_compute. discriminate.
  - apply Hd. intros c. vm_compute. discriminate.
Defined.

(** X12.  The empty string is no output folder.  [os.path.exists] is
    false of it and [os.makedirs] raises [FileNotFoundError]:
    [download_images] raises it before it submits anything, and
    [convert_to_webp], which catches [CalledProcessError] only, raises
    it at every call, without running [cwebp] and without an entry in
    the error log. *)
Theorem empty_output_folder_fails `{External} error_log fs :
  (forall sched image_urls max_threads,
     download_images sched image_urls "" max_threads error_log fs
     = raised (OSError ENOENT "") fs) /\
  (forall image_path,
     exec (convert_to_webp image_path "" error_log) fs
     = (inl (OSError ENOENT ""), fs,
        [EvExists "" (inr false);
         EvMakedirs "" (inl (OSError ENOENT ""))])).
Proof.
  split.
  - intros sched image_urls max_threads. unfold download_images.
    rewrite exec_ensure_folder. done.
  - intros image_path. unfold convert_to_webp. rewrite exec_try_except.
    done.
Qed.

(* --------------------------------------------------------------------- *)
(** ** One conversion, nothing else running *)

Lemma exists_spec fs p :
  p <> "" -> Fs.exists_ fs p = true <-> is_Some (fs !! p).
Proof.
  intros Hne. unfold Fs.exists_. rewrite decide_False by done.
  apply bool_decide_eq_true.
Qed.



(* --------------------------------------------------------------------- *)
(** ** When creating the output folder cannot fail *)

Lemma running_positive l j p :
  l !! j = Some (Running p) -> 0 < running_count l.
Proof.
  intros Hj. pose proof (running_count_insert l j Pending _ Hj) as Hc.
  simpl in Hc. lia.
Qed.

(** With at most one call running, the running call is the only one. *)
Lemma running_alone l j j' p p' :
  running_count l <= 1 ->
  l !! j = Some (Running p) -> l !! j' = Some (Running p') -> j = j'.
Proof.
  intros Hc Hj Hj'. destruct (decide (j = j')) as [|Hne]; [done|].
  pose proof (running_count_insert l j Pending _ Hj) as Hi. simpl in Hi.
  assert (<[j := Pending]> l !! j' = Some (Running p')) as Hl
    by (by rewrite list_lookup_insert_ne).
  apply running_positive in Hl. lia.
Qed.

Lemma guarded_convert `{External} image_path output_folder error_log :
  guarded output_folder (convert_to_webp image_path output_folder error_log)
  /\ makes (convert_to_webp image_path output_folder error_log) = None.
Proof.
  split; [|done]. unfold convert_to_webp, convert_body.
  repeat first
    [ exact I
    | progress simpl
    | intros q Hq; discriminate Hq
    | intros q [= <-]; split; reflexivity
    | intros [?|[|]]
    | intros [?|?]
    | match goal with
      | |- context [if ?b then _ else _] => destruct b
      end
    | split ].
Qed.

Section ConvertFolder.
Context `{External}.
Variables output_folder error_log : string.
Variable items : list string.
Variable max_workers : Z.
Variable progress : nat -> nat -> string.
Hypothesis folder_named : output_folder <> "".

Let worker (image_path : string) : prog unit :=
  convert_to_webp image_path output_folder error_log.

Local Abbreviation transition := (transition worker items progress).
Local Abbreviation step := (step worker items max_workers progress).
Local Abbreviation run := (run worker items max_workers progress).

(** One move, made while a single call is running or while the folder
    is there, keeps every [os.makedirs] right. *)
Lemma folder_step s s' :
  running_count (futures s) <= 1 \/ is_Some (files s !! output_folder) ->
  about_to_make output_folder s -> makedirs_ok (trace s) ->
  transition s s' ->
  about_to_make output_folder s' /\ makedirs_ok (trace s').
Proof.
  intros Hone Hinv Htr Ht.
  destruct Ht as [s j item Hj Hitem| s j a Hj| s j e Hj| s j X o k r fs' Hj Hh
                 | s i Hi Hfi | s i Hi Hfi | s i e Hi Hfi | s e i m Hi
                 | s e i Hi | s r Hi Hidle]; try (split; [exact Hinv|exact Htr]).
  - split; [|exact Htr]. intros j' p. simpl.
    destruct (decide (j = j')) as [<-|Hne].
    + rewrite list_lookup_insert_eq by (by eapply lookup_lt_Some).
      intros [= <-]. destruct (guarded_convert item output_folder error_log)
        as [Hg Hm]. split; [exact Hg|]. intros q. unfold worker.
      rewrite Hm. done.
    + rewrite list_lookup_insert_ne by done. apply Hinv.
  - split; [|exact Htr]. intros j' p. simpl.
    destruct (decide (j = j')) as [<-|Hne].
    + rewrite list_lookup_insert_eq by (by eapply lookup_lt_Some). done.
    + rewrite list_lookup_insert_ne by done. apply Hinv.
  - split; [|exact Htr]. intros j' p. simpl.
    destruct (decide (j = j')) as [<-|Hne].
    + rewrite list_lookup_insert_eq by (by eapply lookup_lt_Some). done.
    + rewrite list_lookup_insert_ne by done. apply Hinv.
  - destruct (Hinv j _ Hj) as [Hg Hm]. simpl in Hg.
    destruct (Hg r) as [Hgr Hmr]. split.
    + intros j' p. simpl. destruct (decide (j = j')) as [<-|Hne].
      * rewrite list_lookup_insert_eq by (by eapply lookup_lt_Some).
        intros [= <-]. split; [exact Hgr|]. intros q Hq.
        destruct (Hmr q Hq) as [-> Hev]. split; [done|].
        destruct o; try discriminate Hev. simpl in Hev, Hh.
        injection Hev as -> ->. injection Hh as Hex <-.
        destruct (files s !! output_folder) eqn:Hf; [|done].
        assert (Fs.exists_ (files s) output_folder = true); [|congruence].
        apply exists_spec; [done|]. rewrite Hf. eauto.
      * rewrite list_lookup_insert_ne by done. intros Hj'.
        destruct (Hinv j' p Hj') as [Hg' Hm']. split; [exact Hg'|].
        intros q Hq. destruct (Hm' q Hq) as [-> Hnone]. exfalso.
        destruct Hone as [Hone|[n Hn]]; [|congruence].
        apply Hne. by eapply running_alone.
    + intros j' q a. simpl. rewrite elem_of_app, list_elem_of_singleton.
      intros [Hin|Heq]; [by eapply Htr|].
      injection Heq as -> Hev. destruct o; try discriminate Hev.
      simpl in Hev. injection Hev as Hq Ha. subst.
      destruct (Hm _ eq_refl) as [Hq Hnone]. subst. simpl in Hh.
      unfold Fs.makedirs in Hh. rewrite decide_False, Hnone in Hh by done.
      by injection Hh as <- _.
  - split; [|exact Htr]. intros j' p. simpl. rewrite list_lookup_alter.
    destruct (decide (i + S m = j')) as [<-|Hne]; [|apply Hinv].
    destruct (futures s !! (i + S m)) as [f|] eqn:Hf; [|done]. simpl.
    intros [= Hc]. destruct f; try discriminate Hc. simpl in Hc.
    injection Hc as ->. by apply (Hinv (i + S m)).
Qed.

Lemma folder_init fs :
  about_to_make output_folder (pool_init items fs)
  /\ makedirs_ok (trace (pool_init items fs)).
Proof.
  split.
  - intros j p. simpl. rewrite list_lookup_fmap.
    by destruct (items !! j).
  - intros j q a Hin. simpl in Hin. by apply elem_of_nil in Hin.
Qed.

(** The folder is there from the start. *)
Lemma run_folder_there sched fs :
  is_Some (fs !! output_folder) ->
  makedirs_ok (trace (run sched (pool_init items fs))).
Proof.
  intros Hthere.
  assert (let s := run sched (pool_init items fs) in
          is_Some (files s !! output_folder) /\
          about_to_make output_folder s /\ makedirs_ok (trace s)) as Hs;
    [|by destruct Hs as (_ & _ & Hs)].
  apply (run_invariant worker items max_workers progress
           (fun s => is_Some (files s !! output_folder) /\
                     about_to_make output_folder s /\
                     makedirs_ok (trace s))).
  - intros s s' (Hf & Ha & Hm) Ht. split.
    + destruct Ht; try exact Hf. simpl.
      match goal with Hh : handle ?o _ = _ |- _ =>
        pose proof (handle_kept o (files s) output_folder) as [Hk _];
        rewrite Hh in Hk end.
      by apply Hk.
    + eapply folder_step; eauto.
  - split; [exact Hthere | apply folder_init].
Qed.

End ConvertFolder.

(** One pool thread. *)
Lemma run_single_thread `{External} output_folder error_log items progress
    sched fs :
  output_folder <> "" ->
  makedirs_ok
    (trace (run (fun image_path =>
                   convert_to_webp image_path output_folder error_log)
              items 1 progress sched (pool_init items fs))).
Proof.
  intros Hne.
  set (worker := fun image_path =>
                   convert_to_webp image_path output_folder error_log).
  assert (let s := run worker items 1 progress sched (pool_init items fs) in
          (Z.of_nat (running_count (futures s)) <= 1)%Z /\
          about_to_make output_folder s /\ makedirs_ok (trace s)) as Hs;
    [|by destruct Hs as (_ & _ & Hs)].
  apply (run_step_invariant worker items 1 progress
           (fun s => (Z.of_nat (running_count (futures s)) <= 1)%Z /\
                     about_to_make output_folder s /\
                     makedirs_ok (trace s))).
  - intros c s s' (Hc & Ha & Hm) Hstep. split.
    + by eapply step_bounded.
    + eapply folder_step; eauto; [left; lia|]. by eapply step_transition.
  - split; [simpl; rewrite running_count_pending; lia|].
    by apply folder_init.
Qed.



(* --------------------------------------------------------------------- *)
(** ** Every run can be brought to its end *)

Lemma busy_cons f l :
  busy (f :: l)
  = (if is_running f || is_pending f then 1 else 0) + busy l.
Proof.
  unfold busy. destruct (is_running f || is_pending f) eqn:Hf.
  - by rewrite filter_cons_True.
  - rewrite filter_cons_False; [done|]. by rewrite Hf.
Qed.

Lemma busy_insert l j f g :
  l !! j = Some g ->
  busy (<[j := f]> l) + (if is_running g || is_pending g then 1 else 0)
  = busy l + (if is_running f || is_pending f then 1 else 0).
Proof.
  revert j. induction l as [|h l IH]; intros j Hj; [done|].
  destruct j as [|j]; simpl in *.
  - injection Hj as ->. rewrite !busy_cons. lia.
  - rewrite !busy_cons. specialize (IH j Hj). lia.
Qed.

Lemma busy_idle l : busy l = 0 -> idle l = true.
Proof.
  induction l as [|f l IH]; [done|]. rewrite busy_cons. unfold idle in *.
  simpl. destruct (is_running f || is_pending f); simpl; [lia|].
  intros Hl. by apply IH.
Qed.

Lemma idle_cancel l j : idle l = true -> idle (alter cancel j l) = true.
Proof.
  intros Hl. apply idle_intro. intros j' f. rewrite list_lookup_alter.
  destruct (decide (j = j')) as [<-|Hne]; [|by apply idle_lookup].
  destruct (l !! j) as [g|] eqn:Hg; [|done]. simpl. intros [= <-].
  apply (idle_lookup _ _ _ Hl) in Hg. by destruct g.
Qed.

Section PoolEnds.
Context `{External}.
Variable worker : string -> prog unit.
Variable items : list string.
Variable max_workers : Z.
Variable progress : nat -> nat -> string.
Hypothesis some_thread : (1 <= max_workers)%Z.

Local Abbreviation step := (step worker items max_workers progress).
Local Abbreviation run := (run worker items max_workers progress).
Local Abbreviation reachable := (reachable worker items max_workers progress).

Lemma run_app sched more s : run (sched ++ more) s = run more (run sched s).
Proof. revert s. induction sched as [|c sched IH]; intros s; simpl; auto. Qed.

Lemma reachable_run fs more s : reachable fs s -> reachable fs (run more s).
Proof.
  intros [sched ->]. exists (sched ++ more). symmetry. apply run_app.
Qed.

Lemma reachable_step fs c s s' :
  reachable fs s -> step c s = Some s' -> reachable fs s'.
Proof.
  intros Hr Hc. apply (reachable_run fs [c]) in Hr. simpl in Hr.
  by rewrite Hc in Hr.
Qed.

Lemma run_cons c sched s s' :
  step c s = Some s' -> run (c :: sched) s = run sched s'.
Proof. intros Hc. simpl. by rewrite Hc. Qed.

(** A call that is running comes to its end when its thread is given
    the turns. *)
Lemma work_out (p : prog unit) s j :
  futures s !! j = Some (Running p) ->
  exists n r,
    futures (run (replicate n (Work j)) s) = <[j := Finished r]> (futures s)
    /\ pc (run (replicate n (Work j)) s) = pc s.
Proof.
  revert s. induction p as [a|e|X o k IH]; intros s Hj.
  - exists 1, Returned. simpl. unfold step_work. by rewrite Hj.
  - exists 1, (Raised e). simpl. unfold step_work. by rewrite Hj.
  - destruct (handle o (files s)) as [r fs'] eqn:Hh.
    set (s1 := {| futures := <[j := Running (k r)]> (futures s);
                  pc := pc s; completed := completed s;
                  stdout := stdout s; files := fs';
                  trace := trace s ++ [(j, ev_of o r)] |}).
    assert (step (Work j) s = Some s1) as Hstep.
    { simpl. unfold step_work. by rewrite Hj, Hh. }
    destruct (IH r s1) as (n & r' & Hf & Hpc).
    { simpl. apply list_lookup_insert_eq. by eapply lookup_lt_Some. }
    exists (S n), r'. cbn [replicate]. rewrite (run_cons _ _ _ _ Hstep).
    rewrite Hf, Hpc. simpl. by rewrite list_insert_insert_eq.
Qed.

(** The pool threads can end every call that was submitted. *)
Lemma drain fs n s :
  reachable fs s -> busy (futures s) <= n ->
  exists more, idle (futures (run more s)) = true.
Proof.
  revert s. induction n as [|n IH]; intros s Hr Hb.
  { exists []. simpl. apply busy_idle. lia. }
  destruct (idle (futures s)) eqn:Hidle; [by exists []|].
  assert (length (futures s) = length items) as Hlen.
  { destruct Hr as [sched ->].
    by destruct (run_counted worker items max_workers progress sched fs). }
  destruct (decide (0 < running_count (futures s))) as [Hc|Hc].
  - destruct (running_exists _ Hc) as (j & p & Hj).
    destruct (work_out p s j Hj) as (k & r & Hf & _).
    destruct (IH (run (replicate k (Work j)) s)) as [more Hmore].
    + by apply reachable_run.
    + rewrite Hf. pose proof (busy_insert _ _ (Finished r) _ Hj) as Hi.
      simpl in Hi. lia.
    + exists (replicate k (Work j) ++ more). by rewrite run_app.
  - destruct (not_idle _ Hidle) as (j & f & Hj & Hf).
    assert (f = Pending) as ->.
    { destruct f; try done. apply running_positive in Hj. lia. }
    destruct (first_pending_exists _ _ Hj) as (j' & Hfirst & Hj').
    rewrite Hlen in Hj'. apply lookup_lt_is_Some in Hj' as [item Hitem].
    assert (step Start s = Some (set_future s j' (Running (worker item))))
      as Hstart.
    { simpl. unfold step_start.
      destruct (Z.ltb_spec (Z.of_nat (running_count (futures s))) max_workers);
        [|lia].
      rewrite Hfirst. simpl. by rewrite Hitem. }
    apply first_pending_lookup in Hfirst.
    destruct (work_out (worker item)
                (set_future s j' (Running (worker item))) j')
      as (k & r & Hfin & _).
    { simpl. apply list_lookup_insert_eq. by eapply lookup_lt_Some. }
    simpl in Hfin. rewrite list_insert_insert_eq in Hfin.
    destruct (IH (run (replicate k (Work j'))
                    (set_future s j' (Running (worker item)))))
      as [more Hmore].
    + apply reachable_run. by eapply reachable_step.
    + rewrite Hfin.
      pose proof (busy_insert _ _ (Finished r) _ Hfirst) as Hi.
      simpl in Hi. lia.
    + exists (Start :: replicate k (Work j') ++ more).
      by rewrite (run_cons _ _ _ _ Hstart), run_app.
Qed.

Lemma joining_exits s r :
  pc s = Joining r -> idle (futures s) = true ->
  exists more r', pc (run more s) = Exited r'.
Proof.
  intros Hpc Hidle. exists [Main], r. simpl. unfold step_main.
  by rewrite Hpc, Hidle.
Qed.

Lemma cancelling_exits m s e i :
  pc s = Cancelling e i m -> idle (futures s) = true ->
  exists more r', pc (run more s) = Exited r'.
Proof.
  revert s. induction m as [|m IH]; intros s Hpc Hidle.
  - destruct (joining_exits (set_pc s (Joining (Raised e))) (Raised e))
      as (more & r & Hmore); [done..|].
    exists (Main :: more), r. rewrite (run_cons _ _ _ (set_pc s (Joining (Raised e)))); [done|].
    simpl. unfold step_main. by rewrite Hpc.
  - set (s1 := {| futures := alter cancel (i + S m) (futures s);
                  pc := Cancelling e i m; completed := completed s;
                  stdout := stdout s; files := files s; trace := trace s |}).
    destruct (IH s1) as (more & r & Hmore); [done|by apply idle_cancel|].
    exists (Main :: more), r. rewrite (run_cons _ _ _ s1); [done|].
    simpl. unfold step_main. by rewrite Hpc.
Qed.

Lemma iterating_exits fs k s i :
  reachable fs s -> pc s = Iterating i -> length (futures s) - i <= k ->
  idle (futures s) = true ->
  exists more r', pc (run more s) = Exited r'.
Proof.
  revert s i. induction k as [|k IH]; intros s i Hr Hpc Hk Hidle.
  all: destruct (futures s !! i) as [[|p|[|e]|]|] eqn:Hi.
  all: try (apply (idle_lookup _ _ _ Hidle) in Hi as [? ?]; done).
  all: try (destruct Hr as [sched ->];
            by destruct (run_none_cancelled worker items max_workers progress
                           sched fs (ex_intro _ i Hpc) i)).
  all: try (destruct (joining_exits (set_pc s (Joining Returned)) Returned)
              as (more & r & Hmore); [done..|];
            exists (Main :: more), r;
            rewrite (run_cons _ _ _ (set_pc s (Joining Returned))); [done|];
            simpl; unfold step_main; by rewrite Hpc, Hi).
  all: try (destruct (cancelling_exits (length (futures s) - S i)
                        (set_pc s (Cancelling e i (length (futures s) - S i)))
                        e i) as (more & r & Hmore); [done..|];
            exists (Main :: more), r;
            rewrite (run_cons _ _ _
                       (set_pc s (Cancelling e i (length (futures s) - S i))));
              [done|];
            simpl; unfold step_main; by rewrite Hpc, Hi).
  - apply lookup_lt_Some in Hi. lia.
  - set (s1 := {| futures := futures s; pc := Iterating (S i);
                  completed := completed s + 1;
                  stdout := stdout s
                            ++ [progress (completed s + 1) (length items)
                                +:+ cr];
                  files := files s; trace := trace s |}).
    assert (step Main s = Some s1) as Hstep.
    { simpl. unfold step_main. by rewrite Hpc, Hi. }
    destruct (IH s1 (S i)) as (more & r & Hmore);
      [by eapply reachable_step|done|simpl; lia|done|].
    exists (Main :: more), r. by rewrite (run_cons _ _ _ _ Hstep).
Qed.

(** From wherever a schedule has led, the [with] block can be left. *)
Lemma can_exit fs s :
  reachable fs s -> exists more r, pc (run more s) = Exited r.
Proof.
  intros Hr. destruct (drain fs (busy (futures s)) s Hr) as [more1 Hidle];
    [done|].
  apply (reachable_run fs more1) in Hr.
  assert (exists more r, pc (run more (run more1 s)) = Exited r)
    as (more & r & Hmore).
  { destruct (pc (run more1 s)) as [i|e i m|r|r] eqn:Hpc.
    - by eapply (iterating_exits fs (length (futures (run more1 s)) - i)).
    - by eapply cancelling_exits.
    - by eapply joining_exits.
    - by exists [], r. }
  exists (more1 ++ more), r. by rewrite run_app.
Qed.

End PoolEnds.

Lemma with_executor_ends `{External} sched worker items max_threads progress
    summary fs :
  exists more,
    b_outcome (with_executor (sched ++ more) worker items max_threads
                 progress summary fs) <> None.
Proof.
  unfold with_executor. destruct (Z.leb_spec max_threads 0) as [Hle|Hgt].
  { by exists []. }
  destruct (can_exit worker items max_threads progress ltac:(lia) fs
              (run worker items max_threads progress sched
                 (pool_init items fs))) as (more & r & Hmore).
  { by exists sched. }
  exists more. rewrite run_app, Hmore. by destruct r.
Qed.

(** X15.  Neither batch function can get stuck: whatever has happened
    so far, under whatever schedule, the threads can go on in such a
    way that the function comes to its end, returning or raising.  The
    pool threads can end every call that is running or pending, and
    the main thread, its results at hand, leaves the loop and the
    [with] block. *)
Theorem batch_can_always_end `{External} sched max_threads error_log fs :
  (forall image_folder output_folder,
     exists more,
       b_outcome (convert_images_to_webp (sched ++ more) image_folder
                    output_folder max_threads error_log fs) <> None) /\
  (forall image_urls folder_name,
     exists more,
       b_outcome (download_images (sched ++ more) image_urls folder_name
                    max_threads error_log fs) <> None).
Proof.
  split.
  - intros image_folder output_folder. unfold convert_images_to_webp.
    destruct (exec (scan_images image_folder) fs) as [[[e|image_paths] fs'] evs].
    + by exists [].
    + apply with_executor_ends.
  - intros image_urls folder_name. unfold download_images.
    destruct (exec (ensure_folder folder_name) fs) as [[[e|[]] fs'] evs].
    + by exists [].
    + apply with_executor_ends.
Qed.

(* --------------------------------------------------------------------- *)
(** ** Where the two scripts write *)

Lemma not_append_appended p ev : is_append ev = false -> appended p ev = None.
Proof. by destruct ev. Qed.

Lemma entries_none p evs :
  Forall (fun ev => appended p ev = None) evs -> entries p evs = [].
Proof.
  unfold entries. induction 1 as [|ev evs Hev _ IH]; [done|]. simpl.
  by rewrite Hev.
Qed.

Section Confined.
Context `{External}.
Variable worker : string -> prog unit.
Variable items : list string.
Variable max_workers : Z.
Variable progress : nat -> nat -> string.
Variable P : event -> Prop.
Hypothesis worker_always : forall item, item ∈ items -> always P (worker item).

(** What every call of the worker satisfies, every call of the trace
    does. *)
Lemma tracked_always s :
  tracked worker items s -> Forall (fun te => P te.2) (trace s).
Proof.
  intros [_ Hall]. apply Forall_forall. intros [j ev] Hin%events_of_elem.
  specialize (Hall j). simpl.
  destruct (futures s !! j) as [f|]; [|rewrite Hall in Hin; by inversion Hin].
  destruct Hall as (item & Hitem & Hf).
  apply list_elem_of_lookup_2 in Hitem.
  assert (forall q, path (events_of j (trace s)) (worker item) q -> P ev)
    as Hq.
  { intros q Hp. eapply always_path in Hp as [Hp _];
      [|by apply worker_always].
    rewrite Forall_forall in Hp. by apply Hp. }
  destruct f; simpl in Hf; eauto; rewrite Hf in Hin; by inversion Hin.
Qed.

End Confined.

(** A path no call of the workers writes to is as it was. *)
Lemma with_executor_confined `{External} sched worker items max_threads
    progress summary fs p :
  (forall item, item ∈ items ->
     always (fun ev => touches p ev = false /\ appended p ev = None)
       (worker item)) ->
  files (b_pool (with_executor sched worker items max_threads progress
                   summary fs)) !! p = fs !! p.
Proof.
  intros Hw. unfold with_executor. destruct (max_threads <=? 0)%Z; [done|].
  set (s := run worker items max_threads progress sched (pool_init items fs)).
  assert (files s !! p = fs !! p) as Hs.
  { pose proof (tracked_always worker items _ Hw s
                  (run_tracked worker items max_threads progress sched fs))
      as Hall.
    pose proof (run_follows worker items max_threads progress p sched fs)
      as Hf. unfold follows in Hf. fold s in Hf. rewrite Hf.
    - rewrite entries_none; [done|]. apply Forall_fmap.
      eapply Forall_impl; [exact Hall|]. by intros te [].
    - eapply Forall_impl; [exact Hall|]. by intros te []. }
  destruct (pc s) as [| | |[|]]; exact Hs.
Qed.

Lemma convert_to_webp_confined `{External} image_path output_folder error_log
    p :
  p <> error_log -> p <> output_folder ->
  p <> webp_path image_path output_folder ->
  always (fun ev => touches p ev = false /\ appended p ev = None)
    (convert_to_webp image_path output_folder error_log).
Proof.
  intros Hlog Hfolder Hout. apply always_try_except.
  - eapply always_mono; [|by apply (convert_body_quiet _ _ p)].
    intros ev [Ht Ha]. split; [done | by apply not_append_appended].
  - intros e _. apply always_call. intros r. simpl. split; [done|].
    destruct r; [done|]. by rewrite decide_False.
Qed.

Lemma download_image_confined `{External} url folder_name error_log p :
  p <> error_log -> p <> save_path url folder_name ->
  always (fun ev => touches p ev = false /\ appended p ev = None)
    (download_image url folder_name error_log).
Proof.
  intros Hlog Hout. apply always_try_except.
  - eapply always_mono; [|by apply (download_body_quiet _ _ p)].
    intros ev [Ht Ha]. split; [done | by apply not_append_appended].
  - intros e _. apply always_call. intros r. simpl. split; [done|].
    destruct r; [done|]. by rewrite decide_False.
Qed.



(* --------------------------------------------------------------------- *)
(** ** One thread: the calls one after the other *)

Lemma first_pending_least l j i :
  first_pending l = Some j -> i < j -> l !! i <> Some Pending.
Proof.
  revert j i. induction l as [|f l IH]; intros j i; [done|].
  assert (forall j', first_pending l = Some j' -> j = S j' -> i < j ->
                     f <> Pending -> (f :: l) !! i <> Some Pending) as Hrest.
  { intros j' Hj' -> Hi Hf. destruct i as [|i]; simpl; [congruence|].
    apply (IH j'); [done | lia]. }
  simpl. destruct f.
  - intros [= <-] Hi. lia.
  - destruct (first_pending l) as [j'|]; [|done]. intros [= <-] Hi.
    by apply (Hrest j').
  - destruct (first_pending l) as [j'|]; [|done]. intros [= <-] Hi.
    by apply (Hrest j').
  - destruct (first_pending l) as [j'|]; [|done]. intros [= <-] Hi.
    by apply (Hrest j').
Qed.

Lemma one_after_another_snoc `{External} worker items d item fs :
  items !! d = Some item ->
  one_after_another worker (take (S d) items) fs
  = (exec (worker item) (one_after_another worker (take d items) fs)).1.2.
Proof.
  intros Hd. unfold one_after_another.
  by rewrite (take_S_r _ _ _ Hd), foldl_app.
Qed.

Section OneThread.
Context `{External}.
Variable worker : string -> prog unit.
Variable items : list string.
Variable progress : nat -> nat -> string.
Variable fs0 : gmap string node.

Local Abbreviation step := (step worker items 1 progress).
Local Abbreviation run := (run worker items 1 progress).
Local Abbreviation in_sequence := (in_sequence worker items fs0).

Lemma in_sequence_init : in_sequence (pool_init items fs0).
Proof.
  right. exists 0. split; [intros j Hj; lia|]. split.
  - intros j _. simpl. rewrite length_fmap. intros Hj.
    rewrite list_lookup_fmap. apply lookup_lt_is_Some in Hj as [item ->].
    done.
  - simpl. rewrite list_lookup_fmap. by destruct (items !! 0).
Qed.

Lemma in_sequence_step c s s' :
  length (futures s) = length items ->
  in_sequence s -> step c s = Some s' -> in_sequence s'.
Proof.
  intros Hlen [Hfault|(d & Hdone & Hrest & Hd)] Hstep.
  { left. destruct c as [|j|]; simpl in Hstep.
    - unfold step_start in Hstep. destruct (_ <? _)%Z; [|done].
      destruct (first_pending (futures s)) as [j|]; [|done]. simpl in Hstep.
      destruct (items !! j); [|done]. by injection Hstep as <-.
    - unfold step_work in Hstep.
      destruct (futures s !! j) as [[|p| |]|]; try done.
      destruct p as [a|e|X o k]; try (by injection Hstep as <-).
      destruct (handle o (files s)). by injection Hstep as <-.
    - unfold step_main in Hstep.
      destruct (pc s) as [i|e i [|m]|[|e]|r]; try done;
        try (by injection Hstep as <-).
      destruct (idle (futures s)); [|done]. by injection Hstep as <-. }
  assert (forall j p, futures s !! j = Some (Running p) -> j = d) as Hrun.
  { intros j p Hj. destruct (lt_eq_lt_dec j d) as [[Hlt| ->]|Hgt]; [|done|].
    - destruct (Hdone j Hlt) as [r Hr]. congruence.
    - rewrite Hrest in Hj; [done..|]. by eapply lookup_lt_Some. }
  destruct c as [|j|]; simpl in Hstep.
  - unfold step_start in Hstep.
    destruct (Z.ltb_spec (Z.of_nat (running_count (futures s))) 1) as [Hc|];
      [|done].
    destruct (first_pending (futures s)) as [j|] eqn:Hfirst; [|done].
    simpl in Hstep. destruct (items !! j) as [item|] eqn:Hitem; [|done].
    injection Hstep as <-.
    pose proof (first_pending_lookup _ _ Hfirst) as Hj.
    assert (j = d) as ->.
    { destruct (lt_eq_lt_dec j d) as [[Hlt| ->]|Hgt]; [|done|].
      - destruct (Hdone j Hlt) as [r Hr]. congruence.
      - exfalso. apply (first_pending_least _ _ d Hfirst Hgt).
        destruct (futures s !! d) as [[|p| |]|] eqn:Hfd; try done.
        + apply running_positive in Hfd. lia.
        + apply lookup_lt_Some in Hj. apply lookup_ge_None in Hfd. lia. }
    rewrite Hj in Hd. right. exists d. simpl.
    split; [|split].
    + intros j Hlt. rewrite list_lookup_insert_ne by lia. by apply Hdone.
    + intros j Hgt. rewrite length_insert. intros Hlt.
      rewrite list_lookup_insert_ne by lia. by apply Hrest.
    + rewrite list_lookup_insert_eq by (by eapply lookup_lt_Some).
      by rewrite (one_after_another_snoc _ _ _ _ _ Hitem), Hd.
  - unfold step_work in Hstep.
    destruct (futures s !! j) as [[|p| |]|] eqn:Hj; try done.
    pose proof (Hrun _ _ Hj) as ->. rewrite Hj in Hd.
    assert (forall f fs',
              fs' = one_after_another worker (take (S d) items) fs0 ->
              in_sequence {| futures := <[d := Finished f]> (futures s);
                             pc := pc s; completed := completed s;
                             stdout := stdout s; files := fs';
                             trace := trace s |}) as Hend.
    { intros f fs' Hfs. right. exists (S d). simpl. split; [|split].
      - intros j Hlt. destruct (decide (j = d)) as [->|Hne].
        + rewrite list_lookup_insert_eq by (by eapply lookup_lt_Some). eauto.
        + rewrite list_lookup_insert_ne by done. apply Hdone. lia.
      - intros j Hgt. rewrite length_insert. intros Hlt.
        rewrite list_lookup_insert_ne by lia. apply Hrest; lia.
      - rewrite list_lookup_insert_ne by lia.
        destruct (decide (S d < length (futures s))) as [Hlt|Hge].
        + by rewrite Hrest by lia.
        + by rewrite (proj2 (lookup_ge_None _ _)) by lia. }
    destruct p as [a|e|X o k].
    + injection Hstep as <-. by apply Hend.
    + injection Hstep as <-. by apply Hend.
    + destruct (handle o (files s)) as [r fs'] eqn:Hh. injection Hstep as <-.
      right. exists d. simpl. split; [|split].
      * intros j Hlt. rewrite list_lookup_insert_ne by lia. by apply Hdone.
      * intros j Hgt. rewrite length_insert. intros Hlt.
        rewrite list_lookup_insert_ne by lia. by apply Hrest.
      * rewrite list_lookup_insert_eq by (by eapply lookup_lt_Some).
        rewrite <- Hd. simpl. rewrite Hh.
        by destruct (exec (k r) fs') as [[? ?] ?].
  - unfold step_main in Hstep.
    destruct (pc s) as [i|e i [|m]|r|r] eqn:Hpc; try done.
    + destruct (futures s !! i) as [[|p|[|e]|]|]; try done;
        injection Hstep as <-; [right; by exists d | by left | right; by exists d].
    + injection Hstep as <-. by left.
    + injection Hstep as <-. by left.
    + destruct (idle (futures s)); [|done]. injection Hstep as <-.
      destruct r; [right; by exists d | by left].
Qed.

Lemma run_in_sequence sched : in_sequence (run sched (pool_init items fs0)).
Proof.
  assert (let s := run sched (pool_init items fs0) in
          length (futures s) = length items /\ in_sequence s) as Hs;
    [|by destruct Hs].
  apply (run_step_invariant worker items 1 progress
           (fun s => length (futures s) = length items /\ in_sequence s)).
  - intros c s s' [Hlen Hs] Hstep. split.
    + rewrite <- Hlen. eapply transition_length. by eapply step_transition.
    + by eapply in_sequence_step.
  - split; [apply length_fmap | apply in_sequence_init].
Qed.

(** When the [with] block is left without an exception, the file
    system is the one the calls lead to, made one after the other. *)
Lemma run_sequential sched :
  let s := run sched (pool_init items fs0) in
  pc s = Exited Returned ->
  files s = one_after_another worker items fs0.
Proof.
  intros s Hpc.
  destruct (run_counted worker items 1 progress sched fs0)
    as (Hlen & _ & Hdone & Hc). fold s in Hlen, Hdone, Hc.
  rewrite Hpc in Hc. destruct Hc as [Hall _]. rewrite Hall in Hdone.
  destruct (run_in_sequence sched) as [Hfault|(d & _ & _ & Hd)];
    fold s in Hfault || fold s in Hd.
  { by rewrite Hpc in Hfault. }
  destruct (decide (d < length items)) as [Hlt|Hge].
  { by rewrite (Hdone d Hlt) in Hd. }
  rewrite (proj2 (lookup_ge_None _ _)) in Hd by lia.
  by rewrite Hd, take_ge by lia.
Qed.

End OneThread.

Lemma with_executor_sequential `{External} sched worker items progress
    summary fs :
  let b := with_executor sched worker items 1 progress summary fs in
  b_outcome b = Some Returned ->
  b_submitted b = items /\
  files (b_pool b) = one_after_another worker items fs.
Proof.
  unfold with_executor. change (1 <=? 0)%Z with false. cbv iota.
  pose proof (run_sequential worker items progress fs sched) as Hs.
  simpl in Hs.
  destruct (pc (run worker items 1 progress sched (pool_init items fs)))
    as [| | |[|]]; simpl; try done.
  intros _. split; [done | by apply Hs].
Qed.

(** X17.  With one thread a batch is its calls one after the other.
    When [max_threads] is 1 and the batch function has returned, then
    whatever the schedule was, the file system is the one obtained by
    running the worker on each submitted item in turn, in the order of
    the input, each call to its end before the next starts
    ([download_images] after it has made sure of the folder). *)
Theorem single_thread_is_sequential `{External} sched error_log fs :
  (forall image_folder output_folder,
     let b := convert_images_to_webp sched image_folder output_folder 1
                error_log fs in
     b_outcome b = Some Returned ->
     files (b_pool b)
     = one_after_another
         (fun image_path => convert_to_webp image_path output_folder error_log)
         (b_submitted b) fs) /\
  (forall image_urls folder_name,
     let b := download_images sched image_urls folder_name 1 error_log fs in
     b_outcome b = Some Returned ->
     files (b_pool b)
     = one_after_another
         (fun url => download_image url folder_name error_log)
         image_urls (exec (ensure_folder folder_name) fs).1.2).
Proof.
  split.
  - intros image_folder output_folder. unfold convert_images_to_webp.
    destruct (exec_scan_images image_folder fs) as (evs & ->).
    destruct (Fs.listdir fs image_folder) as [e|names]; [done|].
    cbv zeta. intros Hret.
    destruct (with_executor_sequential _ _ _ _ _ _ Hret) as [-> Hfs]. done.
  - intros image_urls folder_name. unfold download_images.
    destruct (exec (ensure_folder folder_name) fs) as [[[e|[]] fs'] evs];
      [done|].
    cbv zeta. intros Hret.
    destruct (with_executor_sequential _ _ _ _ _ _ Hret) as [_ Hfs]. done.
Qed.

Lemma single_thread_is_sequential_witness :
  let b := @convert_images_to_webp Sample.env Sample.one_by_one "pics" "out"
             1 "log.txt" Sample.pics in
  files (b_pool b)
  = @one_after_another Sample.env
      (fun image_path => @convert_to_webp Sample.env image_path "out" "log.txt")
      (b_submitted b) Sample.pics.
Proof.
  intros b.
  apply (proj1 (@single_thread_is_sequential Sample.env Sample.one_by_one
                  "log.txt" Sample.pics) "pics" "out").
  vm_compute. reflexivity.
Defined.
